(** * xptlib: the SAS XPORT (XPT, version 5) reader of [xptlib.h]

    A shallow embedding of the decode pipeline of [xptlib.h]: the IBM
    hexadecimal floating point codec, the header validator, the variable
    descriptor parser and the two row decoders, followed by the properties
    of the design document that were checked against it.

    Conventions.
    - Machine integers are [Z] with the wrap-around written out ([u64]).
    - Raw data are [list byte]; a [std::string] is a [list byte] as well.
    - A [double] is its binary64 bit pattern, which is what
      [std::bit_cast<double>] produces.
    - The input stream is explicit state; an operation returns an
      [outcome] (a value, a C++ exception, or undefined behaviour) together
      with the state it leaves behind. *)

From Stdlib Require Import ZArith Lia List Strings.Byte Strings.String.
From stdpp Require Import base numbers list option.

Local Open Scope Z_scope.

(** ** Bytes and object representations *)

Definition byte_to_Z (b : byte) : Z := Z.of_N (Byte.to_N b).

Definition byte_of_Z (z : Z) : byte :=
  default x00 (Byte.of_N (Z.to_N (z mod 256))).

(** Little-endian value of a byte sequence. *)
Fixpoint le_decode (bs : list byte) : Z :=
  match bs with
  | [] => 0
  | b :: rest => byte_to_Z b + 256 * le_decode rest
  end.

(** Big-endian value of a byte sequence. *)
Definition be_decode (bs : list byte) : Z := le_decode (rev bs).

(** The [n] low-order bytes of [v], least significant first (two's
    complement for a negative [v]). *)
Fixpoint le_encode (n : nat) (v : Z) : list byte :=
  match n with
  | O => []
  | S k => byte_of_Z v :: le_encode k (v / 256)
  end.

(** A C++ character literal or string literal as bytes. *)
Definition bytes_of (s : string) : list byte := list_byte_of_string s.

(** [std::endian] *)
Inductive endian := little | big.

(** The integral types the reader uses. *)
Inductive integral := uint16_t | int32_t | uint64_t.

Definition sizeof_integral (T : integral) : nat :=
  match T with uint16_t => 2%nat | int32_t => 4%nat | uint64_t => 8%nat end.

Definition is_signed (T : integral) : bool :=
  match T with int32_t => true | _ => false end.

Definition bit_width (T : integral) : Z := 8 * Z.of_nat (sizeof_integral T).

(** The value of type [T] whose unsigned bit pattern is [u]. *)
Definition of_unsigned (T : integral) (u : Z) : Z :=
  if is_signed T && (2 ^ (bit_width T - 1) <=? u) then u - 2 ^ bit_width T else u.

(** [size_t] arithmetic is modulo 2^64. *)
Definition u64 (z : Z) : Z := z mod 2 ^ 64.

(** [static_cast<size_t>] of an integral value. *)
Definition to_size_t (z : Z) : Z := u64 z.

(** A binary64 value, given by its bit pattern. *)
Inductive double := bit_cast_double (ieee : Z).

Definition double_bits (d : double) : Z := let 'bit_cast_double z := d in z.

(** The fields of a binary64 bit pattern. *)
Definition double_sign (d : double) : Z := double_bits d / 2 ^ 63.
Definition double_exponent (d : double) : Z := (double_bits d / 2 ^ 52) mod 2 ^ 11.
Definition double_fraction (d : double) : Z := double_bits d mod 2 ^ 52.

(** A double is a zero (0.0 or -0.0) when exponent and fraction are zero. *)
Definition double_is_zero (d : double) : bool :=
  (double_exponent d =? 0) && (double_fraction d =? 0).

(** For a normal number (exponent field in 1..2046) the value is
    (-1)^sign * (2^52 + fraction) * 2^(exponent - 1075); this gives the
    pair (signed significand, power of two). *)
Definition double_normal_value (d : double) : option (Z * Z) :=
  let e := double_exponent d in
  if (1 <=? e) && (e <=? 2046)
  then Some ((if double_sign d =? 0 then 1 else -1) * (2 ^ 52 + double_fraction d),
             e - 1075)
  else None.

Section Host.

(** [std::endian::native] of the machine the reader is compiled for. *)
Variable native : endian.

(** [std::bit_cast<std::array<std::byte, sizeof(T)>>(value)] *)
Definition object_representation (T : integral) (value : Z) : list byte :=
  match native with
  | little => le_encode (sizeof_integral T) value
  | big => rev (le_encode (sizeof_integral T) value)
  end.

(** [std::bit_cast<T>(bytes)], also what copying bytes over a [T] gives. *)
Definition value_of_representation (T : integral) (bs : list byte) : Z :=
  of_unsigned T (match native with
                 | little => le_decode bs
                 | big => be_decode bs
                 end).

(** [To_Machine_Endian_Raw] *)
Definition To_Machine_Endian_Raw (T : integral) (value : Z) : Z :=
  match native with
  | big => value
  | little =>
      let value_representation := object_representation T value in
      value_of_representation T (rev value_representation)
  end.

(** [IbmToIEEE]: the statements of the source in order; every
    intermediate is a [uint64_t]. *)
Definition IbmToIEEE (raw : Z) : double :=
  let in_ := To_Machine_Endian_Raw uint64_t raw in
  let sign := Z.land in_ 0x8000000000000000 in
  let exponent := Z.shiftr (Z.land in_ 0x7f00000000000000) 56 in
  let mantissa := Z.land in_ 0x00ffffffffffffff in
  let shift :=
    if negb (Z.land in_ 0x0080000000000000 =? 0) then 3
    else if negb (Z.land in_ 0x0040000000000000 =? 0) then 2
    else if negb (Z.land in_ 0x0020000000000000 =? 0) then 1
    else 0 in
  let mantissa := Z.shiftr mantissa shift in
  let mantissa := Z.land mantissa 0xffefffffffffffff in
  let exponent := u64 (exponent - 65) in
  let exponent := u64 (Z.shiftl exponent 2) in
  let exponent := u64 (exponent + shift + 1023) in
  let ieee := Z.lor (Z.lor sign (u64 (Z.shiftl exponent 52))) mantissa in
  bit_cast_double ieee.

End Host.

(** ** The codec as the design document words it

    Sign in bit 63, a 7-bit excess-64 exponent in bits 56-62, a 56-bit
    mantissa in bits 0-55. *)

Definition ibm_sign (v : Z) : Z := v / 2 ^ 63.
Definition ibm_exponent (v : Z) : Z := (v / 2 ^ 56) mod 2 ^ 7.
Definition ibm_mantissa (v : Z) : Z := v mod 2 ^ 56.

(** The top nibble of a 56-bit mantissa. *)
Definition top_nibble (m : Z) : Z := m / 2 ^ 52.

(** Number of leading zero bits of a nonzero 4-bit value. *)
Definition nibble_leading_zeros (n : Z) : Z := 3 - Z.log2 n.

(** The algorithm as the design document states it: [shift] is the number
    of leading zero bits of the top nibble, the mantissa is shifted right by
    [shift] and masked to 52 bits, and the exponent is
    ((ibmExponent - 64) * 4) + shift - 1 + 1023. *)
Definition documented_exponent (v : Z) : Z :=
  let shift := nibble_leading_zeros (top_nibble (ibm_mantissa v)) in
  (ibm_exponent v - 64) * 4 + shift - 1 + 1023.

Definition documented_fraction (v : Z) : Z :=
  let shift := nibble_leading_zeros (top_nibble (ibm_mantissa v)) in
  (ibm_mantissa v / 2 ^ shift) mod 2 ^ 52.

(** What the source computes: the shift is 3 minus the number of leading
    zero bits, i.e. the position of the leading one within the nibble. *)
Definition normalising_shift (v : Z) : Z :=
  3 - nibble_leading_zeros (top_nibble (ibm_mantissa v)).

Definition normalised_exponent (v : Z) : Z :=
  (ibm_exponent v - 64) * 4
  - nibble_leading_zeros (top_nibble (ibm_mantissa v)) - 1 + 1023.

Definition normalised_fraction (v : Z) : Z :=
  (ibm_mantissa v / 2 ^ normalising_shift v) mod 2 ^ 52.

(** ** Outcomes of an operation *)

(** The exceptions that can leave the reader: its own end-of-stream
    exception and the two that [std::stoull] and [std::stod] raise. *)
Inductive exception := CEOF_Exception | invalid_argument | out_of_range.

(** Accesses the C++ standard leaves undefined: [operator[]] of a vector
    past its size, and an iterator range past the end of a buffer. *)
Inductive undefined := vector_index_out_of_range | buffer_range_out_of_bounds.

Inductive outcome (A : Type) :=
| Ret (a : A)
| Throw (e : exception)
| Undefined (u : undefined).

Arguments Ret {A} a.
Arguments Throw {A} e.
Arguments Undefined {A} u.

Definition outcome_bind {A B} (m : outcome A) (k : A -> outcome B) : outcome B :=
  match m with
  | Ret a => k a
  | Throw e => Throw e
  | Undefined u => Undefined u
  end.

Notation "x <~ m ;; k" := (outcome_bind m (fun x => k))
  (at level 20, m at level 99, k at level 200, only parsing).

(** What [std::stod] does with a text: it returns a double, or throws
    [std::invalid_argument] (no conversion could be performed) or
    [std::out_of_range]. *)
Inductive conversion :=
| converted (d : double)
| no_conversion
| out_of_double_range.

Definition conversion_outcome (c : conversion) : outcome double :=
  match c with
  | converted d => Ret d
  | no_conversion => Throw invalid_argument
  | out_of_double_range => Throw out_of_range
  end.

(** ** Characters and strings *)

#[global] Instance byte_eq_decision : EqDecision byte := byte_eq_dec.

(** [std::isspace] in the "C" locale. *)
Definition isspace (ch : byte) : bool :=
  let c := byte_to_Z ch in (c =? 32) || ((9 <=? c) && (c <=? 13)).

Definition isdigit (ch : byte) : bool :=
  let c := byte_to_Z ch in (48 <=? c) && (c <=? 57).

Definition is_nul (ch : byte) : bool := byte_to_Z ch =? 0.

Fixpoint drop_while {A} (p : A -> bool) (l : list A) : list A :=
  match l with
  | [] => []
  | x :: rest => if p x then drop_while p rest else l
  end.

Fixpoint take_while {A} (p : A -> bool) (l : list A) : list A :=
  match l with
  | [] => []
  | x :: rest => if p x then x :: take_while p rest else []
  end.

(** [s.erase(std::find_if(s.rbegin(), s.rend(), keep).base(), s.end())]
    removes the longest suffix whose characters all fail [keep]; [skip]
    is the negation of [keep]. *)
Definition erase_trailing (skip : byte -> bool) (s : list byte) : list byte :=
  rev (drop_while skip (rev s)).

(** [s.erase(s.begin(), std::find_if(s.begin(), s.end(), keep))] *)
Definition erase_leading (skip : byte -> bool) (s : list byte) : list byte :=
  drop_while skip s.

(** [Char_To_String]: the whole character array, blanks trimmed on both
    sides. *)
Definition Char_To_String (ca : list byte) : list byte :=
  erase_leading isspace (erase_trailing isspace ca).

(** [std::stoull(str)] in base 10, after [strtoull]: the C string ends at
    the first NUL; leading white space, an optional sign, then digits.  No
    digit is [std::invalid_argument], a value that does not fit is
    [std::out_of_range], and a minus sign negates modulo 2^64. *)
Definition digits_value (ds : list byte) : Z :=
  fold_left (fun acc d => 10 * acc + (byte_to_Z d - 48)) ds 0.

Definition stoull (str : list byte) : outcome Z :=
  let s := drop_while isspace (take_while (fun ch => negb (is_nul ch)) str) in
  let '(negative, s) :=
    match s with
    | ch :: rest =>
        if byte_to_Z ch =? 45 then (true, rest)
        else if byte_to_Z ch =? 43 then (false, rest)
        else (false, s)
    | [] => (false, [])
    end in
  match take_while isdigit s with
  | [] => Throw invalid_argument
  | ds =>
      let v := digits_value ds in
      if 2 ^ 64 <=? v then Throw out_of_range
      else Ret (if negative then u64 (- v) else v)
  end.

(** ** The wire format *)

Module Header_Signature.
Inductive t := None | Library | Member | Descriptor | Namestr | Observation.

#[global] Instance eq_dec : EqDecision t.
Proof. solve_decision. Defined.
End Header_Signature.

Definition Header_Signature_Library : list byte := bytes_of "LIBRARY HEADER RECORD".
Definition Header_Signature_Member : list byte := bytes_of "MEMBER  HEADER RECORD".
Definition Header_Signature_Descriptor : list byte := bytes_of "DSCRPTR HEADER RECORD".
Definition Header_Signature_Namestr : list byte := bytes_of "NAMESTR HEADER RECORD".
Definition Header_Signature_Observation : list byte := bytes_of "OBS     HEADER RECORD".

(** The signature lookup table; its five keys are distinct, so the order
    of the entries does not matter to a lookup. *)
Definition Signature_Map : list (list byte * Header_Signature.t) :=
  [ (Header_Signature_Library, Header_Signature.Library);
    (Header_Signature_Member, Header_Signature.Member);
    (Header_Signature_Descriptor, Header_Signature.Descriptor);
    (Header_Signature_Namestr, Header_Signature.Namestr);
    (Header_Signature_Observation, Header_Signature.Observation) ].

Fixpoint Signature_Map_find (key : list byte)
    (m : list (list byte * Header_Signature.t)) : option Header_Signature.t :=
  match m with
  | [] => None
  | (k, v) :: rest => if decide (k = key) then Some v else Signature_Map_find key rest
  end.

Module NVar_Type.
(** The two enumerators, and any other value a [static_cast] from the
    16-bit type code can produce. *)
Inductive t := Numeric | String | Other (code : Z).

Definition of_Z (code : Z) : t :=
  if code =? 1 then Numeric else if code =? 2 then String else Other code.
End NVar_Type.

(** The packed structs ([#pragma pack(1)]).  A struct value is the
    sequence of its [sizeof] bytes, as the reader fills it by copying
    stream bytes over it; a member is the slice at its offset. *)
Module Layout.
Inductive t :=
| Data_Header_Generic
| File_Header_Record
| Date_Time_Record
| Member_Header_Record
| Member_Header_Record_2
| Namestr_Record_1
| Namestr_Record_2.

Definition sizeof (T : t) : nat :=
  match T with
  | Data_Header_Generic => 13 + 7 + 21 + 7 + 6 * 5
  | Date_Time_Record => 2 + 3 + 2 + 1 + 2 + 1 + 2 + 1 + 2
  | File_Header_Record => 2 * 8 + 8 + 8 + 8 + 24 + 16
  | Member_Header_Record => 8 + 8 + 8 + 8 + 8 + 24 + 16
  | Member_Header_Record_2 => 16 + 16 + 40 + 8
  | Namestr_Record_1 => 2 + 2 + 2 + 2 + 8 + 40 + 8 + 2 + 2 + 2 + 2 + 8
  | Namestr_Record_2 => 2 + 2 + 4 + 52
  end%nat.

#[global] Instance eq_dec : EqDecision t.
Proof. solve_decision. Defined.
End Layout.

Definition member (offset len : nat) (struct : list byte) : list byte :=
  take len (drop offset struct).

(** [Data_Header_Generic] *)
Definition namedesc : list byte -> list byte := member 20 21.
Definition num2 : list byte -> list byte := member 53 5.

(** [Namestr_Record_1] *)
Definition ntype : list byte -> list byte := member 0 2.
Definition nlng : list byte -> list byte := member 4 2.
Definition nvar0 : list byte -> list byte := member 6 2.
Definition nname : list byte -> list byte := member 8 8.
Definition nlabel : list byte -> list byte := member 16 40.

(** [Namestr_Record_2] *)
Definition npos : list byte -> list byte := member 4 4.

Module NStatus.
Inductive t :=
| Ok
| No_Library_Header
| No_Member_Header
| No_Descriptor_Header
| No_Namestr_Header
| No_Observation_Header.

#[global] Instance eq_dec : EqDecision t.
Proof. solve_decision. Defined.
End NStatus.

(** [TValue = std::variant<std::string, double>] *)
Inductive TValue :=
| TString (s : list byte)
| TDouble (d : double).

(** A value-initialised [TValue] holds its first alternative, empty. *)
Definition TValue_default : TValue := TString [].

Record Variable_Record := {
  name : list byte;
  label : list byte;
  type : NVar_Type.t;
  length_ : Z;
  varNum : Z;
  position : Z
}.

(** ** The input stream *)

(** [std::ifstream] over a file with the bytes [content]: the get
    position, [failbit] (once set, every later read extracts nothing) and
    the count of the last unformatted read. *)
Record ifstream := {
  content : list byte;
  gpos : nat;
  failbit : bool;
  gcount : nat
}.

(** The bytes the stream can still deliver. *)
Definition available (s : ifstream) : list byte :=
  if failbit s then [] else drop (gpos s) (content s).

(** [mFile.read(dst, count)]: extracts up to [count] bytes; fewer mean
    the end of the file was hit, which sets [failbit]. *)
Definition ifstream_read (s : ifstream) (count : nat) : list byte * ifstream :=
  let got := take count (available s) in
  (got,
   {| content := content s;
      gpos := (gpos s + length got)%nat;
      failbit := failbit s || (length got <? count)%nat;
      gcount := length got |}).

(** [mFile.seekg(count, std::ios::cur)]: no effect on a failed stream;
    otherwise the position moves, also past the end of the file. *)
Definition ifstream_seekg_cur (s : ifstream) (count : nat) : ifstream :=
  if failbit s then s
  else {| content := content s;
          gpos := (gpos s + count)%nat;
          failbit := false;
          gcount := gcount s |}.

(** What the reader did to its stream, in order.  This is bookkeeping of
    the model, kept to state which reads an operation performs; positions
    are those before the operation. *)
Inductive io_event :=
| ev_Read (T : Layout.t) (pos count got : nat)
| ev_Read_bytes (pos count got : nat)
| ev_Read_Discard (pos count : nat).

(** [xpt::File] *)
Record File := {
  mFile : ifstream;
  mVariables : list Variable_Record;
  mRecord_Len : Z;
  trace : list io_event
}.

(** A default-constructed [File] whose stream was opened on a file with
    the given bytes. *)
Definition File_opened (bytes : list byte) : File :=
  {| mFile := {| content := bytes; gpos := 0; failbit := false; gcount := 0 |};
     mVariables := [];
     mRecord_Len := 0;
     trace := [] |}.

(** Member functions: from a [File] to an outcome and the [File] left. *)
Definition M (A : Type) : Type := File -> outcome A * File.

Definition ret {A} (a : A) : M A := fun f => (Ret a, f).

Definition bind {A B} (m : M A) (k : A -> M B) : M B :=
  fun f =>
    match m f with
    | (Ret a, f') => k a f'
    | (Throw e, f') => (Throw e, f')
    | (Undefined u, f') => (Undefined u, f')
    end.

Definition lift {A} (o : outcome A) : M A := fun f => (o, f).

Notation "x <- m ;; k" := (bind m (fun x => k))
  (at level 20, m at level 99, k at level 200, only parsing).

Definition set_mFile (s : ifstream) (e : io_event) : M unit :=
  fun f => (Ret tt, {| mFile := s; mVariables := mVariables f;
                       mRecord_Len := mRecord_Len f; trace := trace f ++ [e] |}).

Definition set_mRecord_Len (n : Z) : M unit :=
  fun f => (Ret tt, {| mFile := mFile f; mVariables := mVariables f;
                       mRecord_Len := n; trace := trace f |}).

Definition emplace_back (v : Variable_Record) : M unit :=
  fun f => (Ret tt, {| mFile := mFile f; mVariables := mVariables f ++ [v];
                       mRecord_Len := mRecord_Len f; trace := trace f |}).

(** [Read<T, padded>()] *)
Definition Read (T : Layout.t) (padded : bool) : M (list byte) :=
  fun f =>
    let bytes_to_read := if padded then 80%nat else Layout.sizeof T in
    let '(data_padded, s) := ifstream_read (mFile f) bytes_to_read in
    (_ <- set_mFile s (ev_Read T (gpos (mFile f)) bytes_to_read (gcount s)) ;;
     if decide (gcount s = bytes_to_read)
     then ret (take (Layout.sizeof T) data_padded)
     else lift (Throw CEOF_Exception)) f.

(** [Read(target, byte_count)] *)
Definition Read_bytes (byte_count : Z) : M (list byte) :=
  fun f =>
    let '(target, s) := ifstream_read (mFile f) (Z.to_nat byte_count) in
    (_ <- set_mFile s (ev_Read_bytes (gpos (mFile f)) (Z.to_nat byte_count) (gcount s)) ;;
     if decide (Z.of_nat (gcount s) = byte_count)
     then ret target
     else lift (Throw CEOF_Exception)) f.

(** [Read_Discard(count)] *)
Definition Read_Discard (count : Z) : M unit :=
  fun f =>
    set_mFile (ifstream_seekg_cur (mFile f) (Z.to_nat count))
              (ev_Read_Discard (gpos (mFile f)) (Z.to_nat count)) f.

(** [Recognize_Data_Header] *)
Definition Recognize_Data_Header (gen : list byte) : Header_Signature.t :=
  match Signature_Map_find (namedesc gen) Signature_Map with
  | None => Header_Signature.None
  | Some sig => sig
  end.

Section Reader.

(** [std::endian::native], and the two conversions of the C++ standard
    library the coerced row decoder calls: [std::stod] and
    [std::to_string(double)]. *)
Variable native : endian.
Variable stod : list byte -> conversion.
Variable to_string : double -> list byte.

(** An integral member of a struct, converted as the reader does:
    [static_cast<size_t>(To_Machine_Endian_Raw(member))]. *)
Definition member_to_size_t (T : integral) (bs : list byte) : Z :=
  to_size_t (To_Machine_Endian_Raw native T (value_of_representation native T bs)).

(** [Get_From_Buffer<T>(buf, offset)]: the iterator range
    [buf.begin() + offset, buf.begin() + offset + sizeof(T)) must lie
    within the buffer. *)
Definition Get_From_Buffer (T : integral) (buf : list byte) (offset : Z)
    : outcome Z :=
  if offset + Z.of_nat (sizeof_integral T) <=? Z.of_nat (length buf)
  then Ret (value_of_representation native T
              (take (sizeof_integral T) (drop (Z.to_nat offset) buf)))
  else Undefined buffer_range_out_of_bounds.

(** [Get_From_Buffer(buf, offset, len)]: trailing white space and NUL
    characters are erased first, then leading white space. *)
Definition Get_From_Buffer_string (buf : list byte) (offset len : Z)
    : outcome (list byte) :=
  if offset + len <=? Z.of_nat (length buf)
  then
    let dst := take (Z.to_nat len) (drop (Z.to_nat offset) buf) in
    let dst := erase_trailing (fun ch => isspace ch || is_nul ch) dst in
    Ret (erase_leading isspace dst)
  else Undefined buffer_range_out_of_bounds.

(** The record [Read_Headers] appends for a descriptor: the arguments
    of its [mVariables.emplace_back]. *)
Definition Variable_Record_of (namestr1 namestr2 : list byte) : Variable_Record :=
  {| name := Char_To_String (nname namestr1);
     label := Char_To_String (nlabel namestr1);
     type := NVar_Type.of_Z
               (To_Machine_Endian_Raw native uint16_t
                  (value_of_representation native uint16_t (ntype namestr1)));
     length_ := member_to_size_t uint16_t (nlng namestr1);
     varNum := member_to_size_t uint16_t (nvar0 namestr1);
     position := member_to_size_t int32_t (npos namestr2) |}.

(** The descriptor loop of [Read_Headers]: [n] iterations remain and
    [readCnt] descriptor bytes have been read; returns the final
    [readCnt]. *)
Fixpoint read_namestrs (n : nat) (readCnt : Z) : M Z :=
  match n with
  | O => ret readCnt
  | S k =>
      namestr1 <- Read Layout.Namestr_Record_1 false ;;
      namestr2 <- Read Layout.Namestr_Record_2 false ;;
      let readCnt :=
        u64 (readCnt + Z.of_nat (Layout.sizeof Layout.Namestr_Record_1
                                 + Layout.sizeof Layout.Namestr_Record_2)) in
      let varLength := member_to_size_t uint16_t (nlng namestr1) in
      _ <- emplace_back (Variable_Record_of namestr1 namestr2) ;;
      _ <- (fun f => set_mRecord_Len (u64 (mRecord_Len f + varLength)) f) ;;
      read_namestrs k readCnt
  end.

(** [Read_Headers] *)
Definition Read_Headers : M NStatus.t :=
  hdr <- Read Layout.Data_Header_Generic true ;;
  if decide (Recognize_Data_Header hdr <> Header_Signature.Library)
  then ret NStatus.No_Library_Header
  else
  _ <- Read Layout.File_Header_Record true ;;
  _ <- Read Layout.Date_Time_Record true ;;
  hdr <- Read Layout.Data_Header_Generic true ;;
  if decide (Recognize_Data_Header hdr <> Header_Signature.Member)
  then ret NStatus.No_Member_Header
  else
  hdr <- Read Layout.Data_Header_Generic true ;;
  if decide (Recognize_Data_Header hdr <> Header_Signature.Descriptor)
  then ret NStatus.No_Descriptor_Header
  else
  _ <- Read Layout.Member_Header_Record true ;;
  _ <- Read Layout.Member_Header_Record_2 true ;;
  hdr <- Read Layout.Data_Header_Generic true ;;
  if decide (Recognize_Data_Header hdr <> Header_Signature.Namestr)
  then ret NStatus.No_Namestr_Header
  else
  _ <- set_mRecord_Len 0 ;;
  cnt <- lift (stoull (num2 hdr)) ;;
  readCnt <- read_namestrs (Z.to_nat cnt) 0 ;;
  let rest := readCnt mod 80 in
  _ <- (if decide (rest <> 0) then Read_Discard (80 - rest) else ret tt) ;;
  hdr <- Read Layout.Data_Header_Generic true ;;
  if decide (Recognize_Data_Header hdr <> Header_Signature.Observation)
  then ret NStatus.No_Observation_Header
  else ret NStatus.Ok.

(** The loop of the positional [Read_Next]: [n] iterations remain, the
    next one is for index [i]. *)
Fixpoint fill_target (vars : list Variable_Record) (data : list byte)
    (n i : nat) (target : list TValue) : outcome (list TValue) :=
  match n with
  | O => Ret target
  | S k =>
      match vars !! i with
      | None => Undefined vector_index_out_of_range
      | Some mvar =>
          match type mvar with
          | NVar_Type.Numeric =>
              num_raw <~ Get_From_Buffer uint64_t data (position mvar) ;;
              fill_target vars data k (S i)
                (<[i := TDouble (IbmToIEEE native num_raw)]> target)
          | NVar_Type.String =>
              s <~ Get_From_Buffer_string data (position mvar) (length_ mvar) ;;
              fill_target vars data k (S i) (<[i := TString s]> target)
          | NVar_Type.Other _ =>
              fill_target vars data k (S i) target
          end
      end
  end.

(** [Read_Next(std::vector<TValue>& target)]: the boolean result and
    the target vector as the call leaves it. *)
Definition Read_Next (target : list TValue) : M (bool * list TValue) :=
  fun f =>
    let target := resize (length (mVariables f)) TValue_default target in
    match Read_bytes (mRecord_Len f) f with
    | (Throw CEOF_Exception, f') => (Ret (false, target), f')
    | (Throw e, f') => (Throw e, f')
    | (Undefined u, f') => (Undefined u, f')
    | (Ret data, f') =>
        (match fill_target (mVariables f') data (length (mVariables f')) 0 target with
         | Ret target => Ret (true, target)
         | Throw e => Throw e
         | Undefined u => Undefined u
         end, f')
    end.

(** [Fetch_Column_Idx]: the parameter [arg] is a reference to a double
    or to a string; its alternative tells which, and the result is the
    value assigned to it. *)
Definition Fetch_Column_Idx (vars : list Variable_Record) (data : list byte)
    (argIdx : Z) (arg : TValue) : outcome TValue :=
  match vars !! Z.to_nat argIdx with
  | None => Undefined vector_index_out_of_range
  | Some mvar =>
      match arg with
      | TDouble _ =>
          match type mvar with
          | NVar_Type.Numeric =>
              num_raw <~ Get_From_Buffer uint64_t data (position mvar) ;;
              Ret (TDouble (IbmToIEEE native num_raw))
          | _ =>
              s <~ Get_From_Buffer_string data (position mvar) (length_ mvar) ;;
              d <~ conversion_outcome (stod s) ;;
              Ret (TDouble d)
          end
      | TString _ =>
          match type mvar with
          | NVar_Type.String =>
              s <~ Get_From_Buffer_string data (position mvar) (length_ mvar) ;;
              Ret (TString s)
          | _ =>
              num_raw <~ Get_From_Buffer uint64_t data (position mvar) ;;
              Ret (TString (to_string (IbmToIEEE native num_raw)))
          end
      end
  end.

(** [Fetch_Column]: the two overloads, the second argument of the model
    being the rest of the parameter pack.  The result pairs the
    parameters as the call leaves them (those after a failure keep their
    values) with the outcome. *)
Fixpoint Fetch_Column (vars : list Variable_Record) (data : list byte)
    (origCnt : Z) (arg : TValue) (args : list TValue)
    : list TValue * outcome unit :=
  match args with
  | [] =>
      match Fetch_Column_Idx vars data (u64 (origCnt - 1)) arg with
      | Ret v => ([v], Ret tt)
      | Throw e => ([arg], Throw e)
      | Undefined u => ([arg], Undefined u)
      end
  | arg' :: args' =>
      let i := u64 (origCnt - (Z.of_nat (length args) + 1)) in
      match Fetch_Column_Idx vars data i arg with
      | Ret v =>
          let '(rest, o) := Fetch_Column vars data origCnt arg' args' in
          (v :: rest, o)
      | Throw e => (arg :: args, Throw e)
      | Undefined u => (arg :: args, Undefined u)
      end
  end.

(** [Read_Next(Args&... args)] with at least one parameter (without
    any, the call to [Fetch_Column] does not compile).  The result pairs
    the parameters as the call leaves them with its outcome. *)
Definition Read_Next_args (arg : TValue) (args : list TValue)
    : File -> (list TValue * outcome bool) * File :=
  fun f =>
    let originalArgCount := Z.of_nat (length (arg :: args)) in
    match Read_bytes (mRecord_Len f) f with
    | (Throw CEOF_Exception, f') => ((arg :: args, Ret false), f')
    | (Throw e, f') => ((arg :: args, Throw e), f')
    | (Undefined u, f') => ((arg :: args, Undefined u), f')
    | (Ret data, f') =>
        let '(args', o) :=
          Fetch_Column (mVariables f') data originalArgCount arg args in
        ((args', match o with
                 | Ret _ => Ret true
                 | Throw e => Throw e
                 | Undefined u => Undefined u
                 end), f')
    end.

End Reader.

(** ** Transport files for the examples *)

Module Fixture.

(** [s] left-justified in a field of [n] bytes, filled with blanks. *)
Definition field (n : nat) (s : string) : list byte :=
  take n (bytes_of s ++ replicate n " "%byte).

(** Big-endian [n]-byte encoding. *)
Definition be (n : nat) (v : Z) : list byte := rev (le_encode n v).

(** An 80-byte header record with the given 21-byte text and the
    variable count in its second number field. *)
Definition header (sig : string) (count : string) : list byte :=
  bytes_of "HEADER RECORD*******" ++ field 21 sig ++ bytes_of "!!!!!!!"
  ++ bytes_of "00000" ++ field 5 count ++ bytes_of "00000000000000000000  ".

Definition timestamp : list byte := bytes_of "30OCT26:12:00:00".

Definition library_record_1 : list byte :=
  field 8 "SAS" ++ field 8 "SAS" ++ field 8 "SASLIB" ++ field 8 "9.4"
  ++ field 8 "LINUX" ++ field 24 "" ++ timestamp.

Definition library_record_2 : list byte := timestamp ++ field 64 "".

Definition member_record_1 : list byte :=
  field 8 "SAS" ++ field 8 "DATA" ++ field 8 "SASDATA" ++ field 8 "9.4"
  ++ field 8 "LINUX" ++ field 24 "" ++ timestamp.

Definition member_record_2 : list byte :=
  timestamp ++ field 16 "" ++ field 40 "a data set" ++ field 8 "".

(** One variable descriptor: the two namestr records, 140 bytes. *)
Definition namestr (ty len num : Z) (nm lbl : string) (pos : Z) : list byte :=
  be 2 ty ++ be 2 0 ++ be 2 len ++ be 2 num ++ field 8 nm ++ field 40 lbl
  ++ field 8 "" ++ be 2 0 ++ be 2 0 ++ be 2 0 ++ be 2 0 ++ field 8 ""
  ++ be 2 0 ++ be 2 0 ++ be 4 pos ++ replicate 52 x00.

(** The five header texts of a file. *)
Record signatures := {
  sig_library : string;
  sig_member : string;
  sig_descriptor : string;
  sig_namestr : string;
  sig_observation : string
}.

Definition good : signatures :=
  {| sig_library := "LIBRARY HEADER RECORD";
     sig_member := "MEMBER  HEADER RECORD";
     sig_descriptor := "DSCRPTR HEADER RECORD";
     sig_namestr := "NAMESTR HEADER RECORD";
     sig_observation := "OBS     HEADER RECORD" |}.

(** The same texts with one of them replaced. *)
Definition wrong : string := "UNKNOWN HEADER RECORD".

Definition bad_library : signatures :=
  {| sig_library := wrong; sig_member := sig_member good;
     sig_descriptor := sig_descriptor good; sig_namestr := sig_namestr good;
     sig_observation := sig_observation good |}.

Definition bad_member : signatures :=
  {| sig_library := sig_library good; sig_member := wrong;
     sig_descriptor := sig_descriptor good; sig_namestr := sig_namestr good;
     sig_observation := sig_observation good |}.

Definition bad_descriptor : signatures :=
  {| sig_library := sig_library good; sig_member := sig_member good;
     sig_descriptor := wrong; sig_namestr := sig_namestr good;
     sig_observation := sig_observation good |}.

Definition bad_namestr : signatures :=
  {| sig_library := sig_library good; sig_member := sig_member good;
     sig_descriptor := sig_descriptor good; sig_namestr := wrong;
     sig_observation := sig_observation good |}.

Definition bad_observation : signatures :=
  {| sig_library := sig_library good; sig_member := sig_member good;
     sig_descriptor := sig_descriptor good; sig_namestr := sig_namestr good;
     sig_observation := wrong |}.

(** A transport file: headers, descriptors padded to a multiple of 80
    bytes with blanks, the observation header, then the row data. *)
Definition image (sigs : signatures) (count : string)
    (namestrs : list byte) (rows : list byte) : list byte :=
  header (sig_library sigs) "00000"
  ++ library_record_1 ++ library_record_2
  ++ header (sig_member sigs) "00000"
  ++ header (sig_descriptor sigs) "00000"
  ++ member_record_1 ++ member_record_2
  ++ header (sig_namestr sigs) count
  ++ namestrs
  ++ replicate ((80 - length namestrs mod 80) mod 80) " "%byte
  ++ header (sig_observation sigs) "00000"
  ++ rows.

(** Two variables: a numeric X at offset 0 and a character NAME of 7
    bytes at offset 8. *)
Definition two_namestrs : list byte :=
  namestr 1 8 1 "X" "a number" 0 ++ namestr 2 7 2 "NAME" "a text" 8.

(** 1.0 and 100.5 in IBM hexadecimal floating point. *)
Definition ibm_one : list byte := be 8 0x4110000000000000.
Definition ibm_100_5 : list byte := be 8 0x4264800000000000.

Definition two_rows : list byte :=
  ibm_one ++ bytes_of "  42.5 " ++ ibm_100_5 ++ bytes_of "abc    ".

Definition file (sigs : signatures) : list byte :=
  image sigs "00002" two_namestrs two_rows.

(** The same file cut in the middle of its second row. *)
Definition truncated_file : list byte :=
  image good "00002" two_namestrs (take 19 two_rows).


(** A character variable of four bytes whose cell ends in NUL bytes. *)
Definition nul_cell_file : list byte :=
  image good "00001" (namestr 2 4 1 "NAME" "a text" 0)
        [ "A"%byte; "B"%byte; x00; x00 ].

(** The layout with a single descriptive record after the library
    header. *)
Definition single_record_file : list byte :=
  header "LIBRARY HEADER RECORD" "00000"
  ++ library_record_1
  ++ header "MEMBER  HEADER RECORD" "00000"
  ++ header "DSCRPTR HEADER RECORD" "00000"
  ++ member_record_1 ++ member_record_2
  ++ header "NAMESTR HEADER RECORD" "00002"
  ++ two_namestrs ++ replicate 40 " "%byte
  ++ header "OBS     HEADER RECORD" "00000"
  ++ two_rows.

(** A stand-in for [std::stod] on the texts the examples use: 42.5 is
    0x4045400000000000, and a text that does not start a number throws. *)
Definition stod (s : list byte) : conversion :=
  if decide (s = bytes_of "42.5") then converted (bit_cast_double 0x4045400000000000)
  else if decide (s = bytes_of "0") then converted (bit_cast_double 0)
  else no_conversion.

(** A stand-in for [std::to_string(double)]. *)
Definition to_string (d : double) : list byte :=
  if decide (double_bits d = 0x3FF0000000000000) then bytes_of "1.000000"
  else bytes_of "?".

(** The session after [Read_Headers] on a file. *)
Definition session (native : endian) (bytes : list byte) : File :=
  snd (Read_Headers native (File_opened bytes)).

End Fixture.

(** ** Vocabulary of the statements *)

(** The stream can deliver [n] more bytes. *)
Definition can_read (s : ifstream) (n : nat) : Prop :=
  failbit s = false /\ (gpos s + n <= length (content s))%nat.

#[global] Instance can_read_dec s n : Decision (can_read s n).
Proof. unfold can_read. apply _. Defined.

(** The number of bytes the stream can still deliver. *)
Definition remaining (s : ifstream) : nat := length (available s).

(** Files are shorter than 2^63 bytes (stream offsets are signed 64-bit
    integers). *)
Definition file_size_ok (s : ifstream) : Prop :=
  Z.of_nat (length (content s)) < 2 ^ 63.

(** The number of bytes [Read<T, padded>] asks for. *)
Definition bytes_to_read (T : Layout.t) (padded : bool) : nat :=
  if padded then 80%nat else Layout.sizeof T.

(** The session after a successful read of [n] bytes, logged as [e]. *)
Definition after_read (f : File) (n : nat) (e : io_event) : File :=
  {| mFile := {| content := content (mFile f);
                 gpos := (gpos (mFile f) + n)%nat;
                 failbit := false;
                 gcount := n |};
     mVariables := mVariables f;
     mRecord_Len := mRecord_Len f;
     trace := trace f ++ [e] |}.

(** The session after successful 80-byte reads that moved the stream [n]
    bytes on and were logged as [evs]. *)
Definition at_offset (f : File) (n : nat) (evs : list io_event) : File :=
  {| mFile := {| content := content (mFile f);
                 gpos := (gpos (mFile f) + n)%nat;
                 failbit := false;
                 gcount := 80 |};
     mVariables := mVariables f;
     mRecord_Len := mRecord_Len f;
     trace := trace f ++ evs |}.

(** The 80-byte block that starts [off] bytes after the position of the
    stream. *)
Definition block (f : File) (off : nat) : list byte :=
  take 80 (drop (gpos (mFile f) + off) (content (mFile f))).

(** A block carries a signature when the 21 bytes at its offset 20 are
    the signature text. *)
Definition carries (sig : list byte) (blk : list byte) : Prop :=
  take 21 (drop 20 blk) = sig.

#[global] Instance carries_dec sig blk : Decision (carries sig blk).
Proof. unfold carries. apply _. Defined.

(** The signature text the reader expects for a header kind. *)
Definition expected_text (sig : Header_Signature.t) : list byte :=
  match sig with
  | Header_Signature.None => []
  | Header_Signature.Library => Header_Signature_Library
  | Header_Signature.Member => Header_Signature_Member
  | Header_Signature.Descriptor => Header_Signature_Descriptor
  | Header_Signature.Namestr => Header_Signature_Namestr
  | Header_Signature.Observation => Header_Signature_Observation
  end.

(** The count field of a header block. *)
Definition count_field (blk : list byte) : list byte := take 5 (drop 53 blk).

(** The reads of [Read_Headers] up to the NAMESTR header, from position
    [p]. *)
Definition header_events (p : nat) : list io_event :=
  [ ev_Read Layout.Data_Header_Generic p 80 80;
    ev_Read Layout.File_Header_Record (p + 80) 80 80;
    ev_Read Layout.Date_Time_Record (p + 160) 80 80;
    ev_Read Layout.Data_Header_Generic (p + 240) 80 80;
    ev_Read Layout.Data_Header_Generic (p + 320) 80 80;
    ev_Read Layout.Member_Header_Record (p + 400) 80 80;
    ev_Read Layout.Member_Header_Record_2 (p + 480) 80 80;
    ev_Read Layout.Data_Header_Generic (p + 560) 80 80 ]%nat.

(** The reads of [n] descriptor pairs from position [p]. *)
Fixpoint namestr_events (p n : nat) : list io_event :=
  match n with
  | O => []
  | S k =>
      ev_Read Layout.Namestr_Record_1 p 80 80
      :: ev_Read Layout.Namestr_Record_2 (p + 80) 60 60
      :: namestr_events (p + 140) k
  end.

(** The [n] descriptors stored from position [p] of the file. *)
Fixpoint descriptors (native : endian) (c : list byte) (p n : nat)
    : list Variable_Record :=
  match n with
  | O => []
  | S k =>
      Variable_Record_of native (take 80 (drop p c)) (take 60 (drop (p + 80) c))
      :: descriptors native c (p + 140) k
  end.

(** The session after one iteration of the descriptor loop that found
    both records complete. *)
Definition after_namestr (native : endian) (f : File) : File :=
  let p := gpos (mFile f) in
  let c := content (mFile f) in
  let v := Variable_Record_of native (take 80 (drop p c)) (take 60 (drop (p + 80) c)) in
  {| mFile := {| content := c; gpos := (p + 140)%nat; failbit := false; gcount := 60 |};
     mVariables := mVariables f ++ [v];
     mRecord_Len := u64 (mRecord_Len f + length_ v);
     trace := trace f ++ [ ev_Read Layout.Namestr_Record_1 p 80 80;
                           ev_Read Layout.Namestr_Record_2 (p + 80) 60 60 ] |}.

(** The session after [n] such iterations. *)
Fixpoint after_namestrs (native : endian) (f : File) (n : nat) : File :=
  match n with
  | O => f
  | S k => after_namestrs native (after_namestr native f) k
  end.

(** The byte counter of the descriptor loop after [n] iterations. *)
Fixpoint readCnt_after (readCnt : Z) (n : nat) : Z :=
  match n with
  | O => readCnt
  | S k => readCnt_after (u64 (readCnt + 140)) k
  end.

Definition sum_lengths (vars : list Variable_Record) : Z :=
  foldr (fun v acc => length_ v + acc) 0 vars.

(** The padding the design document prescribes after [total] descriptor
    bytes. *)
Definition documented_padding (total : Z) : Z := (80 - total mod 80) mod 80.

(** The seek of [Read_Headers] after the descriptors, if any. *)
Definition padding_events (p : nat) (readCnt : Z) : list io_event :=
  if decide (readCnt mod 80 <> 0)
  then [ev_Read_Discard p (Z.to_nat (80 - readCnt mod 80))]
  else [].

(** The session after the eight header records up to the NAMESTR header
    were read and accepted. *)
Definition after_headers (f : File) : File :=
  {| mFile := {| content := content (mFile f);
                 gpos := (gpos (mFile f) + 640)%nat;
                 failbit := false;
                 gcount := 80 |};
     mVariables := mVariables f;
     mRecord_Len := 0;
     trace := trace f ++ header_events (gpos (mFile f)) |}.

(** The session after the alignment step that follows [readCnt]
    descriptor bytes. *)
Definition after_padding (f : File) (readCnt : Z) : File :=
  if decide (readCnt mod 80 <> 0)
  then {| mFile := ifstream_seekg_cur (mFile f) (Z.to_nat (80 - readCnt mod 80));
          mVariables := mVariables f;
          mRecord_Len := mRecord_Len f;
          trace := trace f ++ [ev_Read_Discard (gpos (mFile f))
                                 (Z.to_nat (80 - readCnt mod 80))] |}
  else f.

(** The session right before [Read_Headers] reads the observation
    header, when the NAMESTR header announces [n] descriptors. *)
Definition before_observation (native : endian) (f : File) (n : nat) : File :=
  after_padding (after_namestrs native (after_headers f) n) (readCnt_after 0 n).

(** Reads of a generic header record are the ones [Read_Headers] checks
    for a signature. *)
Definition is_header_read (e : io_event) : bool :=
  match e with
  | ev_Read Layout.Data_Header_Generic _ _ _ => true
  | _ => false
  end.

(** The events after the header read number [k] (from 0). *)
Fixpoint after_header_read (k : nat) (tr : list io_event) : list io_event :=
  match tr with
  | [] => []
  | e :: rest =>
      if is_header_read e
      then match k with
           | O => rest
           | S k' => after_header_read k' rest
           end
      else after_header_read k rest
  end.

(** The reads between header read [k] and the next header read. *)
Definition reads_between (k : nat) (tr : list io_event) : list io_event :=
  take_while (fun e => negb (is_header_read e)) (after_header_read k tr).

(** Two sessions that differ at most in the bytes of the four records
    [Read_Headers] reads without looking at them: the two after the LIBRARY
    header and the two after the DSCRPTR header. *)
Definition differ_in_dropped_records (f g : File) : Prop :=
  let p := gpos (mFile f) in
  gpos (mFile g) = p
  /\ mVariables g = mVariables f
  /\ trace g = trace f
  /\ length (content (mFile g)) = length (content (mFile f))
  /\ forall i,
       ¬ (p + 80 <= i < p + 240)%nat ->
       ¬ (p + 400 <= i < p + 560)%nat ->
       content (mFile g) !! i = content (mFile f) !! i.

(** The text of bytes with white space removed on both sides. *)
Definition whitespace_trimmed (s : list byte) : list byte :=
  erase_leading isspace (erase_trailing isspace s).

(** The bytes of a row cell. *)
Definition cell (data : list byte) (offset len : Z) : list byte :=
  take (Z.to_nat len) (drop (Z.to_nat offset) data).



(** The row buffer a row read fills: the next [mRecord_Len] bytes of the
    stream. *)
Definition row_buffer (f : File) : list byte :=
  take (Z.to_nat (mRecord_Len f)) (available (mFile f)).

(** The session after a call of [Read(target, byte_count)]. *)
Definition after_Read_bytes (f : File) (byte_count : Z) : File :=
  let n := Z.to_nat byte_count in
  let r := ifstream_read (mFile f) n in
  {| mFile := snd r;
     mVariables := mVariables f;
     mRecord_Len := mRecord_Len f;
     trace := trace f ++ [ev_Read_bytes (gpos (mFile f)) n (length (fst r))] |}.

(** The text [Get_From_Buffer] makes of the bytes of a cell. *)
Definition cell_text (bs : list byte) : list byte :=
  erase_leading isspace (erase_trailing (fun ch => isspace ch || is_nul ch) bs).

(** The value the positional decoder stores for a descriptor, if it
    stores one. *)
Definition decoded (data : list byte) (v : Variable_Record) : option TValue :=
  match type v with
  | NVar_Type.Numeric => Some (TDouble (IbmToIEEE big (be_decode (cell data (position v) 8))))
  | NVar_Type.String => Some (TString (cell_text (cell data (position v) (length_ v))))
  | NVar_Type.Other _ => None
  end.

(** [Fetch_Column] read as a pass over the parameters from left to
    right, the first of them matched with column [i]. *)
Fixpoint fetch_from (native : endian) (stod : list byte -> conversion)
    (to_string : double -> list byte) (vars : list Variable_Record)
    (data : list byte) (i : nat) (slots : list TValue)
    : list TValue * outcome unit :=
  match slots with
  | [] => ([], Ret tt)
  | a :: rest =>
      match Fetch_Column_Idx native stod to_string vars data (Z.of_nat i) a with
      | Ret w =>
          let '(out, o) := fetch_from native stod to_string vars data (S i) rest in
          (w :: out, o)
      | Throw e => (a :: rest, Throw e)
      | Undefined u => (a :: rest, Undefined u)
      end
  end.

(** ** Further vocabulary *)

(** The values a [T] can hold. *)
Definition in_range (T : integral) (v : Z) : Prop :=
  if is_signed T
  then - 2 ^ (bit_width T - 1) <= v < 2 ^ (bit_width T - 1)
  else 0 <= v < 2 ^ bit_width T.

(** The shift [IbmToIEEE] applies to the mantissa of a big-endian value:
    the position of the leading one within the top nibble, 0 when the
    nibble is zero. *)
Definition applied_shift (v : Z) : Z :=
  let n := top_nibble (ibm_mantissa v) in
  if n =? 0 then 0 else Z.log2 n.

(** The IBM number with bits [v] is
    (-1)^sign * mantissa * 2^[ibm_scale v]. *)
Definition ibm_scale (v : Z) : Z := 4 * (ibm_exponent v - 64) - 56.

Definition ibm_signum (v : Z) : Z := if ibm_sign v =? 0 then 1 else -1.

(** The characters [Get_From_Buffer] erases at the end of a cell. *)
Definition space_or_nul (ch : byte) : bool := isspace ch || is_nul ch.

(** All characters of a text are skipped by [skip]. *)
Definition all_skipped (skip : byte -> bool) (s : list byte) : Prop :=
  Forall (fun ch => skip ch = true) s.

(** A text neither starts with a character of [skipL] nor ends with one
    of [skipR]. *)
Definition trimmed (skipL skipR : byte -> bool) (r : list byte) : Prop :=
  (forall x r', r = x :: r' -> skipL x = false)
  /\ (forall r' x, r = r' ++ [x] -> skipR x = false).

(** ** Vocabulary for the stream and the session *)

(** [f'] is a later state of the session [f]: the same file, a stream
    that has not moved back and has not recovered from a failure, and a
    log and a table that were only appended to. *)
Definition later_state (f f' : File) : Prop :=
  content (mFile f') = content (mFile f)
  /\ (gpos (mFile f) <= gpos (mFile f'))%nat
  /\ (failbit (mFile f) = true -> failbit (mFile f') = true)
  /\ trace f `prefix_of` trace f'
  /\ mVariables f `prefix_of` mVariables f'.

(** An outcome is a result or one of the exceptions [P]; no access the
    language leaves undefined was made. *)
Definition returns_or_throws {A} (P : exception -> Prop) (o : outcome A) : Prop :=
  match o with
  | Ret _ => True
  | Throw e => P e
  | Undefined _ => False
  end.

(** A member function leads to later states only and ends as
    [returns_or_throws P] says. *)
Definition proceeds {A} (P : exception -> Prop) (m : M A) : Prop :=
  forall f, later_state f (snd (m f)) /\ returns_or_throws P (fst (m f)).

(** The exceptions that leave [Read_Headers]. *)
Definition header_exception (e : exception) : Prop :=
  e = CEOF_Exception \/ e = invalid_argument.

(** ** Vocabulary for the row decoders *)

(** The bytes the positional decoder takes for a descriptor lie within
    a row of [n] bytes: eight bytes for a numeric variable whatever its
    declared length, [length_] bytes for a character variable, none for
    another type code. *)
Definition extraction_in_row (n : Z) (v : Variable_Record) : Prop :=
  match type v with
  | NVar_Type.Numeric => position v + 8 <= n
  | NVar_Type.String => position v + length_ v <= n
  | NVar_Type.Other _ => True
  end.

#[global] Instance extraction_in_row_dec n v : Decision (extraction_in_row n v).
Proof. unfold extraction_in_row. destruct (type v); apply _. Defined.

(** A parameter of the coerced decoder has the type of its column: a
    double for a numeric variable, a string for a character variable. *)
Definition slot_matches (a : TValue) (v : Variable_Record) : Prop :=
  match a, type v with
  | TDouble _, NVar_Type.Numeric => True
  | TString _, NVar_Type.String => True
  | _, _ => False
  end.

(** The value of a 32-bit big-endian field read as a signed number and
    converted to [size_t]: a negative number wraps to the top of the
    64-bit range. *)
Definition signed32_as_size_t (u : Z) : Z :=
  if u <? 2 ^ 31 then u else u + (2 ^ 64 - 2 ^ 32).

(** [Get_Variable_Vector] *)
Definition Get_Variable_Vector (f : File) : list Variable_Record := mVariables f.

Module Examples.

(** Two variables of four bytes: one with the type code 3, which is
    neither numeric nor character, and a character variable. *)
Definition unknown_type_file : list byte :=
  Fixture.image Fixture.good "00002"
    (Fixture.namestr 3 4 1 "U" "unknown" 0 ++ Fixture.namestr 2 4 2 "NAME" "a text" 4)
    (bytes_of "????abcd").

(** A descriptor whose offset field holds -1. *)
Definition negative_offset : list byte :=
  Fixture.namestr 2 4 1 "NAME" "a text" (-1).

(** A file whose NAMESTR header announces no number of variables. *)
Definition bad_count_file : list byte :=
  Fixture.image Fixture.good "many" Fixture.two_namestrs Fixture.two_rows.


End Examples.

(** ** Bit masks as arithmetic *)

Lemma land_shiftl_ones a k n :
  0 <= k -> 0 <= n ->
  Z.land a (Z.shiftl (Z.ones n) k) = (a / 2 ^ k) mod 2 ^ n * 2 ^ k.
Proof.
  intros Hk Hn.
  rewrite <- Z.shiftl_mul_pow2, <- Z.land_ones, <- Z.shiftr_div_pow2 by lia.
  apply Z.bits_inj'; intros i Hi.
  rewrite Z.land_spec.
  destruct (Z.lt_ge_cases i k) as [Hlt | Hge].
  - rewrite !Z.shiftl_spec_low by lia. apply andb_false_r.
  - rewrite !Z.shiftl_spec by lia.
    rewrite Z.land_spec, Z.shiftr_spec by lia.
    do 2 f_equal. lia.
Qed.

Lemma land_disjoint hi lo k :
  0 <= k -> 0 <= lo < 2 ^ k -> Z.land (hi * 2 ^ k) lo = 0.
Proof.
  intros Hk Hlo.
  apply Z.bits_inj'; intros i Hi.
  rewrite Z.land_spec, Z.bits_0.
  destruct (Z.lt_ge_cases i k) as [Hlt | Hge].
  - rewrite Z.mul_pow2_bits_low by lia. reflexivity.
  - assert (Z.testbit lo i = false) as ->; [| apply andb_false_r].
    destruct (Z.eq_dec lo 0) as [-> | Hne]; [apply Z.bits_0 |].
    apply Z.bits_above_log2; [lia |].
    apply Z.lt_le_trans with k; [| lia].
    apply Z.log2_lt_pow2; lia.
Qed.

Lemma lor_disjoint hi lo k :
  0 <= k -> 0 <= lo < 2 ^ k -> Z.lor (hi * 2 ^ k) lo = hi * 2 ^ k + lo.
Proof.
  intros Hk Hlo. symmetry. apply Z.add_nocarry_lor. by apply land_disjoint.
Qed.

(** The mask [0xffefffffffffffff] clears bit 52 only; on a value below
    2^53 that is a reduction modulo 2^52. *)
Lemma land_clear_bit_52 m :
  0 <= m < 2 ^ 53 -> Z.land m 0xffefffffffffffff = m mod 2 ^ 52.
Proof.
  intros Hm.
  change 0xffefffffffffffff with (Z.lor (Z.ones 52) (Z.shiftl (Z.ones 11) 53)).
  rewrite Z.land_lor_distr_r, Z.land_ones, land_shiftl_ones by lia.
  rewrite (Z.div_small m) by lia.
  rewrite Z.mod_0_l by lia. apply Z.lor_0_r.
Qed.

(** ** The codec in arithmetic form *)

(** The statements of [IbmToIEEE] on a big-endian host, with the masks
    and shifts read as divisions and remainders. *)
Lemma IbmToIEEE_big_arith v :
  0 <= v < 2 ^ 64 ->
  let mantissa := v mod 2 ^ 56 in
  let shift :=
    if negb ((v / 2 ^ 55) mod 2 =? 0) then 3
    else if negb ((v / 2 ^ 54) mod 2 =? 0) then 2
    else if negb ((v / 2 ^ 53) mod 2 =? 0) then 1
    else 0 in
  double_bits (IbmToIEEE big v) =
    Z.lor (Z.lor ((v / 2 ^ 63) mod 2 * 2 ^ 63)
                 (u64 (u64 (u64 (u64 ((v / 2 ^ 56) mod 2 ^ 7 - 65) * 2 ^ 2)
                            + shift + 1023) * 2 ^ 52)))
          ((mantissa / 2 ^ shift) mod 2 ^ 52).
Proof.
  intros Hv mantissa shift.
  unfold IbmToIEEE, To_Machine_Endian_Raw, double_bits.
  change 0x8000000000000000 with (Z.shiftl (Z.ones 1) 63).
  change 0x7f00000000000000 with (Z.shiftl (Z.ones 7) 56).
  change 0x00ffffffffffffff with (Z.shiftl (Z.ones 56) 0).
  change 0x0080000000000000 with (Z.shiftl (Z.ones 1) 55).
  change 0x0040000000000000 with (Z.shiftl (Z.ones 1) 54).
  change 0x0020000000000000 with (Z.shiftl (Z.ones 1) 53).
  rewrite !land_shiftl_ones by lia.
  rewrite !Z.shiftl_mul_pow2, !Z.shiftr_div_pow2 by lia.
  rewrite Z.div_mul by lia.
  change (2 ^ 0) with 1. rewrite Z.div_1_r, Z.mul_1_r.
  change (2 ^ 1) with 2.
  assert (forall x k, 0 < k -> (x mod 2 * k =? 0) = (x mod 2 =? 0)) as Hz.
  { intros x k Hk. destruct (Z.eqb_spec (x mod 2) 0) as [-> | Hne]; [reflexivity |].
    apply Z.eqb_neq. nia. }
  rewrite !Hz by lia.
  fold mantissa. fold shift.
  assert (shift = 0 \/ shift = 1 \/ shift = 2 \/ shift = 3) as Hshift.
  { subst shift.
    repeat match goal with |- context [Z.eqb ?a ?b] => destruct (Z.eqb_spec a b) end;
      cbn [negb]; lia. }
  rewrite Z.shiftr_div_pow2 by lia.
  f_equal.
  apply land_clear_bit_52.
  assert (0 <= mantissa < 2 ^ 56) as Hm by (apply Z.mod_pos_bound; lia).
  split; [apply Z.div_pos; lia |].
  apply Z.div_lt_upper_bound; [lia |].
  subst shift mantissa.
  repeat match goal with |- context [Z.eqb ?a ?b] => destruct (Z.eqb_spec a b) end;
    cbn [negb].
  all: change (2 ^ 64) with 18446744073709551616 in *;
       change (2 ^ 56) with 72057594037927936 in *;
       change (2 ^ 55) with 36028797018963968 in *;
       change (2 ^ 54) with 18014398509481984 in *;
       change (2 ^ 53) with 9007199254740992 in *;
       change (2 ^ 3) with 8; change (2 ^ 2) with 4; change (2 ^ 1) with 2; change (2 ^ 0) with 1.
  all: Z.div_mod_to_equations; lia.
Qed.

Lemma u64_exponent e shift :
  0 <= e < 2 ^ 7 -> 0 <= shift <= 3 ->
  u64 (u64 (u64 (e - 65) * 2 ^ 2) + shift + 1023) = (e - 65) * 4 + shift + 1023.
Proof.
  intros He Hs. unfold u64.
  change (2 ^ 7) with 128 in He. change (2 ^ 2) with 4.
  change (2 ^ 64) with 18446744073709551616.
  Z.div_mod_to_equations; lia.
Qed.

Lemma assemble_double s E M :
  0 <= s <= 1 -> 0 <= E < 2 ^ 11 -> 0 <= M < 2 ^ 52 ->
  Z.lor (Z.lor (s * 2 ^ 63) (u64 (E * 2 ^ 52))) M = s * 2 ^ 63 + E * 2 ^ 52 + M.
Proof.
  intros Hs HE HM. unfold u64.
  rewrite (Z.mod_small (E * 2 ^ 52)) by lia.
  rewrite lor_disjoint by lia.
  replace (s * 2 ^ 63 + E * 2 ^ 52) with ((s * 2 ^ 11 + E) * 2 ^ 52) by lia.
  apply lor_disjoint; lia.
Qed.

Lemma double_fields s E M :
  0 <= s <= 1 -> 0 <= E < 2 ^ 11 -> 0 <= M < 2 ^ 52 ->
  let d := bit_cast_double (s * 2 ^ 63 + E * 2 ^ 52 + M) in
  double_sign d = s /\ double_exponent d = E /\ double_fraction d = M.
Proof.
  intros Hs HE HM d.
  unfold double_sign, double_exponent, double_fraction, d, double_bits.
  change (2 ^ 63) with 9223372036854775808.
  change (2 ^ 52) with 4503599627370496 in *.
  change (2 ^ 11) with 2048 in *.
  repeat split; Z.div_mod_to_equations; lia.
Qed.

(** The position of the leading one of the top nibble decides the three
    tests of the source. *)
Lemma top_nibble_tests v :
  0 <= v < 2 ^ 64 ->
  let n := top_nibble (ibm_mantissa v) in
  0 <= n <= 15 /\
  (v / 2 ^ 55) mod 2 = n / 8 /\
  (v / 2 ^ 54) mod 2 = (n / 4) mod 2 /\
  (v / 2 ^ 53) mod 2 = (n / 2) mod 2.
Proof.
  intros Hv n. subst n. unfold top_nibble, ibm_mantissa.
  change (2 ^ 64) with 18446744073709551616 in *.
  change (2 ^ 56) with 72057594037927936.
  change (2 ^ 55) with 36028797018963968.
  change (2 ^ 54) with 18014398509481984.
  change (2 ^ 53) with 9007199254740992.
  change (2 ^ 52) with 4503599627370496.
  repeat split; Z.div_mod_to_equations; lia.
Qed.

Lemma nibble_tests_log2 n :
  1 <= n <= 15 ->
  (if negb (n / 8 =? 0) then 3
   else if negb ((n / 4) mod 2 =? 0) then 2
   else if negb ((n / 2) mod 2 =? 0) then 1
   else 0) = Z.log2 n
  /\ 0 <= Z.log2 n <= 3.
Proof.
  intros Hn.
  assert (n = 1 \/ n = 2 \/ n = 3 \/ n = 4 \/ n = 5 \/ n = 6 \/ n = 7 \/ n = 8
          \/ n = 9 \/ n = 10 \/ n = 11 \/ n = 12 \/ n = 13 \/ n = 14 \/ n = 15)
    as Hcases by lia.
  repeat destruct Hcases as [-> | Hcases]; try subst n; vm_compute; intuition discriminate.
Qed.

(** What [IbmToIEEE] computes from a big-endian value whose top mantissa
    nibble is not zero. *)
Lemma IbmToIEEE_big_normalised v :
  0 <= v < 2 ^ 64 ->
  top_nibble (ibm_mantissa v) <> 0 ->
  double_bits (IbmToIEEE big v)
    = ibm_sign v * 2 ^ 63 + normalised_exponent v * 2 ^ 52 + normalised_fraction v
  /\ 0 <= ibm_sign v <= 1
  /\ 763 <= normalised_exponent v <= 1274
  /\ 0 <= normalised_fraction v < 2 ^ 52.
Proof.
  intros Hv Hn.
  destruct (top_nibble_tests v Hv) as (Hrange & H55 & H54 & H53).
  assert (0 <= ibm_sign v <= 1) as Hs.
  { unfold ibm_sign. change (2 ^ 64) with 18446744073709551616 in *.
    change (2 ^ 63) with 9223372036854775808.
    Z.div_mod_to_equations; lia. }
  assert (0 <= ibm_exponent v < 2 ^ 7) as He
    by (unfold ibm_exponent; apply Z.mod_pos_bound; lia).
  assert (0 <= normalised_fraction v < 2 ^ 52) as HM
    by (unfold normalised_fraction; apply Z.mod_pos_bound; lia).
  destruct (nibble_tests_log2 (top_nibble (ibm_mantissa v))) as [Hshift Hlog]; [lia |].
  assert (normalised_exponent v
          = (ibm_exponent v - 65) * 4 + Z.log2 (top_nibble (ibm_mantissa v)) + 1023)
    as HE by (unfold normalised_exponent, nibble_leading_zeros; lia).
  change (2 ^ 7) with 128 in He.
  split; [| repeat split; lia].
  rewrite IbmToIEEE_big_arith by done. cbv zeta.
  rewrite H55, H54, H53, Hshift.
  fold (ibm_mantissa v) (ibm_exponent v).
  replace ((v / 2 ^ 63) mod 2) with (ibm_sign v)
    by (unfold ibm_sign in *; symmetry; apply Z.mod_small; lia).
  rewrite u64_exponent by (change (2 ^ 7) with 128; lia).
  rewrite <- HE.
  replace (ibm_mantissa v / 2 ^ Z.log2 (top_nibble (ibm_mantissa v)) mod 2 ^ 52)
    with (normalised_fraction v).
  - apply assemble_double; [lia | change (2 ^ 11) with 2048; lia | lia].
  - unfold normalised_fraction, normalising_shift, nibble_leading_zeros.
    do 3 f_equal. lia.
Qed.

(** ** Byte order *)

Lemma byte_to_Z_range b : 0 <= byte_to_Z b < 256.
Proof.
  unfold byte_to_Z. pose proof (Byte.to_N_bounded b). lia.
Qed.

Lemma byte_of_Z_mod z : byte_of_Z (z mod 256) = byte_of_Z z.
Proof. unfold byte_of_Z. by rewrite Z.mod_mod. Qed.

Lemma byte_of_to_Z b : byte_of_Z (byte_to_Z b) = b.
Proof.
  unfold byte_of_Z. rewrite Z.mod_small by apply byte_to_Z_range.
  unfold byte_to_Z. rewrite N2Z.id, Byte.of_to_N. reflexivity.
Qed.

Lemma byte_to_of_Z z : byte_to_Z (byte_of_Z z) = z mod 256.
Proof.
  unfold byte_of_Z, byte_to_Z.
  assert (0 <= z mod 256 < 256) as Hr by (apply Z.mod_pos_bound; lia).
  destruct (Byte.of_N (Z.to_N (z mod 256))) as [b |] eqn:E.
  - apply Byte.to_of_N in E. cbn. rewrite E. lia.
  - apply Byte.of_N_None_iff in E. lia.
Qed.

Lemma le_decode_range bs : 0 <= le_decode bs < 2 ^ (8 * Z.of_nat (length bs)).
Proof.
  induction bs as [| b bs IH]; cbn [le_decode length]; [cbn; lia |].
  pose proof (byte_to_Z_range b).
  replace (8 * Z.of_nat (S (length bs))) with (8 + 8 * Z.of_nat (length bs)) by lia.
  rewrite Z.pow_add_r by lia. change (2 ^ 8) with 256. lia.
Qed.

Lemma le_encode_decode bs : le_encode (length bs) (le_decode bs) = bs.
Proof.
  induction bs as [| b bs IH]; cbn [le_decode length le_encode]; [reflexivity |].
  pose proof (byte_to_Z_range b).
  f_equal.
  - rewrite <- byte_of_Z_mod.
    replace ((byte_to_Z b + 256 * le_decode bs) mod 256) with (byte_to_Z b)
      by (Z.div_mod_to_equations; lia).
    apply byte_of_to_Z.
  - replace ((byte_to_Z b + 256 * le_decode bs) / 256) with (le_decode bs)
      by (Z.div_mod_to_equations; lia).
    exact IH.
Qed.

Lemma le_decode_encode n v : le_decode (le_encode n v) = v mod 2 ^ (8 * Z.of_nat n).
Proof.
  revert v; induction n as [| n IH]; intros v; cbn [le_encode le_decode].
  - cbn. by rewrite Z.mod_1_r.
  - rewrite IH, byte_to_of_Z.
    replace (8 * Z.of_nat (S n)) with (8 + 8 * Z.of_nat n) by lia.
    rewrite Z.pow_add_r by lia. change (2 ^ 8) with 256.
    rewrite (Z.mul_comm 256), Z.rem_mul_r by lia. lia.
Qed.

Lemma length_le_encode n v : length (le_encode n v) = n.
Proof. revert v; induction n; intros; cbn; auto. Qed.

(** Only the low [n] bytes of a value matter to its encoding. *)
Lemma le_encode_wrap n v : le_encode n (v - 2 ^ (8 * Z.of_nat n)) = le_encode n v.
Proof.
  revert v; induction n as [| n IH]; intros v; cbn [le_encode]; [reflexivity |].
  replace (8 * Z.of_nat (S n)) with (8 + 8 * Z.of_nat n) by lia.
  rewrite Z.pow_add_r by lia. change (2 ^ 8) with 256.
  set (X := 2 ^ (8 * Z.of_nat n)).
  f_equal.
  - rewrite <- byte_of_Z_mod, <- (byte_of_Z_mod v). f_equal.
    replace (v - 256 * X) with (v + (- X) * 256) by lia.
    apply Z.mod_add. lia.
  - replace ((v - 256 * X) / 256) with (v / 256 - X); [apply IH |].
    replace (v - 256 * X) with (v + (- X) * 256) by lia.
    rewrite Z.div_add by lia. lia.
Qed.

Lemma le_encode_of_unsigned T u :
  le_encode (sizeof_integral T) (of_unsigned T u) = le_encode (sizeof_integral T) u.
Proof.
  unfold of_unsigned, bit_width.
  destruct (is_signed T && _); [apply le_encode_wrap | reflexivity].
Qed.

(** Whatever the byte order of the host, converting a member that was
    copied from the stream gives the big-endian value of its bytes. *)
Lemma To_Machine_Endian_Raw_value native T bs :
  length bs = sizeof_integral T ->
  To_Machine_Endian_Raw native T (value_of_representation native T bs)
  = of_unsigned T (be_decode bs).
Proof.
  intros Hlen.
  destruct native; unfold To_Machine_Endian_Raw, value_of_representation,
    object_representation; [| reflexivity].
  rewrite le_encode_of_unsigned, <- Hlen, le_encode_decode. reflexivity.
Qed.

Lemma IbmToIEEE_big_endian native bs :
  length bs = 8%nat ->
  IbmToIEEE native (value_of_representation native uint64_t bs)
  = IbmToIEEE big (be_decode bs).
Proof.
  intros Hlen. unfold IbmToIEEE.
  rewrite To_Machine_Endian_Raw_value by exact Hlen.
  reflexivity.
Qed.

Lemma be_decode_range bs : 0 <= be_decode bs < 2 ^ (8 * Z.of_nat (length bs)).
Proof.
  unfold be_decode. rewrite <- (length_rev bs). apply le_decode_range.
Qed.

(** ** The numeric codec: checked properties *)

(** C1. The all-zero input is not mapped to 0.0: [IbmToIEEE] has no case
    for a zero mantissa, so the eight zero bytes (on either host byte
    order) come out as the bit pattern 0x2FB0000000000000, the normal
    number 2^52 * 2^-312 = 2^-260, which is not a zero. *)
Theorem IbmToIEEE_zero_input (native : endian) :
  value_of_representation native uint64_t (replicate 8 x00) = 0
  /\ IbmToIEEE native 0 = bit_cast_double 0x2FB0000000000000
  /\ double_is_zero (IbmToIEEE native 0) = false
  /\ double_normal_value (IbmToIEEE native 0) = Some (2 ^ 52, -312).
Proof. destruct native; vm_compute; repeat split. Qed.

(** C2, as stated, fails on the IBM encoding of 1.0 (0x4110000000000000,
    top nibble 1, three leading zero bits): the source yields exponent
    field 1023 and fraction 0, which is the double 1.0, while the stated
    formula gives exponent 1029 and a mantissa shifted by three bits. *)
Lemma IbmToIEEE_documented_formula_fails :
  let bs := Fixture.ibm_one in
  let v := be_decode bs in
  let d := IbmToIEEE little (value_of_representation little uint64_t bs) in
  length bs = 8%nat
  /\ top_nibble (ibm_mantissa v) <> 0
  /\ d = bit_cast_double 0x3FF0000000000000
  /\ double_exponent d = 1023 /\ documented_exponent v = 1029
  /\ double_exponent d <> documented_exponent v
  /\ double_fraction d <> documented_fraction v.
Proof. vm_compute. repeat split; discriminate. Qed.

(** C2, amended.  For every eight bytes whose big-endian value has a
    nonzero top mantissa nibble, with lz the number of leading zero bits of
    that nibble: the sign is kept, the mantissa is shifted right by
    3 - lz bits and reduced to 52 bits, and the exponent field is
    ((ibmExponent - 64) * 4) - lz - 1 + 1023; the three fields make up the
    whole result.  This holds on little- and big-endian hosts alike. *)
Theorem IbmToIEEE_normalised (native : endian) (bs : list byte) :
  length bs = 8%nat ->
  let v := be_decode bs in
  top_nibble (ibm_mantissa v) <> 0 ->
  let lz := nibble_leading_zeros (top_nibble (ibm_mantissa v)) in
  let d := IbmToIEEE native (value_of_representation native uint64_t bs) in
  0 <= lz <= 3
  /\ double_sign d = ibm_sign v
  /\ double_exponent d = (ibm_exponent v - 64) * 4 - lz - 1 + 1023
  /\ double_fraction d = (ibm_mantissa v / 2 ^ (3 - lz)) mod 2 ^ 52
  /\ double_bits d
     = double_sign d * 2 ^ 63 + double_exponent d * 2 ^ 52 + double_fraction d.
Proof.
  intros Hlen v Hnib lz d.
  assert (0 <= v < 2 ^ 64) as Hv.
  { pose proof (be_decode_range bs) as H. rewrite Hlen in H. exact H. }
  destruct (IbmToIEEE_big_normalised v Hv Hnib) as (Hbits & Hs & HE & HM).
  destruct (top_nibble_tests v Hv) as (Hrange & _).
  destruct (nibble_tests_log2 (top_nibble (ibm_mantissa v))) as [_ Hlog]; [lia |].
  assert (d = bit_cast_double
                (ibm_sign v * 2 ^ 63 + normalised_exponent v * 2 ^ 52
                 + normalised_fraction v)) as Hd.
  { subst d. rewrite IbmToIEEE_big_endian by exact Hlen.
    fold v. rewrite <- Hbits. by destruct (IbmToIEEE big v). }
  destruct (double_fields (ibm_sign v) (normalised_exponent v) (normalised_fraction v))
    as (Fs & Fe & Ff); [lia | change (2 ^ 11) with 2048; lia | lia |].
  rewrite <- Hd in Fs, Fe, Ff.
  split; [unfold lz, nibble_leading_zeros; lia |].
  rewrite Fs, Fe, Ff.
  repeat split; try reflexivity.
  rewrite Hd. reflexivity.
Qed.

Lemma IbmToIEEE_normalised_witness :
  let bs := Fixture.ibm_100_5 in
  let v := be_decode bs in
  let lz := nibble_leading_zeros (top_nibble (ibm_mantissa v)) in
  let d := IbmToIEEE little (value_of_representation little uint64_t bs) in
  (length bs = 8%nat /\ top_nibble (ibm_mantissa v) <> 0)
  /\ 0 <= lz <= 3
  /\ double_sign d = ibm_sign v
  /\ double_exponent d = (ibm_exponent v - 64) * 4 - lz - 1 + 1023
  /\ double_fraction d = (ibm_mantissa v / 2 ^ (3 - lz)) mod 2 ^ 52
  /\ double_bits d
     = double_sign d * 2 ^ 63 + double_exponent d * 2 ^ 52 + double_fraction d.
Proof.
  split.
  - split; [reflexivity | vm_compute; discriminate].
  - apply (IbmToIEEE_normalised little Fixture.ibm_100_5);
      [reflexivity | vm_compute; discriminate].
Defined.

(** ** The monad *)

Lemma bind_Ret {A B} (m : M A) (k : A -> M B) f a f' :
  m f = (Ret a, f') -> bind m k f = k a f'.
Proof. unfold bind. by intros ->. Qed.

Lemma bind_Ret_inv {A B} (m : M A) (k : A -> M B) f b f'' :
  bind m k f = (Ret b, f'') ->
  exists a f', m f = (Ret a, f') /\ k a f' = (Ret b, f'').
Proof.
  unfold bind. destruct (m f) as [[a | e | u] f']; intros H; try discriminate.
  eauto.
Qed.

(** ** Reading from the stream *)

Lemma length_available s n :
  can_read s n -> length (take n (available s)) = n.
Proof.
  intros [Hf Hlen]. unfold available. rewrite Hf, length_take, length_drop. lia.
Qed.

Lemma length_available_short s n :
  ¬ can_read s n -> (0 < n)%nat -> (length (take n (available s)) < n)%nat.
Proof.
  intros Hno Hn. unfold can_read in Hno. unfold available.
  destruct (failbit s); [cbn; rewrite take_nil; cbn; lia |].
  rewrite length_take, length_drop.
  destruct (decide (gpos s + n <= length (content s))%nat); [tauto | lia].
Qed.

Lemma bytes_to_read_pos T padded : (0 < bytes_to_read T padded)%nat.
Proof. destruct T, padded; cbn; lia. Qed.

Lemma Read_ok T padded f :
  can_read (mFile f) (bytes_to_read T padded) ->
  Read T padded f
  = (Ret (take (Layout.sizeof T)
            (take (bytes_to_read T padded)
               (drop (gpos (mFile f)) (content (mFile f))))),
     after_read f (bytes_to_read T padded)
       (ev_Read T (gpos (mFile f)) (bytes_to_read T padded) (bytes_to_read T padded))).
Proof.
  intros Hc. pose proof (length_available _ _ Hc) as Hlen.
  destruct Hc as [Hf Hle].
  unfold Read, ifstream_read. fold (bytes_to_read T padded).
  cbn [gcount]. rewrite Hlen.
  unfold bind, set_mFile, ret, after_read.
  rewrite decide_True by reflexivity.
  rewrite Hf, Nat.ltb_irrefl. cbn [orb].
  unfold available. rewrite Hf. reflexivity.
Qed.

Lemma Read_short T padded f :
  ¬ can_read (mFile f) (bytes_to_read T padded) ->
  exists got s,
    (got < bytes_to_read T padded)%nat /\ failbit s = true /\
    Read T padded f
    = (Throw CEOF_Exception,
       {| mFile := s; mVariables := mVariables f; mRecord_Len := mRecord_Len f;
          trace := trace f ++ [ev_Read T (gpos (mFile f)) (bytes_to_read T padded) got] |}).
Proof.
  intros Hno.
  pose proof (length_available_short _ _ Hno (bytes_to_read_pos T padded)) as Hlen.
  unfold Read, ifstream_read. fold (bytes_to_read T padded).
  cbn [gcount].
  unfold bind, set_mFile, lift.
  rewrite decide_False by lia.
  eexists _, _. split; [exact Hlen |]. split; [| reflexivity].
  cbn [failbit]. apply orb_true_iff. right. by apply Nat.ltb_lt.
Qed.

Lemma Read_Ret_inv T padded f x f' :
  Read T padded f = (Ret x, f') ->
  can_read (mFile f) (bytes_to_read T padded)
  /\ x = take (Layout.sizeof T)
           (take (bytes_to_read T padded) (drop (gpos (mFile f)) (content (mFile f))))
  /\ f' = after_read f (bytes_to_read T padded)
            (ev_Read T (gpos (mFile f)) (bytes_to_read T padded) (bytes_to_read T padded)).
Proof.
  intros H.
  destruct (decide (can_read (mFile f) (bytes_to_read T padded))) as [Hc | Hno].
  - rewrite Read_ok in H by exact Hc. by inversion H.
  - destruct (Read_short T padded f Hno) as (got & s & _ & _ & E).
    rewrite E in H. discriminate.
Qed.

Lemma can_read_after_read f n e m :
  can_read (mFile (after_read f n e)) m
  <-> (gpos (mFile f) + n + m <= length (content (mFile f)))%nat.
Proof. unfold can_read, after_read; cbn. intuition. Qed.

Lemma can_read_le s n m : can_read s n -> (m <= n)%nat -> can_read s m.
Proof. unfold can_read. intros [? ?] ?. split; [done | lia]. Qed.

(** ** The descriptor loop *)

Section Namestrs.

Variable native : endian.

Lemma read_namestr_step k readCnt f :
  can_read (mFile f) 140 ->
  read_namestrs native (S k) readCnt f
  = read_namestrs native k (u64 (readCnt + 140)) (after_namestr native f).
Proof.
  intros Hc. cbn [read_namestrs].
  erewrite bind_Ret; [| apply Read_ok; cbn; eapply can_read_le; [exact Hc | lia]].
  erewrite bind_Ret;
    [| apply Read_ok; apply can_read_after_read; destruct Hc; cbn; lia].
  unfold bind at 1, emplace_back. unfold bind at 1, set_mRecord_Len.
  cbn [bytes_to_read Layout.sizeof after_read mFile content gpos mVariables
       mRecord_Len trace].
  change (2 + 2 + 2 + 2 + 8 + 40 + 8 + 2 + 2 + 2 + 2 + 8)%nat with 80%nat.
  change (2 + 2 + 4 + 52)%nat with 60%nat.
  change (Z.of_nat (80 + 60)) with 140.
  f_equal.
  unfold after_namestr.
  rewrite !take_take, !Nat.min_id, <- !app_assoc. cbn [app].
  replace (gpos (mFile f) + 80 + 60)%nat with (gpos (mFile f) + 140)%nat by lia.
  reflexivity.
Qed.

Lemma content_after_namestrs n : forall f,
  content (mFile (after_namestrs native f n)) = content (mFile f).
Proof. induction n as [| n IH]; intros f; cbn; [done |]. by rewrite IH. Qed.

Lemma gpos_after_namestrs n : forall f,
  gpos (mFile (after_namestrs native f n)) = (gpos (mFile f) + 140 * n)%nat.
Proof.
  induction n as [| n IH]; intros f; cbn [after_namestrs]; [lia |].
  rewrite IH. cbn. lia.
Qed.

Lemma failbit_after_namestrs n : forall f,
  failbit (mFile f) = false -> failbit (mFile (after_namestrs native f n)) = false.
Proof. induction n as [| n IH]; intros f Hf; cbn; [done |]. by apply IH. Qed.

Lemma trace_after_namestrs n : forall f,
  trace (after_namestrs native f n)
  = trace f ++ namestr_events (gpos (mFile f)) n.
Proof.
  induction n as [| n IH]; intros f; cbn [after_namestrs namestr_events].
  - by rewrite app_nil_r.
  - rewrite IH. cbn. by rewrite <- app_assoc.
Qed.

Lemma mVariables_after_namestrs n : forall f,
  mVariables (after_namestrs native f n)
  = mVariables f ++ descriptors native (content (mFile f)) (gpos (mFile f)) n.
Proof.
  induction n as [| n IH]; intros f; cbn [after_namestrs descriptors].
  - by rewrite app_nil_r.
  - rewrite IH. cbn. by rewrite <- app_assoc.
Qed.

Lemma mRecord_Len_after_namestrs n : forall f,
  mRecord_Len f = u64 (mRecord_Len f) ->
  mRecord_Len (after_namestrs native f n)
  = u64 (mRecord_Len f
         + sum_lengths (descriptors native (content (mFile f)) (gpos (mFile f)) n)).
Proof.
  induction n as [| n IH]; intros f Hf; cbn [after_namestrs descriptors].
  - cbn. by rewrite Z.add_0_r.
  - rewrite IH; cbn [after_namestr mRecord_Len mFile content gpos].
    + unfold sum_lengths at 2. cbn [foldr]. fold sum_lengths.
      unfold u64. rewrite Zplus_mod_idemp_l. f_equal. unfold sum_lengths. lia.
    + unfold u64. by rewrite Z.mod_mod.
Qed.

Lemma readCnt_after_spec n : forall r,
  r = u64 r -> readCnt_after r n = u64 (r + 140 * Z.of_nat n).
Proof.
  induction n as [| n IH]; intros r Hr; cbn [readCnt_after].
  - by rewrite Z.add_0_r.
  - rewrite IH by (unfold u64; by rewrite Z.mod_mod).
    unfold u64. rewrite Zplus_mod_idemp_l. f_equal. lia.
Qed.

Lemma read_namestrs_ok n : forall readCnt f,
  can_read (mFile f) (140 * n) ->
  read_namestrs native n readCnt f
  = (Ret (readCnt_after readCnt n), after_namestrs native f n).
Proof.
  induction n as [| n IH]; intros readCnt f Hc; [reflexivity |].
  rewrite read_namestr_step by (eapply can_read_le; [exact Hc | lia]).
  cbn [readCnt_after after_namestrs].
  apply IH. destruct Hc as [Hf Hle]. split; [reflexivity | cbn; lia].
Qed.

(** The loop returns only if the file holds all [n] descriptor pairs. *)
Lemma read_namestrs_Ret_inv n : forall readCnt f r f',
  can_read (mFile f) 0 ->
  read_namestrs native n readCnt f = (Ret r, f') ->
  can_read (mFile f) (140 * n).
Proof.
  induction n as [| n IH]; intros readCnt f r f' H0 H; [exact H0 |].
  cbn [read_namestrs] in H.
  apply bind_Ret_inv in H as (x1 & f1 & H1 & H).
  apply Read_Ret_inv in H1 as (Hc1 & -> & ->).
  apply bind_Ret_inv in H as (x2 & f2 & H2 & H).
  apply Read_Ret_inv in H2 as (Hc2 & -> & ->).
  apply bind_Ret_inv in H as (x3 & f3 & H3 & H).
  apply bind_Ret_inv in H as (x4 & f4 & H4 & H).
  unfold emplace_back in H3. inversion H3; subst; clear H3.
  unfold set_mRecord_Len in H4. inversion H4; subst; clear H4.
  apply IH in H.
  - destruct H as [_ H]. cbn in H. destruct H0 as [Hf _].
    split; [exact Hf | lia].
  - apply can_read_after_read in Hc2. cbn in Hc2 |- *.
    split; [reflexivity | cbn; lia].
Qed.

End Namestrs.

(** ** Header records *)

Lemma namedesc_block blk : namedesc (take 78 blk) = take 21 (drop 20 blk).
Proof.
  unfold namedesc, member. rewrite skipn_firstn_comm, take_take. reflexivity.
Qed.

Lemma num2_block blk : num2 (take 78 blk) = count_field blk.
Proof.
  unfold num2, member, count_field. rewrite skipn_firstn_comm, take_take. reflexivity.
Qed.

Lemma Signature_Map_find_spec key sig :
  sig <> Header_Signature.None ->
  Signature_Map_find key Signature_Map = Some sig <-> key = expected_text sig.
Proof.
  intros Hsig. unfold Signature_Map, Signature_Map_find.
  repeat case_decide; subst; destruct sig; cbn [expected_text];
    split; intros Hx; try done; try (vm_compute in Hx; discriminate).
Qed.

(** The header kind recognised in a block is decided by the 21 bytes at
    its offset 20. *)
Lemma Recognize_Data_Header_carries blk sig :
  sig <> Header_Signature.None ->
  Recognize_Data_Header (take 78 blk) = sig <-> carries (expected_text sig) blk.
Proof.
  intros Hsig. unfold Recognize_Data_Header, carries.
  rewrite namedesc_block.
  rewrite <- (Signature_Map_find_spec _ _ Hsig).
  destruct (Signature_Map_find _ _) as [s |]; split; intros H; try congruence.
Qed.

Lemma Read_padded_ok T f :
  can_read (mFile f) 80 ->
  Read T true f
  = (Ret (take (Layout.sizeof T) (block f 0)),
     after_read f 80 (ev_Read T (gpos (mFile f)) 80 80)).
Proof.
  intros Hc. rewrite Read_ok by exact Hc. unfold block.
  rewrite Nat.add_0_r. reflexivity.
Qed.

Lemma Read_padded_Ret_inv T f x f' :
  Read T true f = (Ret x, f') ->
  can_read (mFile f) 80
  /\ x = take (Layout.sizeof T) (block f 0)
  /\ f' = after_read f 80 (ev_Read T (gpos (mFile f)) 80 80).
Proof.
  intros H. apply Read_Ret_inv in H as (Hc & -> & ->).
  split; [exact Hc |]. unfold block. rewrite Nat.add_0_r. done.
Qed.


(** ** A run of [Read_Headers] that reaches the observation header *)

Lemma bind_Read_first {B} T (k : list byte -> M B) f :
  can_read (mFile f) 80 ->
  bind (Read T true) k f
  = k (take (Layout.sizeof T) (block f 0))
      (at_offset f 80 [ev_Read T (gpos (mFile f)) 80 80]).
Proof. intros Hc. apply bind_Ret. by apply Read_padded_ok. Qed.

Lemma bind_Read_next {B} T (k : list byte -> M B) f n m evs :
  m = (n + 80)%nat ->
  can_read (mFile f) m ->
  bind (Read T true) k (at_offset f n evs)
  = k (take (Layout.sizeof T) (block f n))
      (at_offset f m (evs ++ [ev_Read T (gpos (mFile f) + n) 80 80])).
Proof.
  intros -> [Hf Hle]. apply bind_Ret. rewrite Read_padded_ok.
  - unfold block, at_offset, after_read; cbn.
    rewrite Nat.add_0_r, <- app_assoc, Nat.add_assoc. reflexivity.
  - split; [reflexivity | cbn; lia].
Qed.

Lemma bind_Read_first_inv {B} T (k : list byte -> M B) f (r : B) f' :
  bind (Read T true) k f = (Ret r, f') ->
  can_read (mFile f) 80
  /\ k (take (Layout.sizeof T) (block f 0))
       (at_offset f 80 [ev_Read T (gpos (mFile f)) 80 80]) = (Ret r, f').
Proof.
  intros H. apply bind_Ret_inv in H as (x & f1 & H1 & H).
  apply Read_padded_Ret_inv in H1 as (Hc & -> & ->). done.
Qed.

Lemma bind_Read_next_inv {B} T (k : list byte -> M B) f n m evs (r : B) f' :
  m = (n + 80)%nat ->
  failbit (mFile f) = false ->
  bind (Read T true) k (at_offset f n evs) = (Ret r, f') ->
  can_read (mFile f) m
  /\ k (take (Layout.sizeof T) (block f n))
       (at_offset f m (evs ++ [ev_Read T (gpos (mFile f) + n) 80 80]))
     = (Ret r, f').
Proof.
  intros Hm Hf H.
  assert (can_read (mFile f) m) as Hc.
  { apply bind_Ret_inv in H as (x & f1 & H1 & _).
    apply Read_padded_Ret_inv in H1 as ([_ Hle] & _). cbn in Hle.
    split; [exact Hf | lia]. }
  split; [exact Hc |]. by rewrite (bind_Read_next _ _ _ n m) in H.
Qed.

Ltac accept_header H :=
  rewrite decide_False by
    (intros Hne; apply Hne; apply Recognize_Data_Header_carries; [done | exact H]).

Ltac reject_header H :=
  rewrite decide_True by
    (intros Heq; apply H; apply Recognize_Data_Header_carries in Heq; [exact Heq | done]).

Ltac read_first Hc :=
  rewrite bind_Read_first by (eapply can_read_le; [exact Hc | lia]).

Ltac read_next Hc n m :=
  rewrite (bind_Read_next _ _ _ n m);
  [| reflexivity | eapply can_read_le; [exact Hc | lia]].

Ltac read_next_inv H Hf n m Hc :=
  apply (bind_Read_next_inv _ _ _ n m) in H as (Hc & H); [| reflexivity | exact Hf].

Lemma after_headers_eq f evs :
  evs = header_events (gpos (mFile f)) ->
  set_mRecord_Len 0 (at_offset f 640 evs) = (Ret tt, after_headers f).
Proof. by intros ->. Qed.

Lemma padding_step_eq {B} (k : unit -> M B) f readCnt :
  bind (if decide (readCnt mod 80 <> 0)
        then Read_Discard (80 - readCnt mod 80) else ret tt) k f
  = k tt (after_padding f readCnt).
Proof.
  unfold after_padding, bind, Read_Discard, set_mFile, ret.
  destruct (decide _); reflexivity.
Qed.

Section Run.

Variable native : endian.

Lemma Read_Headers_run f cnt :
  can_read (mFile f) 640 ->
  carries (expected_text Header_Signature.Library) (block f 0) ->
  carries (expected_text Header_Signature.Member) (block f 240) ->
  carries (expected_text Header_Signature.Descriptor) (block f 320) ->
  carries (expected_text Header_Signature.Namestr) (block f 560) ->
  stoull (count_field (block f 560)) = Ret cnt ->
  can_read (mFile (after_headers f)) (140 * Z.to_nat cnt) ->
  let fo := before_observation native f (Z.to_nat cnt) in
  can_read (mFile fo) 80 ->
  Read_Headers native f
  = (Ret (if decide (carries (expected_text Header_Signature.Observation) (block fo 0))
          then NStatus.Ok else NStatus.No_Observation_Header),
     after_read fo 80 (ev_Read Layout.Data_Header_Generic (gpos (mFile fo)) 80 80)).
Proof.
  intros Hc HL HM HD HN Hcnt Hcn fo Hco.
  unfold Read_Headers.
  read_first Hc. accept_header HL.
  read_next Hc 80%nat 160%nat. read_next Hc 160%nat 240%nat.
  read_next Hc 240%nat 320%nat. accept_header HM.
  read_next Hc 320%nat 400%nat. accept_header HD.
  read_next Hc 400%nat 480%nat. read_next Hc 480%nat 560%nat.
  read_next Hc 560%nat 640%nat. accept_header HN.
  erewrite bind_Ret; [| apply after_headers_eq; reflexivity].
  change (Layout.sizeof Layout.Data_Header_Generic) with 78%nat.
  rewrite num2_block, Hcnt.
  unfold lift at 1. unfold bind at 1.
  erewrite bind_Ret; [| apply read_namestrs_ok; exact Hcn].
  rewrite padding_step_eq. fold (before_observation native f (Z.to_nat cnt)). fold fo.
  rewrite (bind_Ret _ _ _ _ _ (Read_padded_ok _ _ Hco)).
  change (Layout.sizeof Layout.Data_Header_Generic) with 78%nat.
  destruct (decide (carries _ (block fo 0))) as [Hy | Hn].
  - accept_header Hy. reflexivity.
  - reject_header Hn. reflexivity.
Qed.

(** Conversely, [Read_Headers] returns one of the two statuses of its
    last stage only after such a run. *)
Lemma Read_Headers_Ret_inv f st f' :
  Read_Headers native f = (Ret st, f') ->
  st = NStatus.Ok \/ st = NStatus.No_Observation_Header ->
  exists cnt,
    can_read (mFile f) 640
    /\ carries (expected_text Header_Signature.Library) (block f 0)
    /\ carries (expected_text Header_Signature.Member) (block f 240)
    /\ carries (expected_text Header_Signature.Descriptor) (block f 320)
    /\ carries (expected_text Header_Signature.Namestr) (block f 560)
    /\ stoull (count_field (block f 560)) = Ret cnt
    /\ can_read (mFile (after_headers f)) (140 * Z.to_nat cnt)
    /\ can_read (mFile (before_observation native f (Z.to_nat cnt))) 80.
Proof.
  intros H Hst. unfold Read_Headers in H.
  apply bind_Read_first_inv in H as (Hc1 & H).
  assert (failbit (mFile f) = false) as Hf by apply Hc1.
  change (Layout.sizeof Layout.Data_Header_Generic) with 78%nat in H.
  destruct (decide (Recognize_Data_Header (take 78 (block f 0)) ≠ _)) as [? | HL];
    [inversion H; subst; destruct Hst; discriminate |].
  apply dec_stable in HL. apply Recognize_Data_Header_carries in HL; [| done].
  read_next_inv H Hf 80%nat 160%nat Hc160.
  read_next_inv H Hf 160%nat 240%nat Hc240.
  read_next_inv H Hf 240%nat 320%nat Hc320.
  change (Layout.sizeof Layout.Data_Header_Generic) with 78%nat in H.
  destruct (decide (Recognize_Data_Header (take 78 (block f _)) ≠ _)) as [? | HM];
    [inversion H; subst; destruct Hst; discriminate |].
  apply dec_stable in HM. apply Recognize_Data_Header_carries in HM; [| done].
  read_next_inv H Hf 320%nat 400%nat Hc400.
  change (Layout.sizeof Layout.Data_Header_Generic) with 78%nat in H.
  destruct (decide (Recognize_Data_Header (take 78 (block f _)) ≠ _)) as [? | HD];
    [inversion H; subst; destruct Hst; discriminate |].
  apply dec_stable in HD. apply Recognize_Data_Header_carries in HD; [| done].
  read_next_inv H Hf 400%nat 480%nat Hc480.
  read_next_inv H Hf 480%nat 560%nat Hc560.
  read_next_inv H Hf 560%nat 640%nat Hc640.
  change (Layout.sizeof Layout.Data_Header_Generic) with 78%nat in H.
  destruct (decide (Recognize_Data_Header (take 78 (block f _)) ≠ _)) as [? | HN];
    [inversion H; subst; destruct Hst; discriminate |].
  apply dec_stable in HN. apply Recognize_Data_Header_carries in HN; [| done].
  erewrite bind_Ret in H; [| apply after_headers_eq; reflexivity].
  rewrite num2_block in H.
  apply bind_Ret_inv in H as (cnt & f1 & H1 & H).
  unfold lift in H1. inversion H1 as [[Hcnt Hf1]]. subst f1. clear H1.
  apply bind_Ret_inv in H as (readCnt & f2 & H2 & H).
  pose proof H2 as Hcn. apply read_namestrs_Ret_inv in Hcn;
    [| split; [reflexivity | cbn; destruct Hc640; lia]].
  rewrite read_namestrs_ok in H2 by exact Hcn.
  inversion H2; subst readCnt f2; clear H2.
  rewrite padding_step_eq in H.
  fold (before_observation native f (Z.to_nat cnt)) in H.
  apply bind_Ret_inv in H as (x & f3 & H3 & _).
  apply Read_padded_Ret_inv in H3 as (Hco & _).
  exists cnt. split_and!; assumption.
Qed.

End Run.

(** ** The session before the observation header is read *)

Lemma readCnt_after_0 n : readCnt_after 0 n = u64 (140 * Z.of_nat n).
Proof. rewrite readCnt_after_spec by reflexivity. f_equal. Qed.

Lemma padding_is_documented readCnt :
  (if decide (readCnt mod 80 <> 0) then 80 - readCnt mod 80 else 0)
  = documented_padding readCnt.
Proof.
  unfold documented_padding.
  pose proof (Z.mod_pos_bound readCnt 80 ltac:(lia)) as Hr.
  destruct (decide _) as [Hne | Heq].
  - symmetry. apply Z.mod_small. lia.
  - apply dec_stable in Heq. rewrite Heq. reflexivity.
Qed.

Section Before_Observation.

Variable native : endian.
Variable f : File.
Variable n : nat.

Let p := gpos (mFile f).
Let c := content (mFile f).
Let readCnt := u64 (140 * Z.of_nat n).
Let fo := before_observation native f n.

Lemma content_before_observation : content (mFile fo) = c.
Proof.
  subst fo. unfold before_observation, after_padding.
  destruct (decide _); cbn [mFile]; unfold ifstream_seekg_cur;
    rewrite ?failbit_after_namestrs by reflexivity; cbn [content];
    by rewrite content_after_namestrs.
Qed.

Lemma failbit_before_observation : failbit (mFile fo) = false.
Proof.
  subst fo. unfold before_observation, after_padding.
  destruct (decide _); cbn [mFile]; unfold ifstream_seekg_cur;
    rewrite ?failbit_after_namestrs by reflexivity; cbn [failbit]; done.
Qed.

Lemma gpos_before_observation :
  gpos (mFile fo) = (p + 640 + 140 * n + Z.to_nat (documented_padding readCnt))%nat.
Proof.
  subst fo. unfold before_observation, after_padding.
  rewrite <- padding_is_documented. rewrite readCnt_after_0. fold readCnt.
  destruct (decide _); cbn [mFile]; unfold ifstream_seekg_cur;
    rewrite ?failbit_after_namestrs by reflexivity; cbn [gpos];
    rewrite gpos_after_namestrs; cbn; lia.
Qed.

Lemma trace_before_observation :
  trace fo
  = trace f ++ header_events p ++ namestr_events (p + 640) n
    ++ padding_events (p + 640 + 140 * n) readCnt.
Proof.
  subst fo. unfold before_observation, after_padding, padding_events.
  rewrite readCnt_after_0. fold readCnt.
  destruct (decide _); cbn [trace mFile];
    rewrite ?gpos_after_namestrs, trace_after_namestrs; cbn [after_headers trace mFile gpos];
    rewrite <- ?app_assoc, ?app_nil_r; reflexivity.
Qed.

Lemma mVariables_before_observation :
  mVariables fo = mVariables f ++ descriptors native c (p + 640) n.
Proof.
  subst fo. unfold before_observation, after_padding.
  destruct (decide _); cbn [mVariables]; by rewrite mVariables_after_namestrs.
Qed.

Lemma mRecord_Len_before_observation :
  mRecord_Len fo = u64 (sum_lengths (descriptors native c (p + 640) n)).
Proof.
  subst fo. unfold before_observation, after_padding.
  destruct (decide _); cbn [mRecord_Len];
    by rewrite mRecord_Len_after_namestrs by reflexivity.
Qed.

End Before_Observation.

(** ** The descriptor count *)

Lemma length_take_while {A} (p : A -> bool) l :
  (length (take_while p l) <= length l)%nat.
Proof. induction l as [| x l IH]; cbn; [lia |]. destruct (p x); cbn; lia. Qed.

Lemma length_drop_while {A} (p : A -> bool) l :
  (length (drop_while p l) <= length l)%nat.
Proof. induction l as [| x l IH]; cbn; [lia |]. destruct (p x); cbn; lia. Qed.

Lemma Forall_take_while {A} (p : A -> bool) l : Forall (fun x => p x = true) (take_while p l).
Proof.
  induction l as [| x l IH]; cbn; [constructor |].
  destruct (p x) eqn:E; [by constructor | constructor].
Qed.

Lemma digits_value_snoc ds d :
  digits_value (ds ++ [d]) = 10 * digits_value ds + (byte_to_Z d - 48).
Proof. unfold digits_value. by rewrite fold_left_app. Qed.

Lemma digits_value_range ds :
  Forall (fun d => isdigit d = true) ds ->
  0 <= digits_value ds < 10 ^ Z.of_nat (length ds).
Proof.
  induction ds as [| d ds IH] using rev_ind; intros Hds; [cbn; lia |].
  apply Forall_app in Hds as [Hds Hd]. apply Forall_inv in Hd.
  specialize (IH Hds).
  rewrite digits_value_snoc, length_app. cbn [length].
  replace (Z.of_nat (length ds + 1)) with (Z.of_nat (length ds) + 1) by lia.
  rewrite Z.pow_add_r by lia. change (10 ^ 1) with 10.
  unfold isdigit in Hd. cbv zeta in Hd.
  apply andb_true_iff in Hd as [H1 H2]. apply Z.leb_le in H1, H2.
  set (X := 10 ^ Z.of_nat (length ds)) in *. lia.
Qed.

(** [stoull] yields a 64-bit value; from a text of at most five
    characters it is below 10^5, or within 10^5 of 2^64 (a negated
    count). *)
Lemma stoull_range s v :
  stoull s = Ret v ->
  0 <= v < 2 ^ 64
  /\ ((length s <= 5)%nat -> v < 10 ^ 5 \/ 2 ^ 64 - 10 ^ 5 < v).
Proof.
  unfold stoull.
  set (s1 := drop_while isspace (take_while (fun ch => negb (is_nul ch)) s)).
  assert (length s1 <= length s)%nat as Hs1.
  { subst s1. etrans; [apply length_drop_while | apply length_take_while]. }
  set (split := match s1 with
                | [] => (false, [])
                | ch :: rest =>
                    if byte_to_Z ch =? 45 then (true, rest)
                    else if byte_to_Z ch =? 43 then (false, rest) else (false, s1)
                end).
  assert (length (snd split) <= length s1)%nat as Hs2.
  { subst split. destruct s1 as [| ch rest]; cbn; [lia |].
    repeat case_match; cbn; lia. }
  destruct split as [negative s2]. cbn [snd] in Hs2.
  pose proof (digits_value_range _ (Forall_take_while isdigit s2)) as Hv.
  pose proof (length_take_while isdigit s2) as Hlen.
  destruct (take_while isdigit s2) as [| d ds] eqn:Eds; [discriminate |].
  rewrite <- Eds in *. clear Eds d ds.
  set (ds := take_while isdigit s2) in *.
  destruct (Z.leb_spec (2 ^ 64) (digits_value ds)) as [? | Hlt]; [discriminate |].
  intros [= <-].
  assert ((length s <= 5)%nat -> digits_value ds < 10 ^ 5) as Hsmall.
  { intros H5. eapply Z.lt_le_trans; [apply Hv |].
    apply Z.pow_le_mono_r; lia. }
  change (10 ^ 5) with 100000 in *. change (2 ^ 64) with 18446744073709551616 in *.
  unfold u64. change (2 ^ 64) with 18446744073709551616.
  destruct negative.
  - split; [apply Z.mod_pos_bound; lia |].
    intros H5. specialize (Hsmall H5).
    destruct (Z.eq_dec (digits_value ds) 0) as [E | Hne];
      [rewrite E; left; reflexivity |].
    right. Z.div_mod_to_equations. lia.
  - split; [lia |]. intros H5. left. by apply Hsmall.
Qed.

Lemma length_count_field blk : (length (count_field blk) <= 5)%nat.
Proof. unfold count_field. rewrite length_take. lia. Qed.

(** ** The fields of a descriptor *)

Lemma member_to_size_t_uint16_range native bs :
  (length bs <= 2)%nat -> 0 <= member_to_size_t native uint16_t bs < 2 ^ 16.
Proof.
  intros Hlen. unfold member_to_size_t, to_size_t.
  assert (0 <= To_Machine_Endian_Raw native uint16_t
                 (value_of_representation native uint16_t bs) < 2 ^ 16) as H.
  { destruct native; unfold To_Machine_Endian_Raw, value_of_representation,
      object_representation, of_unsigned; cbn [is_signed andb sizeof_integral].
    - pose proof (le_decode_range (rev (le_encode 2 (le_decode bs)))) as H.
      rewrite length_rev, length_le_encode in H. exact H.
    - pose proof (be_decode_range bs) as H.
      split; [lia |]. eapply Z.lt_le_trans; [apply H |].
      apply Z.pow_le_mono_r; lia. }
  unfold u64. rewrite Z.mod_small; lia.
Qed.

Lemma length__range native n1 n2 :
  0 <= length_ (Variable_Record_of native n1 n2) < 2 ^ 16.
Proof.
  cbn [Variable_Record_of length_]. apply member_to_size_t_uint16_range.
  unfold nlng, member. rewrite length_take. lia.
Qed.

Lemma descriptors_lengths native c n : forall p,
  Forall (fun v => 0 <= length_ v < 2 ^ 16) (descriptors native c p n).
Proof.
  induction n as [| n IH]; intros p; cbn [descriptors]; constructor.
  - apply length__range.
  - apply IH.
Qed.

Lemma length_descriptors native c n : forall p,
  length (descriptors native c p n) = n.
Proof. induction n as [| n IH]; intros p; cbn; [done |]. by rewrite IH. Qed.


Lemma sum_lengths_bounds vars b :
  Forall (fun v => 0 <= length_ v < b) vars ->
  0 <= sum_lengths vars <= Z.of_nat (length vars) * b.
Proof.
  unfold sum_lengths. induction 1 as [| v vars Hv _ IH]; cbn [foldr length]; lia.
Qed.


(** ** The header validator: checked properties *)

(** C3. At each of the five header stages, a block that does not carry
    the signature of the stage makes [Read_Headers] return the status of
    that stage, and the read of that block is the last thing done to the
    stream: the trace ends with it and the stream stands right behind it.
    The five statuses are distinct.  (For the observation stage the block
    is the one at the position the descriptor count of the NAMESTR header
    leads to.) *)
Theorem Read_Headers_reports_failed_stage (native : endian) (f : File) :
  let p := gpos (mFile f) in
  let run := Read_Headers native f in
  (can_read (mFile f) 80 ->
   ¬ carries Header_Signature_Library (block f 0) ->
   fst run = Ret NStatus.No_Library_Header
   /\ trace (snd run) = trace f ++ take 1 (header_events p)
   /\ gpos (mFile (snd run)) = (p + 80)%nat)
  /\
  (can_read (mFile f) 320 ->
   carries Header_Signature_Library (block f 0) ->
   ¬ carries Header_Signature_Member (block f 240) ->
   fst run = Ret NStatus.No_Member_Header
   /\ trace (snd run) = trace f ++ take 4 (header_events p)
   /\ gpos (mFile (snd run)) = (p + 320)%nat)
  /\
  (can_read (mFile f) 400 ->
   carries Header_Signature_Library (block f 0) ->
   carries Header_Signature_Member (block f 240) ->
   ¬ carries Header_Signature_Descriptor (block f 320) ->
   fst run = Ret NStatus.No_Descriptor_Header
   /\ trace (snd run) = trace f ++ take 5 (header_events p)
   /\ gpos (mFile (snd run)) = (p + 400)%nat)
  /\
  (can_read (mFile f) 640 ->
   carries Header_Signature_Library (block f 0) ->
   carries Header_Signature_Member (block f 240) ->
   carries Header_Signature_Descriptor (block f 320) ->
   ¬ carries Header_Signature_Namestr (block f 560) ->
   fst run = Ret NStatus.No_Namestr_Header
   /\ trace (snd run) = trace f ++ header_events p
   /\ gpos (mFile (snd run)) = (p + 640)%nat)
  /\
  (forall cnt,
   let n := Z.to_nat cnt in
   let q := (p + 640 + 140 * n
             + Z.to_nat (documented_padding (u64 (140 * Z.of_nat n))))%nat in
   can_read (mFile f) 640 ->
   carries Header_Signature_Library (block f 0) ->
   carries Header_Signature_Member (block f 240) ->
   carries Header_Signature_Descriptor (block f 320) ->
   carries Header_Signature_Namestr (block f 560) ->
   stoull (count_field (block f 560)) = Ret cnt ->
   (q + 80 <= length (content (mFile f)))%nat ->
   ¬ carries Header_Signature_Observation (take 80 (drop q (content (mFile f)))) ->
   fst run = Ret NStatus.No_Observation_Header
   /\ trace (snd run)
      = trace f ++ header_events p ++ namestr_events (p + 640) n
        ++ padding_events (p + 640 + 140 * n) (u64 (140 * Z.of_nat n))
        ++ [ev_Read Layout.Data_Header_Generic q 80 80]
   /\ gpos (mFile (snd run)) = (q + 80)%nat)
  /\
  NoDup [ NStatus.No_Library_Header; NStatus.No_Member_Header;
          NStatus.No_Descriptor_Header; NStatus.No_Namestr_Header;
          NStatus.No_Observation_Header ].
Proof.
  intros p run. subst run. split_and!.
  - intros Hc HL. unfold Read_Headers.
    read_first Hc. reject_header HL. split_and!; reflexivity.
  - intros Hc HL HM. unfold Read_Headers.
    read_first Hc. accept_header HL.
    read_next Hc 80%nat 160%nat. read_next Hc 160%nat 240%nat.
    read_next Hc 240%nat 320%nat. reject_header HM. split_and!; reflexivity.
  - intros Hc HL HM HD. unfold Read_Headers.
    read_first Hc. accept_header HL.
    read_next Hc 80%nat 160%nat. read_next Hc 160%nat 240%nat.
    read_next Hc 240%nat 320%nat. accept_header HM.
    read_next Hc 320%nat 400%nat. reject_header HD. split_and!; reflexivity.
  - intros Hc HL HM HD HN. unfold Read_Headers.
    read_first Hc. accept_header HL.
    read_next Hc 80%nat 160%nat. read_next Hc 160%nat 240%nat.
    read_next Hc 240%nat 320%nat. accept_header HM.
    read_next Hc 320%nat 400%nat. accept_header HD.
    read_next Hc 400%nat 480%nat. read_next Hc 480%nat 560%nat.
    read_next Hc 560%nat 640%nat. reject_header HN. split_and!; reflexivity.
  - intros cnt n q Hc HL HM HD HN Hcnt Hq HO.
    pose proof (gpos_before_observation native f n) as Hgpos.
    pose proof (content_before_observation native f n) as Hcontent.
    pose proof (failbit_before_observation native f n) as Hfail.
    pose proof (trace_before_observation native f n) as Htrace.
    fold p q in Hgpos.
    rewrite (Read_Headers_run native f cnt); try assumption.
    + cbn [fst snd after_read trace mFile gpos].
      rewrite decide_False.
      * fold n. rewrite Htrace, Hgpos. fold p. rewrite <- !app_assoc. done.
      * unfold block. fold n. rewrite Hgpos, Hcontent, Nat.add_0_r. exact HO.
    + split; [reflexivity |]. cbn. fold n p. lia.
    + fold n. split; [exact Hfail |]. rewrite Hgpos, Hcontent. exact Hq.
  - apply (bool_decide_unpack _). vm_compute. exact I.
Qed.

Ltac by_computation :=
  first [ vm_compute; reflexivity
        | apply (bool_decide_unpack _); vm_compute; exact I ].

Lemma Read_Headers_reports_failed_stage_witness :
  let run sigs := Read_Headers little (File_opened (Fixture.file sigs)) in
  (fst (run Fixture.bad_library) = Ret NStatus.No_Library_Header
   /\ trace (snd (run Fixture.bad_library)) = take 1 (header_events 0)
   /\ gpos (mFile (snd (run Fixture.bad_library))) = 80%nat)
  /\ (fst (run Fixture.bad_member) = Ret NStatus.No_Member_Header
      /\ trace (snd (run Fixture.bad_member)) = take 4 (header_events 0)
      /\ gpos (mFile (snd (run Fixture.bad_member))) = 320%nat)
  /\ (fst (run Fixture.bad_descriptor) = Ret NStatus.No_Descriptor_Header
      /\ trace (snd (run Fixture.bad_descriptor)) = take 5 (header_events 0)
      /\ gpos (mFile (snd (run Fixture.bad_descriptor))) = 400%nat)
  /\ (fst (run Fixture.bad_namestr) = Ret NStatus.No_Namestr_Header
      /\ trace (snd (run Fixture.bad_namestr)) = header_events 0
      /\ gpos (mFile (snd (run Fixture.bad_namestr))) = 640%nat)
  /\ (fst (run Fixture.bad_observation) = Ret NStatus.No_Observation_Header
      /\ trace (snd (run Fixture.bad_observation))
         = header_events 0 ++ namestr_events 640 2
           ++ [ev_Read_Discard 920 40; ev_Read Layout.Data_Header_Generic 960 80 80]
      /\ gpos (mFile (snd (run Fixture.bad_observation))) = 1040%nat).
Proof.
  intros run. split_and!.
  1-3: apply (Read_Headers_reports_failed_stage little
                (File_opened (Fixture.file Fixture.bad_library))); by_computation.
  1-3: apply (Read_Headers_reports_failed_stage little
                (File_opened (Fixture.file Fixture.bad_member))); by_computation.
  1-3: apply (Read_Headers_reports_failed_stage little
                (File_opened (Fixture.file Fixture.bad_descriptor))); by_computation.
  1-3: apply (Read_Headers_reports_failed_stage little
                (File_opened (Fixture.file Fixture.bad_namestr))); by_computation.
  all: destruct (Read_Headers_reports_failed_stage little
                   (File_opened (Fixture.file Fixture.bad_observation)))
         as (_ & _ & _ & _ & H & _);
       apply (H 2); by_computation.
Defined.

(** ** The records that are read and dropped *)

Lemma take_drop_ext {A} (c c' : list A) (k n : nat) :
  (forall i, (k <= i < k + n)%nat -> c' !! i = c !! i) ->
  take n (drop k c') = take n (drop k c).
Proof.
  intros H. apply list_eq. intros i. rewrite !lookup_take.
  case_decide; [| reflexivity]. rewrite !lookup_drop. apply H. lia.
Qed.

Lemma descriptors_ext native (c c' : list byte) n : forall q,
  (forall i, (q <= i)%nat -> c' !! i = c !! i) ->
  descriptors native c' q n = descriptors native c q n.
Proof.
  induction n as [| n IH]; intros q H; cbn [descriptors]; [reflexivity |].
  rewrite (take_drop_ext c c' q 80), (take_drop_ext c c' (q + 80) 60), IH;
    [reflexivity | ..]; intros i Hi; apply H; lia.
Qed.

Section Dropped.

Variable native : endian.
Variables f g : File.
Hypothesis Hfg : differ_in_dropped_records f g.

Lemma block_differ off :
  (off + 80 <= 80 \/ 240 <= off /\ off + 80 <= 400 \/ 560 <= off)%nat ->
  block g off = block f off.
Proof.
  destruct Hfg as (Hp & _ & _ & _ & Hc). intros Hoff. unfold block.
  rewrite Hp. apply take_drop_ext. intros i Hi. apply Hc; lia.
Qed.

Lemma can_read_differ n :
  can_read (mFile f) n -> (0 < n)%nat -> failbit (mFile g) = false ->
  can_read (mFile g) n.
Proof.
  destruct Hfg as (Hp & _ & _ & Hlen & _). intros [_ Hle] _ Hg.
  split; [exact Hg |]. rewrite Hp, Hlen. exact Hle.
Qed.

(** What a successful run leaves behind does not depend on the bytes of
    the dropped records. *)
Lemma Read_Headers_ignores_dropped_records f' :
  failbit (mFile g) = false ->
  Read_Headers native f = (Ret NStatus.Ok, f') ->
  exists g',
    Read_Headers native g = (Ret NStatus.Ok, g')
    /\ mVariables g' = mVariables f'
    /\ mRecord_Len g' = mRecord_Len f'
    /\ trace g' = trace f'
    /\ gpos (mFile g') = gpos (mFile f').
Proof.
  intros Hg H.
  destruct (Read_Headers_Ret_inv native f _ f' H ltac:(by left))
    as (cnt & Hc & HL & HM & HD & HN & Hcnt & Hcn & Hco).
  rewrite (Read_Headers_run native f cnt) in H by assumption.
  injection H as Hst <-.
  destruct (decide (carries _ (block (before_observation native f (Z.to_nat cnt)) 0)))
    as [HO | ?]; [clear Hst | discriminate].
  pose proof Hfg as (Hp & Hv & Ht & Hlen & Hbytes).
  assert (descriptors native (content (mFile g)) (gpos (mFile g) + 640) (Z.to_nat cnt)
          = descriptors native (content (mFile f)) (gpos (mFile f) + 640) (Z.to_nat cnt))
    as Hdesc.
  { rewrite Hp. apply descriptors_ext. intros i Hi. apply Hbytes; lia. }
  assert (block (before_observation native g (Z.to_nat cnt)) 0
          = block (before_observation native f (Z.to_nat cnt)) 0) as Hobs.
  { unfold block. rewrite !gpos_before_observation, !content_before_observation, Hp.
    apply take_drop_ext. intros i Hi. apply Hbytes; lia. }
  eexists. split.
  - rewrite (Read_Headers_run native g cnt).
    + rewrite Hobs, decide_True by exact HO. reflexivity.
    + apply can_read_differ; [exact Hc | lia | exact Hg].
    + rewrite block_differ by lia. exact HL.
    + rewrite block_differ by lia. exact HM.
    + rewrite block_differ by lia. exact HD.
    + rewrite block_differ by lia. exact HN.
    + rewrite block_differ by lia. exact Hcnt.
    + destruct Hcn as [_ Hle]. cbn in Hle. split; [reflexivity |].
      cbn. rewrite Hp, Hlen. exact Hle.
    + destruct Hco as [_ Hle].
      rewrite gpos_before_observation, content_before_observation in Hle.
      split; [apply failbit_before_observation |].
      rewrite gpos_before_observation, content_before_observation, Hp, Hlen.
      exact Hle.
  - cbn [after_read mVariables mRecord_Len trace mFile gpos].
    rewrite !mVariables_before_observation, !mRecord_Len_before_observation,
      !trace_before_observation, !gpos_before_observation, Hdesc, Hp, Hv, Ht.
    split_and!; reflexivity.
Qed.

End Dropped.

(** ** The end of a run of [Read_Headers] *)

Lemma Read_Headers_result native f st f' :
  Read_Headers native f = (Ret st, f') ->
  st = NStatus.Ok \/ st = NStatus.No_Observation_Header ->
  exists cnt,
    let fo := before_observation native f (Z.to_nat cnt) in
    can_read (mFile f) 640
    /\ stoull (count_field (block f 560)) = Ret cnt
    /\ can_read (mFile (after_headers f)) (140 * Z.to_nat cnt)
    /\ can_read (mFile fo) 80
    /\ f' = after_read fo 80 (ev_Read Layout.Data_Header_Generic (gpos (mFile fo)) 80 80).
Proof.
  intros H Hst.
  destruct (Read_Headers_Ret_inv native f st f' H Hst)
    as (cnt & Hc & HL & HM & HD & HN & Hcnt & Hcn & Hco).
  exists cnt. cbv zeta. split_and!; try assumption.
  rewrite (Read_Headers_run native f cnt) in H by assumption.
  by inversion H.
Qed.

(** Within a file shorter than 2^63 bytes the byte counter of the
    descriptor loop does not wrap. *)
Lemma readCnt_no_wrap f cnt :
  file_size_ok (mFile f) ->
  0 <= cnt ->
  can_read (mFile (after_headers f)) (140 * Z.to_nat cnt) ->
  u64 (140 * Z.of_nat (Z.to_nat cnt)) = 140 * cnt.
Proof.
  unfold file_size_ok. intros Hsize Hcnt [_ Hle]. cbn in Hle.
  rewrite Z2Nat.id by exact Hcnt.
  unfold u64. apply Z.mod_small.
  change (2 ^ 63) with 9223372036854775808 in Hsize.
  change (2 ^ 64) with 18446744073709551616. lia.
Qed.

Lemma documented_padding_range total :
  0 <= documented_padding total < 80 /\ (total + documented_padding total) mod 80 = 0.
Proof.
  unfold documented_padding. split; [apply Z.mod_pos_bound; lia |].
  Z.div_mod_to_equations. lia.
Qed.

Lemma padding_events_documented q total :
  padding_events q total
  = if decide (documented_padding total = 0) then []
    else [ev_Read_Discard q (Z.to_nat (documented_padding total))].
Proof.
  unfold padding_events. rewrite <- padding_is_documented.
  pose proof (Z.mod_pos_bound total 80 ltac:(lia)).
  repeat case_decide; try reflexivity; lia.
Qed.

(** ** The header validator and the descriptor parser: checked properties *)

(** C7, as stated, fails on a well-formed file: [Read_Headers] succeeds
    on it and reads two records, not one, between the header read that is
    checked for LIBRARY and the one checked for MEMBER.  A file laid out
    with a single record there is rejected with [No_Member_Header]. *)
Lemma one_record_after_library_fails :
  let run := Read_Headers little (File_opened (Fixture.file Fixture.good)) in
  fst run = Ret NStatus.Ok
  /\ reads_between 0 (trace (snd run))
     = [ ev_Read Layout.File_Header_Record 80 80 80;
         ev_Read Layout.Date_Time_Record 160 80 80 ]
  /\ length (reads_between 0 (trace (snd run))) <> 1%nat
  /\ fst (Read_Headers little (File_opened Fixture.single_record_file))
     = Ret NStatus.No_Member_Header.
Proof. vm_compute. split_and!; try reflexivity. discriminate. Qed.

(** C7, amended.  During a successful run of [Read_Headers], exactly two
    80-byte records are read and dropped between the LIBRARY and the MEMBER
    header checks, none between the MEMBER and the DSCRPTR checks, and
    exactly two between the DSCRPTR and the NAMESTR checks; the first eight
    reads are the header reads listed in [header_events].  The dropped
    records are not looked at: a file that differs only in their bytes is
    accepted as well, with the same descriptor table, record length and
    reads. *)
Theorem Read_Headers_discarded_records (native : endian) (f f' : File) :
  Read_Headers native f = (Ret NStatus.Ok, f') ->
  let p := gpos (mFile f) in
  let new := drop (length (trace f)) (trace f') in
  take 8 new = header_events p
  /\ reads_between 0 new
     = [ ev_Read Layout.File_Header_Record (p + 80) 80 80;
         ev_Read Layout.Date_Time_Record (p + 160) 80 80 ]
  /\ reads_between 1 new = []
  /\ reads_between 2 new
     = [ ev_Read Layout.Member_Header_Record (p + 400) 80 80;
         ev_Read Layout.Member_Header_Record_2 (p + 480) 80 80 ]
  /\ forall g,
       differ_in_dropped_records f g ->
       failbit (mFile g) = false ->
       exists g',
         Read_Headers native g = (Ret NStatus.Ok, g')
         /\ mVariables g' = mVariables f'
         /\ mRecord_Len g' = mRecord_Len f'
         /\ trace g' = trace f'.
Proof.
  intros H p new.
  assert (forall g,
            differ_in_dropped_records f g ->
            failbit (mFile g) = false ->
            exists g',
              Read_Headers native g = (Ret NStatus.Ok, g')
              /\ mVariables g' = mVariables f'
              /\ mRecord_Len g' = mRecord_Len f'
              /\ trace g' = trace f') as Hdropped.
  { intros g Hfg Hg.
    destruct (Read_Headers_ignores_dropped_records native f g Hfg f' Hg H)
      as (g' & ? & ? & ? & ? & _).
    by exists g'. }
  enough (new = header_events p ++ drop 8 new) as ->
    by (split_and!; [reflexivity .. | exact Hdropped]).
  destruct (Read_Headers_result native f _ f' H) as (cnt & Hres); [by left |].
  cbv zeta in Hres. destruct Hres as (_ & _ & _ & _ & ->).
  subst new. cbn [after_read trace].
  rewrite trace_before_observation. fold p.
  rewrite <- !app_assoc, drop_app_length. reflexivity.
Qed.

Lemma Read_Headers_discarded_records_witness :
  let f := File_opened (Fixture.file Fixture.good) in
  let f' := snd (Read_Headers big f) in
  let new := drop (length (trace f)) (trace f') in
  take 8 new = header_events 0
  /\ reads_between 0 new
     = [ ev_Read Layout.File_Header_Record 80 80 80;
         ev_Read Layout.Date_Time_Record 160 80 80 ]
  /\ reads_between 1 new = []
  /\ reads_between 2 new
     = [ ev_Read Layout.Member_Header_Record 400 80 80;
         ev_Read Layout.Member_Header_Record_2 480 80 80 ]
  /\ forall g,
       differ_in_dropped_records f g ->
       failbit (mFile g) = false ->
       exists g',
         Read_Headers big g = (Ret NStatus.Ok, g')
         /\ mVariables g' = mVariables f'
         /\ mRecord_Len g' = mRecord_Len f'
         /\ trace g' = trace f'.
Proof.
  apply (Read_Headers_discarded_records big (File_opened (Fixture.file Fixture.good))).
  vm_compute. reflexivity.
Defined.

(** C8.  In a file shorter than 2^63 bytes, when [Read_Headers] gets as
    far as the observation header (it returns [Ok] or
    [No_Observation_Header]): with cnt the count parsed from the NAMESTR
    header, cnt descriptor pairs of 140 bytes were read, the cursor was then
    moved by (80 - (140 cnt) mod 80) mod 80 bytes (by one seek, none when
    that is 0), and the next read, the one of the observation header, starts
    there, at the first multiple of 80 bytes from the start of the headers
    that is not before the end of the descriptors. *)
Theorem Read_Headers_realigns (native : endian) (f f' : File) (st : NStatus.t) :
  file_size_ok (mFile f) ->
  Read_Headers native f = (Ret st, f') ->
  st = NStatus.Ok \/ st = NStatus.No_Observation_Header ->
  exists cnt,
    let p := gpos (mFile f) in
    let total := 140 * cnt in
    let pad := documented_padding total in
    let q := (p + 640 + Z.to_nat total)%nat in
    stoull (count_field (block f 560)) = Ret cnt
    /\ 0 <= cnt
    /\ trace f'
       = trace f ++ header_events p ++ namestr_events (p + 640) (Z.to_nat cnt)
         ++ (if decide (pad = 0) then [] else [ev_Read_Discard q (Z.to_nat pad)])
         ++ [ev_Read Layout.Data_Header_Generic (q + Z.to_nat pad) 80 80]
    /\ gpos (mFile f') = (q + Z.to_nat pad + 80)%nat
    /\ 0 <= pad < 80
    /\ (640 + total + pad) mod 80 = 0.
Proof.
  intros Hsize H Hst.
  destruct (Read_Headers_result native f st f' H Hst) as (cnt & Hres).
  cbv zeta in Hres. destruct Hres as (Hc & Hcnt & Hcn & Hco & ->).
  pose proof (stoull_range _ _ Hcnt) as [[Hcnt0 _] _].
  pose proof (readCnt_no_wrap f cnt Hsize Hcnt0 Hcn) as Hwrap.
  destruct (documented_padding_range (140 * cnt)) as [Hpad Hmod].
  exists cnt. cbv zeta. split_and!; try assumption.
  - cbn [after_read trace].
    rewrite trace_before_observation, gpos_before_observation, Hwrap.
    rewrite padding_events_documented, <- !app_assoc.
    replace (140 * Z.to_nat cnt)%nat with (Z.to_nat (140 * cnt)) by lia.
    reflexivity.
  - cbn [after_read mFile gpos].
    rewrite gpos_before_observation, Hwrap. lia.
  - lia.
  - lia.
  - set (pad := documented_padding (140 * cnt)) in *. clearbody pad.
    Z.div_mod_to_equations. lia.
Qed.

Lemma Read_Headers_realigns_witness :
  let f := File_opened (Fixture.file Fixture.good) in
  let f' := snd (Read_Headers little f) in
  exists cnt,
    let p := gpos (mFile f) in
    let total := 140 * cnt in
    let pad := documented_padding total in
    let q := (p + 640 + Z.to_nat total)%nat in
    stoull (count_field (block f 560)) = Ret cnt
    /\ 0 <= cnt
    /\ trace f'
       = trace f ++ header_events p ++ namestr_events (p + 640) (Z.to_nat cnt)
         ++ (if decide (pad = 0) then [] else [ev_Read_Discard q (Z.to_nat pad)])
         ++ [ev_Read Layout.Data_Header_Generic (q + Z.to_nat pad) 80 80]
    /\ gpos (mFile f') = (q + Z.to_nat pad + 80)%nat
    /\ 0 <= pad < 80
    /\ (640 + total + pad) mod 80 = 0.
Proof.
  apply (Read_Headers_realigns little (File_opened (Fixture.file Fixture.good))
           _ NStatus.Ok).
  - vm_compute. reflexivity.
  - vm_compute. reflexivity.
  - left. reflexivity.
Defined.

(** ** Reading a row *)

Lemma Read_bytes_eq byte_count f :
  Read_bytes byte_count f
  = (if decide (0 <= byte_count <= Z.of_nat (remaining (mFile f)))
     then Ret (take (Z.to_nat byte_count) (available (mFile f)))
     else Throw CEOF_Exception,
     after_Read_bytes f byte_count).
Proof.
  unfold Read_bytes, after_Read_bytes, ifstream_read, remaining.
  cbn [gcount fst snd]. unfold bind, set_mFile, ret, lift.
  pose proof (length_take (available (mFile f)) (Z.to_nat byte_count)) as Hlen.
  repeat case_decide; try reflexivity; lia.
Qed.

Lemma length_row_buffer f :
  0 <= mRecord_Len f <= Z.of_nat (remaining (mFile f)) ->
  Z.of_nat (length (row_buffer f)) = mRecord_Len f.
Proof. unfold row_buffer, remaining. rewrite length_take. lia. Qed.

Section Rows.

Variable native : endian.

Lemma Get_From_Buffer_uint64 data offset x :
  Get_From_Buffer native uint64_t data offset = Ret x ->
  0 <= offset ->
  IbmToIEEE native x = IbmToIEEE big (be_decode (cell data offset 8)).
Proof.
  unfold Get_From_Buffer. cbn [sizeof_integral].
  destruct (Z.leb_spec (offset + Z.of_nat 8) (Z.of_nat (length data))) as [Hle | ?];
    [| discriminate].
  intros [= <-] Hoff.
  change (take 8 (drop (Z.to_nat offset) data)) with (cell data offset 8).
  apply IbmToIEEE_big_endian.
  unfold cell. rewrite length_take, length_drop. lia.
Qed.

(** The loop of the positional decoder: the entries before [i] are kept,
    the others are the decoded cells. *)
Lemma fill_target_spec vars data : forall n i target target',
  fill_target native vars data n i target = Ret target' ->
  (i + n)%nat = length vars ->
  length target = length vars ->
  Forall (fun v => 0 <= position v) vars ->
  length target' = length vars
  /\ (forall j, (j < i)%nat -> target' !! j = target !! j)
  /\ (forall j v, (i <= j)%nat -> vars !! j = Some v ->
        target' !! j = match decoded data v with
                       | Some w => Some w
                       | None => target !! j
                       end).
Proof.
  induction n as [| n IH]; intros i target target' H Hin Hlen Hpos.
  - cbn in H. injection H as <-. split_and!; [done | done |].
    intros j v Hj Hv. apply lookup_lt_Some in Hv. lia.
  - cbn [fill_target] in H.
    destruct (vars !! i) as [mvar |] eqn:Hi; [| discriminate].
    assert (0 <= position mvar) as Hp.
    { eapply Forall_lookup_1 in Hpos; [| exact Hi]. exact Hpos. }
    assert (forall w target1,
              fill_target native vars data n (S i) (<[i := w]> target) = Ret target1 ->
              decoded data mvar = Some w ->
              length target1 = length vars
              /\ (forall j, (j < i)%nat -> target1 !! j = target !! j)
              /\ (forall j v, (i <= j)%nat -> vars !! j = Some v ->
                    target1 !! j = match decoded data v with
                                   | Some w => Some w
                                   | None => target !! j
                                   end)) as Hstore.
    { intros w target1 H1 Hw.
      apply IH in H1 as (L1 & Hkeep & Hnew);
        [| lia | by rewrite length_insert | exact Hpos].
      split_and!; [exact L1 | |].
      - intros j Hj. rewrite Hkeep by lia. apply list_lookup_insert_ne. lia.
      - intros j v Hj Hv. destruct (decide (j = i)) as [-> | Hne].
        + rewrite Hkeep by lia. rewrite Hi in Hv. injection Hv as <-.
          rewrite Hw. apply list_lookup_insert_eq. lia.
        + rewrite (Hnew j v) by (done || lia).
          destruct (decoded data v); [done |].
          apply list_lookup_insert_ne. lia. }
    destruct (type mvar) eqn:Hty.
    + destruct (Get_From_Buffer native uint64_t data (position mvar)) as [x | |] eqn:Hx;
        cbn [outcome_bind] in H; try discriminate.
      apply (Hstore _ _ H). unfold decoded. rewrite Hty.
      by rewrite (Get_From_Buffer_uint64 _ _ _ Hx Hp).
    + unfold Get_From_Buffer_string in H.
      destruct (_ <=? _); cbn [outcome_bind] in H; [| discriminate].
      apply (Hstore _ _ H). unfold decoded. by rewrite Hty.
    + apply IH in H as (L1 & Hkeep & Hnew); [| lia | done | exact Hpos].
      split_and!; [exact L1 | intros j Hj; apply Hkeep; lia |].
      intros j v Hj Hv. destruct (decide (j = i)) as [-> | Hne].
      * rewrite Hkeep by lia. rewrite Hi in Hv. injection Hv as <-.
        unfold decoded. by rewrite Hty.
      * apply Hnew; [lia | done].
Qed.

End Rows.

Lemma Read_Next_eq native target f :
  Read_Next native target f
  = (if decide (0 <= mRecord_Len f <= Z.of_nat (remaining (mFile f)))
     then match fill_target native (mVariables f) (row_buffer f)
                  (length (mVariables f)) 0
                  (resize (length (mVariables f)) TValue_default target) with
          | Ret row => Ret (true, row)
          | Throw e => Throw e
          | Undefined u => Undefined u
          end
     else Ret (false, resize (length (mVariables f)) TValue_default target),
     after_Read_bytes f (mRecord_Len f)).
Proof.
  unfold Read_Next. rewrite Read_bytes_eq. by case_decide.
Qed.

Lemma Read_Next_args_eq native stod to_string arg args f :
  Read_Next_args native stod to_string arg args f
  = (if decide (0 <= mRecord_Len f <= Z.of_nat (remaining (mFile f)))
     then let '(args', o) :=
            Fetch_Column native stod to_string (mVariables f) (row_buffer f)
              (Z.of_nat (length (arg :: args))) arg args in
          (args', match o with
                  | Ret _ => Ret true
                  | Throw e => Throw e
                  | Undefined u => Undefined u
                  end)
     else (arg :: args, Ret false),
     after_Read_bytes f (mRecord_Len f)).
Proof.
  unfold Read_Next_args. rewrite Read_bytes_eq. case_decide; [| reflexivity].
  cbn [mVariables after_Read_bytes]. unfold row_buffer.
  by destruct (Fetch_Column _ _ _ _ _ _ _ _).
Qed.

Lemma fill_target_no_Throw native vars data : forall n i target e,
  fill_target native vars data n i target <> Throw e.
Proof.
  induction n as [| n IH]; intros i target e; cbn [fill_target]; [done |].
  destruct (vars !! i) as [mvar |]; [| done].
  destruct (type mvar).
  - unfold Get_From_Buffer. destruct (_ <=? _); cbn [outcome_bind]; [apply IH | done].
  - unfold Get_From_Buffer_string. destruct (_ <=? _); cbn [outcome_bind]; [apply IH | done].
  - apply IH.
Qed.

(** ** The row decoder: checked properties *)

(** C4, as stated, fails: a row cut short is reported exactly like the
    end of the data.  In a file that ends 4 bytes into its second 15-byte
    row, the second [Read_Next] returns false, the same result as the call
    after the last row of the complete file. *)
Lemma truncation_reported_as_end_of_data :
  let f := Fixture.session little Fixture.truncated_file in
  let r1 := Read_Next little [] f in
  let r2 := Read_Next little [] (snd r1) in
  let g := Fixture.session little (Fixture.file Fixture.good) in
  let s1 := Read_Next little [] g in
  let s2 := Read_Next little [] (snd s1) in
  let s3 := Read_Next little [] (snd s2) in
  (exists row, fst r1 = Ret (true, row))
  /\ mRecord_Len (snd r1) = 15
  /\ remaining (mFile (snd r1)) = 4%nat
  /\ fst r2 = Ret (false, [TValue_default; TValue_default])
  /\ remaining (mFile (snd s2)) = 0%nat
  /\ fst s3 = fst r2.
Proof. vm_compute. split_and!; try reflexivity. eexists. reflexivity. Qed.

(** C4, amended.  [Read_Next] (positional or coerced) returns false, the
    end-of-data result, exactly when the stream cannot deliver a whole row
    any more, that is when fewer than [mRecord_Len] bytes remain, be it none
    (a row boundary) or a part of a row (a truncated row).  The positional
    decoder never throws, so a short read is never reported as a failure. *)
Theorem Read_Next_end_of_data (native : endian) (stod : list byte -> conversion)
    (to_string : double -> list byte) (target : list TValue)
    (arg : TValue) (args : list TValue) (f : File) :
  0 <= mRecord_Len f ->
  let run := Read_Next native target f in
  let run_args := Read_Next_args native stod to_string arg args f in
  ((exists t, fst run = Ret (false, t))
   <-> Z.of_nat (remaining (mFile f)) < mRecord_Len f)
  /\ (forall e, fst run <> Throw e)
  /\ (snd (fst run_args) = Ret false
      <-> Z.of_nat (remaining (mFile f)) < mRecord_Len f).
Proof.
  intros HL run run_args. subst run run_args.
  rewrite Read_Next_eq, Read_Next_args_eq. cbn [fst snd].
  destruct (decide (0 <= mRecord_Len f <= Z.of_nat (remaining (mFile f)))) as [Hy | Hn].
  - split_and!.
    + split; [| lia]. intros [t Ht].
      destruct (fill_target _ _ _ _ _ _); discriminate.
    + intros e He.
      destruct (fill_target _ _ _ _ _ _) as [row | e' | u] eqn:E; try discriminate.
      by apply fill_target_no_Throw in E.
    + destruct (Fetch_Column _ _ _ _ _ _ _ _) as [args' [[] | e | u]]; cbn [snd];
        split; (discriminate || lia).
  - split_and!.
    + split; [lia | eauto].
    + discriminate.
    + split; [lia | reflexivity].
Qed.

Lemma Read_Next_end_of_data_witness :
  let f := snd (Read_Next little []
                  (Fixture.session little Fixture.truncated_file)) in
  let run := Read_Next little [] f in
  let run_args :=
    Read_Next_args little Fixture.stod Fixture.to_string
      (TDouble (bit_cast_double 0)) [] f in
  0 <= mRecord_Len f
  /\ ((exists t, fst run = Ret (false, t))
      <-> Z.of_nat (remaining (mFile f)) < mRecord_Len f)
  /\ (forall e, fst run <> Throw e)
  /\ (snd (fst run_args) = Ret false
      <-> Z.of_nat (remaining (mFile f)) < mRecord_Len f).
Proof.
  split; [by_computation |].
  apply (Read_Next_end_of_data little Fixture.stod Fixture.to_string [] _ []
           (snd (Read_Next little []
                   (Fixture.session little Fixture.truncated_file)))).
  by_computation.
Defined.

(** C5, as stated, fails for character cells that end in NUL bytes:
    [Get_From_Buffer] erases trailing NUL characters along with white space.
    The four-byte cell "AB\0\0" is decoded as "AB", whereas trimming white
    space alone leaves all four bytes. *)
Lemma nul_cell_not_whitespace_trimmed :
  let f := Fixture.session little Fixture.nul_cell_file in
  let data := row_buffer f in
  fst (Read_Next little [] f) = Ret (true, [TString (bytes_of "AB")])
  /\ (exists v, mVariables f = [v] /\ type v = NVar_Type.String
                /\ whitespace_trimmed (cell data (position v) (length_ v))
                   = [ "A"%byte; "B"%byte; x00; x00 ]
                /\ TString (whitespace_trimmed (cell data (position v) (length_ v)))
                   <> TString (bytes_of "AB")).
Proof.
  vm_compute. split; [reflexivity |]. eexists. split_and!; try reflexivity.
  discriminate.
Qed.

(** C5, amended.  For a session whose descriptor table has N variables,
    a successful positional [Read_Next] leaves exactly N values in table
    order: for every Numeric descriptor the double the codec makes of the 8
    big-endian bytes at its offset in the row buffer; for every String
    descriptor the text of the [length] bytes at its offset with trailing
    white space and NUL bytes erased and then leading white space erased.
    The row buffer holds the next [mRecord_Len] bytes of the stream. *)
Theorem Read_Next_row (native : endian) (target row : list TValue) (f f' : File) :
  Forall (fun v => 0 <= position v) (mVariables f) ->
  Read_Next native target f = (Ret (true, row), f') ->
  let data := row_buffer f in
  Z.of_nat (length data) = mRecord_Len f
  /\ length row = length (mVariables f)
  /\ forall i v,
       mVariables f !! i = Some v ->
       (type v = NVar_Type.Numeric ->
        row !! i
        = Some (TDouble (IbmToIEEE big (be_decode (cell data (position v) 8)))))
       /\ (type v = NVar_Type.String ->
           row !! i
           = Some (TString
                     (erase_leading isspace
                        (erase_trailing (fun ch => isspace ch || is_nul ch)
                           (cell data (position v) (length_ v)))))).
Proof.
  intros Hpos H data. rewrite Read_Next_eq in H.
  destruct (decide (0 <= mRecord_Len f <= Z.of_nat (remaining (mFile f)))) as [Hy | Hn];
    [| discriminate].
  destruct (fill_target _ _ _ _ _ _) as [row' | e | u] eqn:E; try discriminate.
  injection H as <- _.
  apply fill_target_spec in E as (Hlen & _ & Hnew);
    [| lia | by rewrite length_resize | exact Hpos].
  split_and!; [by apply length_row_buffer | exact Hlen |].
  intros i v Hi. specialize (Hnew i v ltac:(lia) Hi).
  unfold decoded in Hnew.
  split; intros Hty; rewrite Hty in Hnew; exact Hnew.
Qed.

Lemma Read_Next_row_witness :
  let f := Fixture.session little (Fixture.file Fixture.good) in
  let data := row_buffer f in
  let row := [ TDouble (bit_cast_double 0x3FF0000000000000);
               TString (bytes_of "42.5") ] in
  Z.of_nat (length data) = mRecord_Len f
  /\ length row = length (mVariables f)
  /\ forall i v,
       mVariables f !! i = Some v ->
       (type v = NVar_Type.Numeric ->
        row !! i
        = Some (TDouble (IbmToIEEE big (be_decode (cell data (position v) 8)))))
       /\ (type v = NVar_Type.String ->
           row !! i
           = Some (TString
                     (erase_leading isspace
                        (erase_trailing (fun ch => isspace ch || is_nul ch)
                           (cell data (position v) (length_ v)))))).
Proof.
  apply (Read_Next_row little [] _ (Fixture.session little (Fixture.file Fixture.good))
           (snd (Read_Next little [] (Fixture.session little (Fixture.file Fixture.good))))).
  - by_computation.
  - vm_compute. reflexivity.
Defined.


(** ** The coerced decoder *)

Section Coerced.

Variable native : endian.
Variable stod : list byte -> conversion.
Variable to_string : double -> list byte.
Variable vars : list Variable_Record.
Variable data : list byte.

Local Abbreviation fetch_idx := (Fetch_Column_Idx native stod to_string vars data).
Local Abbreviation fetch := (fetch_from native stod to_string vars data).

(** The recursion over the parameter pack visits the parameters from
    left to right and matches parameter number k with column number k. *)
Lemma Fetch_Column_fetch_from args : forall arg i,
  Z.of_nat (i + length (arg :: args)) < 2 ^ 64 ->
  Fetch_Column native stod to_string vars data
    (Z.of_nat (i + length (arg :: args))) arg args
  = fetch i (arg :: args).
Proof.
  induction args as [| a args IH]; intros arg i HN.
  - cbn [Fetch_Column fetch_from length] in *.
    replace (u64 (Z.of_nat (i + 1) - 1)) with (Z.of_nat i)
      by (unfold u64; rewrite Z.mod_small; lia).
    by destruct (fetch_idx (Z.of_nat i) arg).
  - cbn [Fetch_Column fetch_from]. cbn [length] in *.
    replace (u64 (Z.of_nat (i + S (S (length args))) - (Z.of_nat (S (length args)) + 1)))
      with (Z.of_nat i) by (unfold u64; rewrite Z.mod_small; lia).
    destruct (fetch_idx (Z.of_nat i) arg) as [w | e | u]; try reflexivity.
    replace (i + S (S (length args)))%nat with (S i + length (a :: args))%nat
      by (cbn [length]; lia).
    rewrite IH by (cbn [length]; lia). reflexivity.
Qed.

Lemma fetch_from_Ret slots : forall i out,
  fetch i slots = (out, Ret tt) ->
  length out = length slots
  /\ forall k a, slots !! k = Some a ->
       exists w, fetch_idx (Z.of_nat (i + k)) a = Ret w /\ out !! k = Some w.
Proof.
  induction slots as [| a slots IH]; intros i out H; cbn [fetch_from] in H.
  - injection H as <-. split; [done |]. intros k a Hk. by rewrite lookup_nil in Hk.
  - destruct (fetch_idx (Z.of_nat i) a) as [w | e | u] eqn:E; try discriminate.
    destruct (fetch (S i) slots) as [out' o] eqn:E'. injection H as <- ->.
    apply IH in E' as (Hlen & Hall). split; [cbn; by rewrite Hlen |].
    intros [| k] b Hk; cbn in Hk.
    + injection Hk as <-. exists w. by rewrite Nat.add_0_r.
    + destruct (Hall k b Hk) as (w' & Hw' & Hout). exists w'.
      split; [| exact Hout]. by replace (i + S k)%nat with (S i + k)%nat by lia.
Qed.

(** The first parameter whose fetch fails ends the call: the failure is
    the outcome, and that parameter and the later ones keep their values. *)
Lemma fetch_from_first_failure slots : forall i j a,
  (forall k b, (k < j)%nat -> slots !! k = Some b ->
     exists w, fetch_idx (Z.of_nat (i + k)) b = Ret w) ->
  slots !! j = Some a ->
  (forall w, fetch_idx (Z.of_nat (i + j)) a <> Ret w) ->
  exists out,
    fetch i slots
    = (out, match fetch_idx (Z.of_nat (i + j)) a with
            | Ret _ => Ret tt
            | Throw e => Throw e
            | Undefined u => Undefined u
            end)
    /\ forall k, (j <= k)%nat -> out !! k = slots !! k.
Proof.
  induction slots as [| s slots IH]; intros i j a Hbefore Hj Hfail;
    [by rewrite lookup_nil in Hj |].
  cbn [fetch_from]. destruct j as [| j].
  - cbn in Hj. injection Hj as ->. rewrite Nat.add_0_r in *.
    destruct (fetch_idx (Z.of_nat i) a) as [w | e | u] eqn:E.
    + by destruct (Hfail w).
    + eexists. split; [reflexivity | done].
    + eexists. split; [reflexivity | done].
  - cbn in Hj.
    destruct (Hbefore 0%nat s ltac:(lia) eq_refl) as (w & Hw).
    rewrite Nat.add_0_r in Hw. rewrite Hw.
    destruct (IH (S i) j a) as (out & Hout & Hkeep).
    + intros k b Hk Hb. destruct (Hbefore (S k) b ltac:(lia) Hb) as (w' & Hw').
      exists w'. by replace (S i + k)%nat with (i + S k)%nat by lia.
    + exact Hj.
    + by replace (S i + j)%nat with (i + S j)%nat by lia.
    + replace (S i + j)%nat with (i + S j)%nat in Hout by lia.
      rewrite Hout. eexists. split; [reflexivity |].
      intros [| k] Hk; [lia |]. cbn. apply Hkeep. lia.
Qed.

Lemma Fetch_Column_Idx_in_table idx arg mvar :
  vars !! Z.to_nat idx = Some mvar ->
  fetch_idx idx arg <> Undefined vector_index_out_of_range.
Proof.
  intros Hv. unfold Fetch_Column_Idx. rewrite Hv.
  unfold Get_From_Buffer, Get_From_Buffer_string.
  destruct arg, (type mvar); repeat (destruct (_ <=? _)); cbn [outcome_bind];
    try discriminate; destruct (stod _); discriminate.
Qed.

Lemma fetch_from_in_table slots : forall i,
  (i + length slots <= length vars)%nat ->
  snd (fetch i slots) <> Undefined vector_index_out_of_range.
Proof.
  induction slots as [| a slots IH]; intros i Hle; cbn [fetch_from]; [done |].
  cbn [length] in Hle.
  destruct (lookup_lt_is_Some_2 vars i ltac:(lia)) as [mvar Hv].
  pose proof (Fetch_Column_Idx_in_table (Z.of_nat i) a mvar) as Hin.
  rewrite Nat2Z.id in Hin. specialize (Hin Hv).
  destruct (fetch_idx (Z.of_nat i) a) as [w | e | u]; cbn [snd]; [| done | congruence].
  specialize (IH (S i) ltac:(lia)).
  by destruct (fetch (S i) slots).
Qed.

End Coerced.

(** ** The coerced decoder: checked properties *)

(** C6.  In the coerced [Read_Next], take a double parameter that is
    matched with a String column (parameter and column number i).  If the
    call succeeds, the parameter holds the number [std::stod] parsed from the
    trimmed text of the cell.  If the row was read, the cell lies in the row,
    the parameters before it were fetched, and [std::stod] throws on the
    trimmed text, then the call ends with that exception and the parameter
    keeps the value it had: no default is stored.  The witness runs both
    cases: a cell holding "  42.5 " yields 42.5, a cell holding "abc"
    throws. *)
Theorem Read_Next_args_double_from_string (native : endian)
    (stod : list byte -> conversion) (to_string : double -> list byte)
    (arg : TValue) (args : list TValue) (f : File)
    (i : nat) (d0 : double) (v : Variable_Record) :
  let slots := arg :: args in
  Z.of_nat (length slots) < 2 ^ 64 ->
  slots !! i = Some (TDouble d0) ->
  mVariables f !! i = Some v ->
  type v = NVar_Type.String ->
  let run := Read_Next_args native stod to_string arg args f in
  let data := row_buffer f in
  let text := cell_text (cell data (position v) (length_ v)) in
  (forall out,
     fst run = (out, Ret true) ->
     exists d, stod text = converted d /\ out !! i = Some (TDouble d))
  /\
  (forall e,
     0 <= mRecord_Len f <= Z.of_nat (remaining (mFile f)) ->
     position v + length_ v <= Z.of_nat (length data) ->
     (forall k a, (k < i)%nat -> slots !! k = Some a ->
        exists w, Fetch_Column_Idx native stod to_string (mVariables f) data
                    (Z.of_nat k) a = Ret w) ->
     conversion_outcome (stod text) = Throw e ->
     exists out, fst run = (out, Throw e) /\ out !! i = Some (TDouble d0)).
Proof.
  intros slots HN Hslot Hv Hty run data text.
  assert (Fetch_Column_Idx native stod to_string (mVariables f) data
            (Z.of_nat i) (TDouble d0)
          = if position v + length_ v <=? Z.of_nat (length data)
            then d <~ conversion_outcome (stod text) ;; Ret (TDouble d)
            else Undefined buffer_range_out_of_bounds) as Hidx.
  { unfold Fetch_Column_Idx. rewrite Nat2Z.id, Hv, Hty.
    unfold Get_From_Buffer_string. by destruct (_ <=? _). }
  subst run. rewrite Read_Next_args_eq.
  pose proof (Fetch_Column_fetch_from native stod to_string (mVariables f) data
                args arg 0 HN) as Hfetch.
  cbn [Nat.add] in Hfetch. fold data. rewrite Hfetch. fold slots.
  split.
  - intros out Hout.
    destruct (decide _) as [Hy | Hn]; [| cbn in Hout; discriminate].
    destruct (fetch_from _ _ _ _ _ 0 slots) as [out' o] eqn:E.
    cbn [fst] in Hout. injection Hout as -> Ho.
    destruct o as [[] | e | u]; try discriminate.
    apply fetch_from_Ret in E as (_ & Hall).
    destruct (Hall i _ Hslot) as (w & Hw & Hi).
    cbn [Nat.add] in Hw. rewrite Hidx in Hw.
    destruct (_ <=? _); [| discriminate].
    destruct (stod text) as [d | |]; cbn in Hw; try discriminate.
    injection Hw as <-. eauto.
  - intros e Hy Hcell Hbefore He.
    rewrite decide_True by exact Hy.
    destruct (fetch_from_first_failure native stod to_string (mVariables f) data
                slots 0 i (TDouble d0)) as (out & Hout & Hkeep).
    + exact Hbefore.
    + exact Hslot.
    + cbn [Nat.add]. rewrite Hidx.
      destruct (Z.leb_spec (position v + length_ v) (Z.of_nat (length data))); [| lia].
      rewrite He. discriminate.
    + cbn [Nat.add] in Hout. rewrite Hidx in Hout.
      destruct (Z.leb_spec (position v + length_ v) (Z.of_nat (length data))); [| lia].
      rewrite He in Hout. cbn [outcome_bind] in Hout.
      rewrite Hout. cbn [fst]. exists out. split; [reflexivity |].
      rewrite Hkeep by lia. exact Hslot.
Qed.

Lemma Read_Next_args_double_from_string_witness :
  let f1 := Fixture.session little (Fixture.file Fixture.good) in
  let zero := TDouble (bit_cast_double 0) in
  let run1 := Read_Next_args little Fixture.stod Fixture.to_string zero [zero] f1 in
  let f2 := snd run1 in
  let run2 := Read_Next_args little Fixture.stod Fixture.to_string zero [zero] f2 in
  cell (row_buffer f1) 8 7 = bytes_of "  42.5 "
  /\ (exists d, Fixture.stod (cell_text (cell (row_buffer f1) 8 7)) = converted d
                /\ d = bit_cast_double 0x4045400000000000
                /\ fst (fst run1) !! 1%nat = Some (TDouble d))
  /\ cell (row_buffer f2) 8 7 = bytes_of "abc    "
  /\ (exists out, fst run2 = (out, Throw invalid_argument)
                  /\ out !! 1%nat = Some zero).
Proof.
  intros f1 zero run1 f2 run2.
  split; [by_computation |]. split; [| split; [by_computation |]].
  - destruct (Read_Next_args_double_from_string little Fixture.stod Fixture.to_string
                zero [zero] f1 1 (bit_cast_double 0)
                {| name := bytes_of "NAME"; label := bytes_of "a text";
                   type := NVar_Type.String; length_ := 7; varNum := 2;
                   position := 8 |})
      as [Hok _]; [by_computation .. |].
    destruct (Hok (fst (fst run1))) as (d & Hd & Hout); [by_computation |].
    exists d. split; [exact Hd |]. split; [| exact Hout].
    vm_compute in Hd. by injection Hd as <-.
  - destruct (Read_Next_args_double_from_string little Fixture.stod Fixture.to_string
                zero [zero] f2 1 (bit_cast_double 0)
                {| name := bytes_of "NAME"; label := bytes_of "a text";
                   type := NVar_Type.String; length_ := 7; varNum := 2;
                   position := 8 |})
      as [_ Hthrow]; [by_computation .. |].
    apply Hthrow.
    + vm_compute. split; discriminate.
    + vm_compute. discriminate.
    + intros [| k] a Hk Ha; [| lia]. injection Ha as <-.
      eexists. vm_compute. reflexivity.
    + vm_compute. reflexivity.
Defined.

(** C10.  The coerced [Read_Next] with N parameters reads
    [mVariables[argIdx]] for argIdx = 0 .. N-1 with no bounds check.  If N
    does not exceed the number of variables, no access falls outside the
    table.  If N exceeds it, the call never succeeds, and when the row was
    read and the parameters matched with existing columns were fetched, the
    access with argIdx equal to the number of variables falls outside the
    vector. *)
Theorem Read_Next_args_index_bound (native : endian)
    (stod : list byte -> conversion) (to_string : double -> list byte)
    (arg : TValue) (args : list TValue) (f : File) :
  let slots := arg :: args in
  let N := length slots in
  let count := length (mVariables f) in
  Z.of_nat N < 2 ^ 64 ->
  let run := Read_Next_args native stod to_string arg args f in
  ((N <= count)%nat ->
   snd (fst run) <> Undefined vector_index_out_of_range)
  /\
  ((count < N)%nat ->
   Fetch_Column_Idx native stod to_string (mVariables f) (row_buffer f)
     (Z.of_nat count) (default arg (slots !! count))
   = Undefined vector_index_out_of_range
   /\ snd (fst run) <> Ret true
   /\ (0 <= mRecord_Len f <= Z.of_nat (remaining (mFile f)) ->
       (forall k a, (k < count)%nat -> slots !! k = Some a ->
          exists w, Fetch_Column_Idx native stod to_string (mVariables f)
                      (row_buffer f) (Z.of_nat k) a = Ret w) ->
       snd (fst run) = Undefined vector_index_out_of_range)).
Proof.
  intros slots N count HN run. subst run. rewrite Read_Next_args_eq.
  pose proof (Fetch_Column_fetch_from native stod to_string (mVariables f)
                (row_buffer f) args arg 0 HN) as Hfetch.
  cbn [Nat.add] in Hfetch. rewrite Hfetch. fold slots.
  assert (forall a, Fetch_Column_Idx native stod to_string (mVariables f) (row_buffer f)
                      (Z.of_nat count) a = Undefined vector_index_out_of_range) as Hout.
  { intros a. unfold Fetch_Column_Idx. rewrite Nat2Z.id.
    by rewrite (lookup_ge_None_2 (mVariables f) count) by (subst count; lia). }
  split.
  - intros Hle. destruct (decide _); [| cbn; discriminate].
    pose proof (fetch_from_in_table native stod to_string (mVariables f)
                  (row_buffer f) slots 0 ltac:(cbn [Nat.add]; exact Hle)) as Hin.
    destruct (fetch_from _ _ _ _ _ 0 slots) as [out o]. cbn [fst snd] in *.
    destruct o as [[] | e | u]; congruence.
  - intros Hlt. split; [apply Hout |].
    destruct (lookup_lt_is_Some_2 slots count Hlt) as [a Ha].
    split.
    + destruct (decide _); [| cbn; discriminate].
      destruct (fetch_from _ _ _ _ _ 0 slots) as [out o] eqn:E. cbn [fst snd].
      destruct o as [[] | e | u]; try discriminate.
      apply fetch_from_Ret in E as (_ & Hall).
      destruct (Hall count a Ha) as (w & Hw & _). cbn [Nat.add] in Hw.
      rewrite Hout in Hw. discriminate.
    + intros Hy Hbefore. rewrite decide_True by exact Hy.
      destruct (fetch_from_first_failure native stod to_string (mVariables f)
                  (row_buffer f) slots 0 count a) as (out & Hres & _).
      * exact Hbefore.
      * exact Ha.
      * cbn [Nat.add]. rewrite Hout. discriminate.
      * cbn [Nat.add] in Hres. rewrite Hout in Hres. rewrite Hres. reflexivity.
Qed.

Lemma Read_Next_args_index_bound_witness :
  let f := Fixture.session little (Fixture.file Fixture.good) in
  let zero := TDouble (bit_cast_double 0) in
  let run2 := Read_Next_args little Fixture.stod Fixture.to_string zero [zero] f in
  let run3 := Read_Next_args little Fixture.stod Fixture.to_string zero [zero; zero] f in
  length (mVariables f) = 2%nat
  /\ snd (fst run2) <> Undefined vector_index_out_of_range
  /\ snd (fst run3) = Undefined vector_index_out_of_range.
Proof.
  intros f zero run2 run3. split; [by_computation |]. split.
  - destruct (Read_Next_args_index_bound little Fixture.stod Fixture.to_string
                zero [zero] f) as [Hin _]; [by_computation |].
    apply Hin. by_computation.
  - destruct (Read_Next_args_index_bound little Fixture.stod Fixture.to_string
                zero [zero; zero] f) as [_ Hout]; [by_computation |].
    destruct Hout as (_ & _ & Hout); [by_computation |].
    apply Hout.
    + vm_compute. split; discriminate.
    + intros [| [| k]] a Hk Ha; [| | vm_compute in Hk; lia];
        injection Ha as <-; eexists; vm_compute; reflexivity.
Defined.

(** ** More on byte order *)

Lemma of_unsigned_mod T v :
  in_range T v ->
  of_unsigned T (v mod 2 ^ (8 * Z.of_nat (sizeof_integral T))) = v.
Proof.
  unfold in_range, of_unsigned, bit_width.
  destruct T; cbn [is_signed sizeof_integral andb]; intros Hv.
  - apply Z.mod_small. exact Hv.
  - change (8 * Z.of_nat 4) with 32 in *. change (32 - 1) with 31 in *.
    change (2 ^ 32) with 4294967296. change (2 ^ 31) with 2147483648 in *.
    destruct (Z.leb_spec 2147483648 (v mod 4294967296));
      Z.div_mod_to_equations; lia.
  - apply Z.mod_small. exact Hv.
Qed.

Lemma To_Machine_Endian_Raw_little T v :
  To_Machine_Endian_Raw little T v
  = of_unsigned T (be_decode (le_encode (sizeof_integral T) v)).
Proof. reflexivity. Qed.

(** X1.  [To_Machine_Endian_Raw] is its own inverse on the values of the
    type: on a big-endian host it is the identity, on a little-endian host
    it reverses the bytes of the object representation. *)
Theorem To_Machine_Endian_Raw_involutive (native : endian) (T : integral) (v : Z) :
  in_range T v ->
  To_Machine_Endian_Raw native T (To_Machine_Endian_Raw native T v) = v
  /\ in_range T (To_Machine_Endian_Raw native T v)
  /\ object_representation native T (To_Machine_Endian_Raw native T v)
     = match native with
       | little => rev (object_representation native T v)
       | big => object_representation native T v
       end.
Proof.
  intros Hv. destruct native; [| by split_and!].
  set (bs := rev (le_encode (sizeof_integral T) v)).
  assert (length bs = sizeof_integral T) as Hbs
    by (subst bs; by rewrite length_rev, length_le_encode).
  assert (To_Machine_Endian_Raw little T v = of_unsigned T (le_decode bs)) as Hw
    by reflexivity.
  assert (le_encode (sizeof_integral T) (of_unsigned T (le_decode bs)) = bs) as Henc.
  { rewrite le_encode_of_unsigned, <- Hbs. apply le_encode_decode. }
  split_and!.
  - rewrite Hw. unfold To_Machine_Endian_Raw, object_representation,
      value_of_representation. rewrite Henc. subst bs.
    rewrite rev_involutive, le_decode_encode. by apply of_unsigned_mod.
  - rewrite Hw. pose proof (le_decode_range bs) as Hr. rewrite Hbs in Hr.
    unfold in_range, of_unsigned, bit_width.
    destruct T; cbn [is_signed andb sizeof_integral] in *; try exact Hr.
    change (8 * Z.of_nat 4) with 32 in *. change (32 - 1) with 31.
    change (2 ^ 32) with 4294967296 in *. change (2 ^ 31) with 2147483648.
    destruct (Z.leb_spec 2147483648 (le_decode bs)); lia.
  - rewrite Hw. unfold object_representation. by rewrite Henc.
Qed.

Lemma To_Machine_Endian_Raw_involutive_witness :
  To_Machine_Endian_Raw little int32_t (To_Machine_Endian_Raw little int32_t (-2)) = -2
  /\ in_range int32_t (To_Machine_Endian_Raw little int32_t (-2))
  /\ object_representation little int32_t (To_Machine_Endian_Raw little int32_t (-2))
     = rev (object_representation little int32_t (-2)).
Proof.
  apply (To_Machine_Endian_Raw_involutive little int32_t (-2)).
  vm_compute. split; [discriminate | reflexivity].
Defined.

(** X2.  Reading an integer from a buffer and converting it gives the
    big-endian value of the bytes at the offset, whatever the byte order of
    the host; the read is undefined exactly when the [sizeof(T)] bytes at
    the offset do not lie within the buffer. *)
Theorem Get_From_Buffer_big_endian (native : endian) (T : integral)
    (buf : list byte) (offset : Z) :
  0 <= offset ->
  (offset + Z.of_nat (sizeof_integral T) <= Z.of_nat (length buf) ->
   exists x,
     Get_From_Buffer native T buf offset = Ret x
     /\ in_range T x
     /\ To_Machine_Endian_Raw native T x
        = of_unsigned T (be_decode (take (sizeof_integral T)
                                      (drop (Z.to_nat offset) buf))))
  /\ (Z.of_nat (length buf) < offset + Z.of_nat (sizeof_integral T) ->
      Get_From_Buffer native T buf offset = Undefined buffer_range_out_of_bounds).
Proof.
  intros Hoff. unfold Get_From_Buffer.
  destruct (Z.leb_spec (offset + Z.of_nat (sizeof_integral T)) (Z.of_nat (length buf)))
    as [Hle | Hgt]; split; try lia; intros _; [| reflexivity].
  set (bs := take (sizeof_integral T) (drop (Z.to_nat offset) buf)).
  assert (length bs = sizeof_integral T) as Hbs
    by (subst bs; rewrite length_take, length_drop; lia).
  eexists. split; [reflexivity |]. split.
  - unfold value_of_representation.
    assert (0 <= match native with little => le_decode bs | big => be_decode bs end
            < 2 ^ (8 * Z.of_nat (sizeof_integral T))) as Hr.
    { destruct native; [pose proof (le_decode_range bs) as H
                       | pose proof (be_decode_range bs) as H];
        by rewrite Hbs in H. }
    revert Hr. generalize (match native with little => le_decode bs | big => be_decode bs end).
    intros u Hu. unfold in_range, of_unsigned, bit_width.
    destruct T; cbn [is_signed andb sizeof_integral] in *; try exact Hu.
    change (8 * Z.of_nat 4) with 32 in *. change (32 - 1) with 31.
    change (2 ^ 32) with 4294967296 in *. change (2 ^ 31) with 2147483648.
    destruct (Z.leb_spec 2147483648 u); lia.
  - by apply To_Machine_Endian_Raw_value.
Qed.

Lemma Get_From_Buffer_big_endian_witness :
  exists x,
    Get_From_Buffer little uint16_t [x00; x01; x02; x03] 1 = Ret x
    /\ in_range uint16_t x
    /\ To_Machine_Endian_Raw little uint16_t x
       = of_unsigned uint16_t (be_decode (take 2 (drop (Z.to_nat 1) [x00; x01; x02; x03]))).
Proof.
  apply (Get_From_Buffer_big_endian little uint16_t [x00; x01; x02; x03] 1);
    vm_compute; discriminate.
Defined.

(** ** The codec on every input *)

Lemma nibble_tests_shift n :
  0 <= n <= 15 ->
  (if negb (n / 8 =? 0) then 3
   else if negb ((n / 4) mod 2 =? 0) then 2
   else if negb ((n / 2) mod 2 =? 0) then 1
   else 0) = (if n =? 0 then 0 else Z.log2 n)
  /\ 0 <= (if n =? 0 then 0 else Z.log2 n) <= 3.
Proof.
  intros Hn.
  destruct (Z.eqb_spec n 0) as [-> | Hnz].
  - vm_compute. intuition discriminate.
  - apply nibble_tests_log2. lia.
Qed.

Lemma ibm_fields_range v :
  0 <= v < 2 ^ 64 ->
  0 <= ibm_sign v <= 1 /\ 0 <= ibm_exponent v < 128 /\ 0 <= ibm_mantissa v < 2 ^ 56.
Proof.
  intros Hv. unfold ibm_sign, ibm_exponent, ibm_mantissa.
  change (2 ^ 64) with 18446744073709551616 in *.
  change (2 ^ 63) with 9223372036854775808.
  change (2 ^ 56) with 72057594037927936. change (2 ^ 7) with 128.
  split_and!; Z.div_mod_to_equations; lia.
Qed.

(** The three fields of the result, for every 64-bit big-endian value. *)
Lemma IbmToIEEE_big_fields v :
  0 <= v < 2 ^ 64 ->
  let k := applied_shift v in
  let E := (ibm_exponent v - 65) * 4 + k + 1023 in
  let M := (ibm_mantissa v / 2 ^ k) mod 2 ^ 52 in
  0 <= k <= 3
  /\ IbmToIEEE big v = bit_cast_double (ibm_sign v * 2 ^ 63 + E * 2 ^ 52 + M)
  /\ double_sign (IbmToIEEE big v) = ibm_sign v
  /\ double_exponent (IbmToIEEE big v) = E
  /\ double_fraction (IbmToIEEE big v) = M.
Proof.
  intros Hv k E M.
  destruct (top_nibble_tests v Hv) as (Hrange & H55 & H54 & H53).
  destruct (ibm_fields_range v Hv) as (Hs & He & Hm).
  destruct (nibble_tests_shift _ Hrange) as [Hshift Hk].
  fold (applied_shift v) in Hshift, Hk. fold k in Hshift, Hk.
  assert (0 <= M < 2 ^ 52) as HM by (apply Z.mod_pos_bound; lia).
  assert (IbmToIEEE big v = bit_cast_double (ibm_sign v * 2 ^ 63 + E * 2 ^ 52 + M)) as Hd.
  { pose proof (IbmToIEEE_big_arith v Hv) as Hbits. cbv zeta in Hbits.
    rewrite H55, H54, H53, Hshift in Hbits.
    fold (ibm_mantissa v) (ibm_exponent v) in Hbits.
    replace ((v / 2 ^ 63) mod 2) with (ibm_sign v) in Hbits
      by (unfold ibm_sign in *; symmetry; apply Z.mod_small; lia).
    rewrite u64_exponent in Hbits by (change (2 ^ 7) with 128; lia).
    fold E M in Hbits.
    rewrite assemble_double in Hbits;
      [| lia | subst E; change (2 ^ 11) with 2048; lia | exact HM].
    destruct (IbmToIEEE big v) as [z]. cbn in Hbits. by subst z. }
  split; [exact Hk |]. split; [exact Hd |]. rewrite Hd.
  apply double_fields; [lia | subst E; change (2 ^ 11) with 2048; lia | exact HM].
Qed.

Lemma To_Machine_Endian_Raw_uint64_range native raw :
  0 <= raw < 2 ^ 64 ->
  0 <= To_Machine_Endian_Raw native uint64_t raw < 2 ^ 64.
Proof.
  intros Hr. destruct native; [| exact Hr].
  unfold To_Machine_Endian_Raw, value_of_representation, object_representation,
    of_unsigned. cbn [is_signed andb sizeof_integral].
  pose proof (le_decode_range (rev (le_encode 8 raw))) as H.
  rewrite length_rev, length_le_encode in H. exact H.
Qed.

(** X3.  [IbmToIEEE] never yields a zero, a subnormal number, an
    infinity or a NaN: for every 64-bit input, on either host, the exponent
    field of the result lies between 763 and 1274, so the result is a normal
    number. *)
Theorem IbmToIEEE_always_normal (native : endian) (raw : Z) :
  0 <= raw < 2 ^ 64 ->
  let d := IbmToIEEE native raw in
  763 <= double_exponent d <= 1274
  /\ double_is_zero d = false
  /\ exists m e, double_normal_value d = Some (m, e) /\ m <> 0.
Proof.
  intros Hraw d.
  pose proof (To_Machine_Endian_Raw_uint64_range native raw Hraw) as Hv.
  set (v := To_Machine_Endian_Raw native uint64_t raw) in *.
  assert (d = IbmToIEEE big v) as -> by reflexivity.
  destruct (IbmToIEEE_big_fields v Hv) as (Hk & _ & Hs & HE & HM).
  destruct (ibm_fields_range v Hv) as (Hsr & He & _).
  assert (763 <= double_exponent (IbmToIEEE big v) <= 1274) as Hrange
    by (rewrite HE; lia).
  assert (0 <= double_fraction (IbmToIEEE big v)) as Hfrac
    by (rewrite HM; apply Z.mod_pos_bound; lia).
  split; [exact Hrange |]. split.
  - unfold double_is_zero. apply andb_false_iff. left. apply Z.eqb_neq. lia.
  - unfold double_normal_value.
    destruct (Z.leb_spec 1 (double_exponent (IbmToIEEE big v))); [| lia].
    destruct (Z.leb_spec (double_exponent (IbmToIEEE big v)) 2046); [| lia].
    cbn [andb]. eexists _, _. split; [reflexivity |].
    destruct (double_sign _ =? 0); lia.
Qed.

Lemma IbmToIEEE_always_normal_witness :
  let d := IbmToIEEE little 0 in
  763 <= double_exponent d <= 1274
  /\ double_is_zero d = false
  /\ exists m e, double_normal_value d = Some (m, e) /\ m <> 0.
Proof. apply (IbmToIEEE_always_normal little 0). vm_compute. split; [discriminate | reflexivity]. Defined.

(** X4.  For an input whose top mantissa nibble is not zero the result
    is the IBM number with the low [k] bits of its mantissa cut off, where
    [k] (0 to 3) is the position of the leading one in that nibble: the
    double is (-1)^sign * floor(mantissa / 2^k) * 2^(scale + k), the IBM
    number being (-1)^sign * mantissa * 2^scale.  So the conversion is exact
    when those [k] bits are zero, and otherwise errs towards zero by less
    than one unit of the last place. *)
Theorem IbmToIEEE_truncates (native : endian) (raw : Z) :
  0 <= raw < 2 ^ 64 ->
  let v := To_Machine_Endian_Raw native uint64_t raw in
  top_nibble (ibm_mantissa v) <> 0 ->
  let k := applied_shift v in
  let m := ibm_mantissa v in
  0 <= k <= 3
  /\ double_normal_value (IbmToIEEE native raw)
     = Some (ibm_signum v * (m / 2 ^ k), ibm_scale v + k)
  /\ 2 ^ 52 <= m / 2 ^ k < 2 ^ 53
  /\ m - 2 ^ k < (m / 2 ^ k) * 2 ^ k <= m
  /\ (m mod 2 ^ k = 0 -> (m / 2 ^ k) * 2 ^ k = m).
Proof.
  intros Hraw v Hnib k m.
  pose proof (To_Machine_Endian_Raw_uint64_range native raw Hraw) as Hv. fold v in Hv.
  assert (IbmToIEEE native raw = IbmToIEEE big v) as -> by reflexivity.
  destruct (IbmToIEEE_big_fields v Hv) as (Hk & _ & Hs & HE & HM).
  destruct (ibm_fields_range v Hv) as (Hsr & He & Hm).
  destruct (top_nibble_tests v Hv) as (Hrange & _).
  fold k in Hk, HE, HM. fold m in HM, Hm.
  assert (2 ^ 52 <= m / 2 ^ k < 2 ^ 53) as Hsig.
  { assert (k = Z.log2 (top_nibble m)) as Hlog.
    { subst k. unfold applied_shift. fold m.
      by destruct (Z.eqb_spec (top_nibble m) 0). }
    fold m in Hnib, Hrange.
    pose proof (Z.log2_spec (top_nibble m) ltac:(lia)) as [Hlo Hhi].
    rewrite <- Hlog in Hlo, Hhi. clear Hlog HE HM.
    unfold top_nibble in *.
    change (2 ^ 56) with 72057594037927936 in *.
    change (2 ^ 53) with 9007199254740992.
    change (2 ^ 52) with 4503599627370496 in *.
    assert (k = 0 \/ k = 1 \/ k = 2 \/ k = 3) as [-> | [-> | [-> | ->]]] by lia;
      cbn in Hlo, Hhi; [change (2 ^ 0) with 1 | change (2 ^ 1) with 2
                         | change (2 ^ 2) with 4 | change (2 ^ 3) with 8];
      Z.div_mod_to_equations; lia. }
  assert (0 < 2 ^ k) as Hpow by (apply Z.pow_pos_nonneg; lia).
  split; [exact Hk |]. split; [| split; [exact Hsig |]].
  - unfold double_normal_value. rewrite HE, Hs, HM.
    destruct (Z.leb_spec 1 ((ibm_exponent v - 65) * 4 + k + 1023)); [| lia].
    destruct (Z.leb_spec ((ibm_exponent v - 65) * 4 + k + 1023) 2046); [| lia].
    cbn [andb]. unfold ibm_signum, ibm_scale.
    assert (2 ^ 52 + (m / 2 ^ k) mod 2 ^ 52 = m / 2 ^ k) as ->.
    { generalize dependent (m / 2 ^ k). intros X _ HX.
      change (2 ^ 53) with 9007199254740992 in HX.
      change (2 ^ 52) with 4503599627370496 in *.
      Z.div_mod_to_equations. lia. }
    do 2 f_equal. lia.
  - split; [| intros H0]; Z.div_mod_to_equations; nia.
Qed.

Lemma IbmToIEEE_truncates_witness :
  let raw := 0x4264800000000000 in
  let v := To_Machine_Endian_Raw big uint64_t raw in
  let k := applied_shift v in
  let m := ibm_mantissa v in
  0 <= k <= 3
  /\ double_normal_value (IbmToIEEE big raw)
     = Some (ibm_signum v * (m / 2 ^ k), ibm_scale v + k)
  /\ 2 ^ 52 <= m / 2 ^ k < 2 ^ 53
  /\ m - 2 ^ k < (m / 2 ^ k) * 2 ^ k <= m
  /\ (m mod 2 ^ k = 0 -> (m / 2 ^ k) * 2 ^ k = m).
Proof.
  apply (IbmToIEEE_truncates big 0x4264800000000000).
  - vm_compute. split; [discriminate | reflexivity].
  - vm_compute. discriminate.
Defined.

(** X5.  The sign bit passes through unchanged and touches nothing else:
    two inputs that differ only in bit 63 give doubles that differ only in
    their sign bit. *)
Theorem IbmToIEEE_sign (native : endian) (raw raw' : Z) :
  0 <= raw < 2 ^ 64 ->
  0 <= raw' < 2 ^ 64 ->
  To_Machine_Endian_Raw native uint64_t raw'
  = To_Machine_Endian_Raw native uint64_t raw + 2 ^ 63 ->
  let d := IbmToIEEE native raw in
  let d' := IbmToIEEE native raw' in
  double_sign d = 0 /\ double_sign d' = 1
  /\ double_exponent d' = double_exponent d
  /\ double_fraction d' = double_fraction d
  /\ double_bits d' = double_bits d + 2 ^ 63.
Proof.
  intros Hraw Hraw' Hflip d d'.
  pose proof (To_Machine_Endian_Raw_uint64_range native raw Hraw) as Hv.
  pose proof (To_Machine_Endian_Raw_uint64_range native raw' Hraw') as Hv'.
  assert (d = IbmToIEEE big (To_Machine_Endian_Raw native uint64_t raw)) as ->
    by reflexivity.
  assert (d' = IbmToIEEE big (To_Machine_Endian_Raw native uint64_t raw')) as ->
    by reflexivity.
  set (v := To_Machine_Endian_Raw native uint64_t raw) in *.
  rewrite Hflip in *. clear Hflip.
  assert (ibm_sign v = 0 /\ ibm_sign (v + 2 ^ 63) = 1
          /\ ibm_exponent (v + 2 ^ 63) = ibm_exponent v
          /\ ibm_mantissa (v + 2 ^ 63) = ibm_mantissa v) as (Hs & Hs' & He & Hm).
  { unfold ibm_sign, ibm_exponent, ibm_mantissa.
    change (2 ^ 64) with 18446744073709551616 in *.
    change (2 ^ 63) with 9223372036854775808 in *.
    change (2 ^ 56) with 72057594037927936. change (2 ^ 7) with 128.
    split_and!; Z.div_mod_to_equations; lia. }
  assert (applied_shift (v + 2 ^ 63) = applied_shift v) as Hk
    by (unfold applied_shift; by rewrite Hm).
  destruct (IbmToIEEE_big_fields v Hv) as (_ & Hd & Fs & Fe & Ff).
  destruct (IbmToIEEE_big_fields (v + 2 ^ 63) Hv') as (_ & Hd' & Fs' & Fe' & Ff').
  rewrite Hs', He, Hm, Hk in *. rewrite Hs in *.
  split_and!; try congruence.
  rewrite Hd, Hd'. cbn [double_bits]. lia.
Qed.

Lemma IbmToIEEE_sign_witness :
  let d := IbmToIEEE little 0x0000000000001041 in
  let d' := IbmToIEEE little 0x00000000000010C1 in
  double_sign d = 0 /\ double_sign d' = 1
  /\ double_exponent d' = double_exponent d
  /\ double_fraction d' = double_fraction d
  /\ double_bits d' = double_bits d + 2 ^ 63.
Proof.
  apply (IbmToIEEE_sign little 0x0000000000001041 0x00000000000010C1).
  - vm_compute. split; [discriminate | reflexivity].
  - vm_compute. split; [discriminate | reflexivity].
  - vm_compute. reflexivity.
Defined.

(** X6.  An input whose top mantissa nibble is zero (an unnormalised IBM
    number, and every encoding of zero) is decoded with a leading one that
    the input does not have: the result is
    (-1)^sign * (2^52 + mantissa) * 2^scale, the IBM number being
    (-1)^sign * mantissa * 2^scale. *)
Theorem IbmToIEEE_zero_nibble (native : endian) (raw : Z) :
  0 <= raw < 2 ^ 64 ->
  let v := To_Machine_Endian_Raw native uint64_t raw in
  top_nibble (ibm_mantissa v) = 0 ->
  0 <= ibm_mantissa v < 2 ^ 52
  /\ double_fraction (IbmToIEEE native raw) = ibm_mantissa v
  /\ double_exponent (IbmToIEEE native raw) = (ibm_exponent v - 65) * 4 + 1023
  /\ double_normal_value (IbmToIEEE native raw)
     = Some (ibm_signum v * (2 ^ 52 + ibm_mantissa v), ibm_scale v).
Proof.
  intros Hraw v Hnib.
  pose proof (To_Machine_Endian_Raw_uint64_range native raw Hraw) as Hv. fold v in Hv.
  assert (IbmToIEEE native raw = IbmToIEEE big v) as -> by reflexivity.
  destruct (IbmToIEEE_big_fields v Hv) as (_ & _ & Hs & HE & HM).
  destruct (ibm_fields_range v Hv) as (Hsr & He & Hm).
  assert (applied_shift v = 0) as Hk by (unfold applied_shift; by rewrite Hnib).
  rewrite Hk in HE, HM. change (2 ^ 0) with 1 in HM. rewrite Z.div_1_r in HM.
  assert (0 <= ibm_mantissa v < 2 ^ 52) as Hsmall.
  { unfold top_nibble in Hnib.
    change (2 ^ 56) with 72057594037927936 in Hm.
    change (2 ^ 52) with 4503599627370496 in *.
    Z.div_mod_to_equations. lia. }
  rewrite Z.mod_small in HM by exact Hsmall.
  split; [exact Hsmall |]. split; [exact HM |]. split; [rewrite HE; lia |].
  unfold double_normal_value. rewrite HE, Hs, HM.
  destruct (Z.leb_spec 1 ((ibm_exponent v - 65) * 4 + 0 + 1023)); [| lia].
  destruct (Z.leb_spec ((ibm_exponent v - 65) * 4 + 0 + 1023) 2046); [| lia].
  cbn [andb]. unfold ibm_signum, ibm_scale. do 2 f_equal. lia.
Qed.

Lemma IbmToIEEE_zero_nibble_witness :
  let raw := 0x4100000000000001 in
  let v := To_Machine_Endian_Raw big uint64_t raw in
  0 <= ibm_mantissa v < 2 ^ 52
  /\ double_fraction (IbmToIEEE big raw) = ibm_mantissa v
  /\ double_exponent (IbmToIEEE big raw) = (ibm_exponent v - 65) * 4 + 1023
  /\ double_normal_value (IbmToIEEE big raw)
     = Some (ibm_signum v * (2 ^ 52 + ibm_mantissa v), ibm_scale v).
Proof.
  apply (IbmToIEEE_zero_nibble big 0x4100000000000001).
  - vm_compute. split; [discriminate | reflexivity].
  - vm_compute. reflexivity.
Defined.

(** ** Trimming *)

Lemma drop_while_decompose {A} (p : A -> bool) l :
  exists pre, l = pre ++ drop_while p l /\ Forall (fun x => p x = true) pre.
Proof.
  induction l as [| x l (pre & Hl & Hpre)]; [by exists [] |].
  cbn [drop_while]. destruct (p x) eqn:E.
  - exists (x :: pre). split; [cbn; by f_equal | by constructor].
  - by exists [].
Qed.

Lemma drop_while_head {A} (p : A -> bool) l x r :
  drop_while p l = x :: r -> p x = false.
Proof.
  induction l as [| y l IH]; cbn [drop_while]; [discriminate |].
  destruct (p y) eqn:E; [exact IH | by intros [= -> _]].
Qed.

Lemma drop_while_all {A} (p : A -> bool) l :
  drop_while p l = [] <-> Forall (fun x => p x = true) l.
Proof.
  induction l as [| x l IH]; cbn [drop_while]; [by split; [constructor |] |].
  destruct (p x) eqn:E.
  - rewrite IH. split; [by constructor | by inversion 1].
  - split; [discriminate |]. inversion 1; congruence.
Qed.

Lemma drop_while_snoc {A} (p : A -> bool) l c :
  p c = false -> drop_while p (l ++ [c]) = drop_while p l ++ [c].
Proof.
  intros Hc. induction l as [| x l IH]; cbn [drop_while app]; [by rewrite Hc |].
  by destruct (p x).
Qed.

Lemma snoc_cases {A} (l : list A) : l = [] \/ exists l' x, l = l' ++ [x].
Proof. induction l as [| x l' _] using rev_ind; [by left | right; eauto]. Qed.

Section Trim.

Variables skipL skipR : byte -> bool.
Hypothesis Hsub : forall ch, skipL ch = true -> skipR ch = true.

Lemma erase_trailing_decompose s :
  exists post, s = erase_trailing skipR s ++ post /\ all_skipped skipR post.
Proof.
  unfold erase_trailing.
  destruct (drop_while_decompose skipR (rev s)) as (pre & Hs & Hpre).
  exists (rev pre). split.
  - rewrite <- rev_app_distr, <- Hs. by rewrite rev_involutive.
  - unfold all_skipped. apply Forall_forall. intros x Hx.
    apply in_rev in Hx. rewrite Forall_forall in Hpre. by apply Hpre.
Qed.

Lemma erase_trailing_last s r x :
  erase_trailing skipR s = r ++ [x] -> skipR x = false.
Proof.
  unfold erase_trailing. intros H.
  apply (f_equal (@rev byte)) in H. rewrite rev_involutive, rev_unit in H.
  by apply drop_while_head in H.
Qed.

Lemma erase_trailing_all s :
  erase_trailing skipR s = [] <-> all_skipped skipR s.
Proof.
  unfold erase_trailing, all_skipped. split.
  - intros H. apply (f_equal (@rev byte)) in H. rewrite rev_involutive in H.
    cbn in H. apply drop_while_all in H.
    apply Forall_forall. intros x Hx. rewrite Forall_forall in H.
    apply H. by apply in_rev in Hx.
  - intros H. assert (drop_while skipR (rev s) = []) as ->; [| reflexivity].
    apply drop_while_all. apply Forall_forall. intros x Hx.
    rewrite Forall_forall in H. apply H. by apply in_rev.
Qed.

(** What the two [erase] calls of [Char_To_String] and of
    [Get_From_Buffer] leave. *)
Lemma trim_spec s :
  let r := erase_leading skipL (erase_trailing skipR s) in
  (exists pre post,
     s = pre ++ r ++ post /\ all_skipped skipL pre /\ all_skipped skipR post)
  /\ trimmed skipL skipR r
  /\ (r = [] <-> all_skipped skipR s).
Proof.
  intros r. subst r. unfold erase_leading.
  destruct (erase_trailing_decompose s) as (post & Hs & Hpost).
  destruct (drop_while_decompose skipL (erase_trailing skipR s)) as (pre & Hs1 & Hpre).
  assert (forall r' x,
            drop_while skipL (erase_trailing skipR s) = r' ++ [x] -> skipR x = false)
    as Hlast.
  { intros r' x Hr.
    destruct (snoc_cases (erase_trailing skipR s)) as [E | (s1 & y & E)];
      rewrite E in Hr; [by destruct r' |].
    pose proof (erase_trailing_last _ _ _ E) as Hy.
    assert (skipL y = false) as HyL.
    { destruct (skipL y) eqn:EL; [| done]. apply Hsub in EL. congruence. }
    rewrite drop_while_snoc in Hr by exact HyL.
    apply app_inj_tail in Hr as [_ <-]. exact Hy. }
  split_and!.
  - exists pre, post. split; [| done]. rewrite app_assoc, <- Hs1. exact Hs.
  - split; [| exact Hlast]. intros x r' Hr. by apply drop_while_head in Hr.
  - split.
    + intros Hr. apply erase_trailing_all.
      destruct (snoc_cases (erase_trailing skipR s)) as [E | (s1 & y & E)];
        [exact E |].
      rewrite E in Hr. pose proof (erase_trailing_last _ _ _ E) as Hy.
      assert (skipL y = false) as HyL.
      { destruct (skipL y) eqn:EL; [| done]. apply Hsub in EL. congruence. }
      rewrite drop_while_snoc in Hr by exact HyL. by destruct (drop_while skipL s1).
    + intros Hall. apply erase_trailing_all in Hall. by rewrite Hall.
Qed.

(** A text that is trimmed already is left as it is. *)
Lemma trim_trimmed r :
  trimmed skipL skipR r ->
  erase_leading skipL (erase_trailing skipR r) = r.
Proof.
  intros [Hhead Hlast].
  assert (erase_trailing skipR r = r) as ->.
  { unfold erase_trailing. destruct (snoc_cases r) as [-> | (r0 & y & ->)]; [done |].
    rewrite rev_unit. cbn [drop_while].
    rewrite (Hlast r0 y eq_refl). by rewrite <- rev_unit, rev_involutive. }
  unfold erase_leading. destruct r as [| x r0]; [done |].
  cbn [drop_while]. by rewrite (Hhead x r0 eq_refl).
Qed.

End Trim.

(** X7.  [Char_To_String] cuts white space, and nothing else, from both
    ends of the character array: the array is the result between two runs
    of white space, the result neither starts nor ends with white space, and
    it is empty exactly when the array holds white space only. *)
Theorem Char_To_String_trims (ca : list byte) :
  (exists pre post,
     ca = pre ++ Char_To_String ca ++ post
     /\ all_skipped isspace pre /\ all_skipped isspace post)
  /\ trimmed isspace isspace (Char_To_String ca)
  /\ (Char_To_String ca = [] <-> all_skipped isspace ca).
Proof. apply (trim_spec isspace isspace). auto. Qed.

(** X8.  [Char_To_String] is idempotent, and a text that neither starts
    nor ends with white space comes out unchanged (inner white space is
    kept). *)
Theorem Char_To_String_idempotent (ca : list byte) :
  Char_To_String (Char_To_String ca) = Char_To_String ca
  /\ forall r, trimmed isspace isspace r -> Char_To_String r = r.
Proof.
  split.
  - apply trim_trimmed. apply (trim_spec isspace isspace). auto.
  - intros r Hr. by apply trim_trimmed.
Qed.

Lemma length_drop_while_le {A} (p : A -> bool) l :
  (length (drop_while p l) <= length l)%nat.
Proof. induction l as [| x l IH]; cbn; [lia |]. destruct (p x); cbn; lia. Qed.

Lemma length_cell_text bs : (length (cell_text bs) <= length bs)%nat.
Proof.
  unfold cell_text, erase_leading, erase_trailing.
  etrans; [apply length_drop_while_le |].
  rewrite length_rev. etrans; [apply length_drop_while_le |]. by rewrite length_rev.
Qed.

(** X9.  [Get_From_Buffer] for strings is defined exactly when the [len]
    bytes at the offset lie within the buffer.  It then cuts white space
    from the front of the cell, and white space and NUL characters from its
    end, and nothing else; the text does not start with white space and does
    not end with white space or NUL (a NUL at the front stays), it is empty
    exactly when the cell holds only white space and NULs, and it is never
    longer than [len]. *)
Theorem Get_From_Buffer_string_trims (buf : list byte) (offset len : Z) :
  0 <= offset -> 0 <= len ->
  (offset + len <= Z.of_nat (length buf) ->
   exists text,
     Get_From_Buffer_string buf offset len = Ret text
     /\ length (cell buf offset len) = Z.to_nat len
     /\ (exists pre post,
           cell buf offset len = pre ++ text ++ post
           /\ all_skipped isspace pre /\ all_skipped space_or_nul post)
     /\ trimmed isspace space_or_nul text
     /\ (text = [] <-> all_skipped space_or_nul (cell buf offset len))
     /\ Z.of_nat (length text) <= len)
  /\ (Z.of_nat (length buf) < offset + len ->
      Get_From_Buffer_string buf offset len = Undefined buffer_range_out_of_bounds).
Proof.
  intros Hoff Hlen. unfold Get_From_Buffer_string.
  destruct (Z.leb_spec (offset + len) (Z.of_nat (length buf))) as [Hle | Hgt];
    split; try lia; intros _; [| reflexivity].
  fold (cell buf offset len).
  assert (length (cell buf offset len) = Z.to_nat len) as Hcell
    by (unfold cell; rewrite length_take, length_drop; lia).
  eexists. split; [reflexivity |]. split; [exact Hcell |].
  pose proof (trim_spec isspace space_or_nul
                (fun ch H => proj2 (orb_true_iff _ _) (or_introl H))
                (cell buf offset len)) as (Hdec & Htrim & Hempty).
  split_and!; try assumption.
  pose proof (length_cell_text (cell buf offset len)) as Hl.
  unfold cell_text in Hl. lia.
Qed.

Lemma Get_From_Buffer_string_trims_witness :
  let buf := [x00; " "%byte; "A"%byte; " "%byte; x00; "B"%byte] in
  exists text,
    Get_From_Buffer_string buf 0 5 = Ret text
    /\ length (cell buf 0 5) = Z.to_nat 5
    /\ (exists pre post,
          cell buf 0 5 = pre ++ text ++ post
          /\ all_skipped isspace pre /\ all_skipped space_or_nul post)
    /\ trimmed isspace space_or_nul text
    /\ (text = [] <-> all_skipped space_or_nul (cell buf 0 5))
    /\ Z.of_nat (length text) <= 5.
Proof.
  apply (Get_From_Buffer_string_trims
           [x00; " "%byte; "A"%byte; " "%byte; x00; "B"%byte] 0 5);
    vm_compute; discriminate.
Defined.

(** X10.  [Recognize_Data_Header] depends on the 21 bytes of [namedesc]
    only and compares them as they are: it returns a header kind exactly
    when they are the signature text of that kind, and [None] exactly when
    they are none of the five texts. *)
Theorem Recognize_Data_Header_exact (gen : list byte) :
  (forall sig, sig <> Header_Signature.None ->
     (Recognize_Data_Header gen = sig <-> namedesc gen = expected_text sig))
  /\ (Recognize_Data_Header gen = Header_Signature.None
      <-> forall sig, sig <> Header_Signature.None -> namedesc gen <> expected_text sig)
  /\ (forall gen', namedesc gen' = namedesc gen ->
        Recognize_Data_Header gen' = Recognize_Data_Header gen).
Proof.
  assert (forall sig, sig <> Header_Signature.None ->
            (Recognize_Data_Header gen = sig <-> namedesc gen = expected_text sig))
    as Hsig.
  { intros sig Hne. unfold Recognize_Data_Header.
    rewrite <- (Signature_Map_find_spec _ _ Hne).
    destruct (Signature_Map_find _ _) as [s |]; split; intros H; congruence. }
  split; [exact Hsig |]. split.
  - split.
    + intros Hnone sig Hne Htext. apply Hsig in Htext; congruence.
    + intros Hall. destruct (Recognize_Data_Header gen) eqn:E; [reflexivity | ..].
      all: exfalso; unshelve refine (Hall _ _ (proj1 (Hsig _ _) eq_refl)); discriminate.
  - intros gen' Heq. unfold Recognize_Data_Header. by rewrite Heq.
Qed.

(** ** The stream operations *)

Lemma later_state_refl f : later_state f f.
Proof. unfold later_state. split_and!; done. Qed.

Lemma later_state_trans f g h : later_state f g -> later_state g h -> later_state f h.
Proof.
  intros (C1 & G1 & F1 & T1 & V1) (C2 & G2 & F2 & T2 & V2).
  unfold later_state. split_and!.
  - congruence.
  - lia.
  - auto.
  - by etrans.
  - by etrans.
Qed.

Lemma ifstream_read_later s n :
  let s' := snd (ifstream_read s n) in
  content s' = content s /\ (gpos s <= gpos s')%nat
  /\ (failbit s = true -> failbit s' = true).
Proof.
  cbn. split_and!; [done | lia |]. intros ->. done.
Qed.

Lemma Read_proceeds T padded : proceeds (eq CEOF_Exception) (Read T padded).
Proof.
  intros f. unfold Read, ifstream_read, set_mFile, bind, ret, lift. cbn.
  case_decide; cbn; (split; [| done]);
    (split_and!; cbn; [done | lia | by intros -> | by apply prefix_app_r | done]).
Qed.

Lemma Read_returns_length T padded f x f' :
  Read T padded f = (Ret x, f') -> length x = Layout.sizeof T.
Proof.
  intros H. apply Read_Ret_inv in H as ([Hf Hc] & -> & _).
  assert (Layout.sizeof T <= bytes_to_read T padded)%nat as Hle.
  { unfold bytes_to_read. destruct padded; [| lia]. destruct T; cbn; lia. }
  rewrite take_take, Nat.min_l by exact Hle.
  rewrite length_take, length_drop. lia.
Qed.

Lemma Read_bytes_proceeds n : proceeds (eq CEOF_Exception) (Read_bytes n).
Proof.
  intros f. unfold Read_bytes, ifstream_read, set_mFile, bind, ret, lift. cbn.
  case_decide; cbn; (split; [| done]);
    (split_and!; cbn; [done | lia | by intros -> | by apply prefix_app_r | done]).
Qed.

Lemma Read_Discard_proceeds {P} n : proceeds P (Read_Discard n).
Proof.
  intros f. unfold Read_Discard, ifstream_seekg_cur, set_mFile. cbn.
  split; [| done].
  destruct (failbit (mFile f)) eqn:E;
    (split_and!; cbn; [done | lia | by rewrite ?E | by apply prefix_app_r | done]).
Qed.

Lemma ret_proceeds {A P} (a : A) : proceeds P (ret a).
Proof. intros f. split; [apply later_state_refl | done]. Qed.

Lemma bind_proceeds {A B} (P : exception -> Prop) (m : M A) (k : A -> M B) :
  proceeds P m -> (forall a, proceeds P (k a)) -> proceeds P (bind m k).
Proof.
  intros Hm Hk f. specialize (Hm f). unfold bind.
  destruct (m f) as [[a | e | u] f1]; cbn [fst snd] in *; [| done | done].
  destruct Hm as [L1 _]. destruct (Hk a f1) as [L2 O2].
  split; [by eapply later_state_trans | done].
Qed.

Lemma proceeds_weaken {A} (P Q : exception -> Prop) (m : M A) :
  (forall e, P e -> Q e) -> proceeds P m -> proceeds Q m.
Proof.
  intros HPQ Hm f. destruct (Hm f) as [L O]. split; [done |].
  destruct (fst (m f)); cbn in *; auto.
Qed.

(** From a text of at most five characters [std::stoull] returns or
    throws [std::invalid_argument]: five digits cannot overflow. *)
Lemma stoull_short s :
  (length s <= 5)%nat -> returns_or_throws (eq invalid_argument) (stoull s).
Proof.
  intros H5. unfold stoull.
  set (s1 := drop_while isspace (take_while (fun ch => negb (is_nul ch)) s)).
  assert (length s1 <= length s)%nat as Hs1.
  { subst s1. etrans; [apply length_drop_while | apply length_take_while]. }
  set (split := match s1 with
                | [] => (false, [])
                | ch :: rest =>
                    if byte_to_Z ch =? 45 then (true, rest)
                    else if byte_to_Z ch =? 43 then (false, rest) else (false, s1)
                end).
  assert (length (snd split) <= length s1)%nat as Hs2.
  { subst split. destruct s1 as [| ch rest]; cbn; [lia |].
    repeat case_match; cbn; lia. }
  destruct split as [negative s2]. cbn [snd] in Hs2.
  pose proof (digits_value_range _ (Forall_take_while isdigit s2)) as Hv.
  pose proof (length_take_while isdigit s2) as Hlen.
  destruct (take_while isdigit s2) as [| d ds] eqn:Eds; [done |].
  rewrite <- Eds in *. clear Eds d ds.
  assert (digits_value (take_while isdigit s2) < 10 ^ 5) as Hsmall.
  { eapply Z.lt_le_trans; [apply Hv |]. apply Z.pow_le_mono_r; lia. }
  destruct (Z.leb_spec (2 ^ 64) (digits_value (take_while isdigit s2))); [| done].
  change (10 ^ 5) with 100000 in *. change (2 ^ 64) with 18446744073709551616 in *. lia.
Qed.

Section Proceeds.

Variable native : endian.

Lemma emplace_back_proceeds {P} v : proceeds P (emplace_back v).
Proof.
  intros f. split; [| done]. unfold emplace_back, later_state. cbn.
  split_and!; [done | lia | done | done | by apply prefix_app_r].
Qed.

Lemma set_mRecord_Len_proceeds {P} (n : File -> Z) :
  proceeds P (fun f => set_mRecord_Len (n f) f).
Proof. intros f. split; [| done]. unfold set_mRecord_Len, later_state. cbn. done. Qed.

Lemma read_namestrs_proceeds n : forall readCnt,
  proceeds (eq CEOF_Exception) (read_namestrs native n readCnt).
Proof.
  induction n as [| n IH]; intros readCnt; cbn [read_namestrs].
  - apply ret_proceeds.
  - apply bind_proceeds; [apply Read_proceeds | intros n1].
    apply bind_proceeds; [apply Read_proceeds | intros n2].
    apply bind_proceeds; [apply emplace_back_proceeds | intros _].
    apply bind_proceeds; [apply set_mRecord_Len_proceeds | intros _].
    apply IH.
Qed.

Lemma Read_Headers_proceeds : proceeds header_exception (Read_Headers native).
Proof.
  assert (forall T p, proceeds header_exception (Read T p)) as HR.
  { intros T p. eapply proceeds_weaken; [| apply Read_proceeds].
    intros e <-. by left. }
  unfold Read_Headers.
  repeat first
    [ apply ret_proceeds
    | apply bind_proceeds; [apply HR | intros ?]
    | case_decide ].
  apply bind_proceeds; [apply (set_mRecord_Len_proceeds (fun _ => 0)) | intros _].
  apply bind_proceeds.
  { intros f. split; [apply later_state_refl |]. cbn.
    match goal with |- context [stoull ?s] =>
      assert (returns_or_throws (eq invalid_argument) (stoull s)) as Hs
        by (apply stoull_short; unfold num2, member; rewrite length_take; lia);
      destruct (stoull s); cbn in *; [done | by right | done]
    end. }
  intros cnt.
  apply bind_proceeds.
  { eapply proceeds_weaken; [| apply read_namestrs_proceeds]. intros e <-. by left. }
  intros readCnt.
  apply bind_proceeds.
  { case_decide; [apply Read_Discard_proceeds | apply ret_proceeds]. }
  intros _.
  apply bind_proceeds; [apply HR | intros ?].
  case_decide; apply ret_proceeds.
Qed.

End Proceeds.

(** ** The stream operations: checked properties *)

(** X11.  A [Read<T, padded>] that throws found fewer bytes than it
    asked for; the exception is [CEOF_Exception], the table and the record
    length are untouched, and the stream is left failed.  From then on
    every [Read<T, padded>] and every [Read(target, n)] with n > 0 throws
    again without moving the stream, and [Read_Discard] leaves the stream
    as it is. *)
Theorem Read_failure_is_sticky (T : Layout.t) (padded : bool) (f f' : File)
    (e : exception) :
  Read T padded f = (Throw e, f') ->
  e = CEOF_Exception
  /\ ¬ can_read (mFile f) (bytes_to_read T padded)
  /\ failbit (mFile f') = true
  /\ mVariables f' = mVariables f
  /\ mRecord_Len f' = mRecord_Len f
  /\ (forall T' padded',
        fst (Read T' padded' f') = Throw CEOF_Exception
        /\ gpos (mFile (snd (Read T' padded' f'))) = gpos (mFile f')
        /\ failbit (mFile (snd (Read T' padded' f'))) = true)
  /\ (forall n, 0 < n ->
        fst (Read_bytes n f') = Throw CEOF_Exception
        /\ gpos (mFile (snd (Read_bytes n f'))) = gpos (mFile f')
        /\ failbit (mFile (snd (Read_bytes n f'))) = true)
  /\ (forall n, mFile (snd (Read_Discard n f')) = mFile f').
Proof.
  intros H.
  destruct (decide (can_read (mFile f) (bytes_to_read T padded))) as [Hc | Hn].
  { rewrite Read_ok in H by exact Hc. discriminate. }
  destruct (Read_short T padded f Hn) as (got & s & Hgot & Hs & Heq).
  rewrite Heq in H. injection H as <- <-. cbn [mFile mVariables mRecord_Len].
  split_and!; [done | done | done | done | done | | |].
  - intros T' padded'.
    unfold Read, ifstream_read, available, set_mFile, bind, ret, lift.
    cbn [mFile content gpos failbit gcount]. rewrite Hs. cbn.
    pose proof (bytes_to_read_pos T' padded') as Hpos. unfold bytes_to_read in Hpos.
    rewrite take_nil. cbn [length].
    rewrite decide_False by lia. cbn. split_and!; [done | lia | done].
  - intros n Hn'.
    unfold Read_bytes, ifstream_read, available, set_mFile, bind, ret, lift.
    cbn [mFile content gpos failbit gcount]. rewrite Hs. cbn.
    rewrite take_nil. cbn [length].
    rewrite decide_False by lia. cbn. split_and!; [done | lia | done].
  - intros n. unfold Read_Discard, ifstream_seekg_cur, set_mFile.
    cbn [mFile snd]. by rewrite Hs.
Qed.

Lemma Read_failure_is_sticky_witness :
  let f := File_opened (bytes_of "HEADER RECORD") in
  let r := Read Layout.Data_Header_Generic true f in
  r = (Throw CEOF_Exception, snd r)
  /\ forall n, mFile (snd (Read_Discard n (snd r))) = mFile (snd r).
Proof.
  intros f r. split; [reflexivity |].
  apply (Read_failure_is_sticky Layout.Data_Header_Generic true f (snd r)
           CEOF_Exception).
  reflexivity.
Defined.

(** X12.  A [Read<T, padded>] that returns gives the [sizeof(T)] bytes at
    the position of the stream, whatever the padding; the stream has moved
    by 80 bytes if padded and by [sizeof(T)] bytes if not, and no struct
    of the format is larger than the 80 bytes of a padded read. *)
Theorem Read_returns_struct (T : Layout.t) (padded : bool) (f f' : File)
    (x : list byte) :
  Read T padded f = (Ret x, f') ->
  x = take (Layout.sizeof T) (drop (gpos (mFile f)) (content (mFile f)))
  /\ length x = Layout.sizeof T
  /\ (Layout.sizeof T <= 80)%nat
  /\ gpos (mFile f') = (gpos (mFile f) + if padded then 80 else Layout.sizeof T)%nat
  /\ failbit (mFile f') = false
  /\ mVariables f' = mVariables f
  /\ mRecord_Len f' = mRecord_Len f.
Proof.
  intros H. apply Read_Ret_inv in H as ([Hf Hc] & -> & ->).
  assert (Layout.sizeof T <= bytes_to_read T padded)%nat as Hle.
  { unfold bytes_to_read. destruct padded; [| lia]. destruct T; cbn; lia. }
  rewrite take_take, Nat.min_l by exact Hle.
  split_and!; try done.
  - rewrite length_take, length_drop. lia.
  - destruct T; cbn; lia.
Qed.

Lemma Read_returns_struct_witness :
  let f := File_opened (Fixture.file Fixture.good) in
  let r := Read Layout.Data_Header_Generic true f in
  exists x, fst r = Ret x /\ length x = 78%nat /\ gpos (mFile (snd r)) = 80%nat.
Proof.
  intros f r.
  destruct (Read_returns_struct Layout.Data_Header_Generic true f (snd r)
              (take 78 (Fixture.file Fixture.good)))
    as (_ & Hlen & _ & Hpos & _); [vm_compute; reflexivity |].
  eexists. split_and!; [vm_compute; reflexivity | exact Hlen | exact Hpos].
Defined.

(** X13.  [Read_Headers] makes no access the language leaves undefined,
    and the only exceptions that leave it are [CEOF_Exception] (the file
    ended) and [std::invalid_argument] (the descriptor count is not a
    number): the five characters of the count cannot overflow
    [std::stoull]. *)
Theorem Read_Headers_exceptions (native : endian) (f : File) :
  (forall u, fst (Read_Headers native f) <> Undefined u)
  /\ (forall e, fst (Read_Headers native f) = Throw e ->
        e = CEOF_Exception \/ e = invalid_argument).
Proof.
  destruct (Read_Headers_proceeds native f) as [_ H].
  destruct (fst (Read_Headers native f)); cbn in H; split; try done.
  intros e' [= <-]. exact H.
Qed.

(** X14.  Whatever its outcome, [Read_Headers] leaves a later state of
    the session: the stream is on the same bytes and has not moved back, a
    failed stream stays failed, and the descriptors the table held are
    still there, in front of any that were added. *)
Theorem Read_Headers_later_state (native : endian) (f : File) :
  let f' := snd (Read_Headers native f) in
  content (mFile f') = content (mFile f)
  /\ (gpos (mFile f) <= gpos (mFile f'))%nat
  /\ (failbit (mFile f) = true -> failbit (mFile f') = true)
  /\ (exists evs, trace f' = trace f ++ evs)
  /\ (exists vars, mVariables f' = mVariables f ++ vars).
Proof.
  destruct (Read_Headers_proceeds native f) as [H _]. exact H.
Qed.

(** ** Reading rows: the stream *)

Lemma after_Read_bytes_row f :
  0 <= mRecord_Len f <= Z.of_nat (remaining (mFile f)) ->
  let n := Z.to_nat (mRecord_Len f) in
  after_Read_bytes f (mRecord_Len f)
  = {| mFile := {| content := content (mFile f);
                   gpos := (gpos (mFile f) + n)%nat;
                   failbit := failbit (mFile f);
                   gcount := n |};
       mVariables := mVariables f;
       mRecord_Len := mRecord_Len f;
       trace := trace f ++ [ev_Read_bytes (gpos (mFile f)) n n] |}.
Proof.
  intros H n. cbv beta zeta iota delta [after_Read_bytes ifstream_read fst snd]. fold n.
  unfold remaining in H.
  assert (length (take n (available (mFile f))) = n) as ->.
  { rewrite length_take. lia. }
  rewrite Nat.ltb_irrefl, orb_false_r. reflexivity.
Qed.

Lemma after_Read_bytes_short f :
  Z.of_nat (remaining (mFile f)) < mRecord_Len f ->
  let n := Z.to_nat (mRecord_Len f) in
  let got := remaining (mFile f) in
  after_Read_bytes f (mRecord_Len f)
  = {| mFile := {| content := content (mFile f);
                   gpos := (gpos (mFile f) + got)%nat;
                   failbit := true;
                   gcount := got |};
       mVariables := mVariables f;
       mRecord_Len := mRecord_Len f;
       trace := trace f ++ [ev_Read_bytes (gpos (mFile f)) n got] |}.
Proof.
  intros H n got. cbv beta zeta iota delta [after_Read_bytes ifstream_read fst snd]. fold n.
  unfold remaining in *.
  assert (length (take n (available (mFile f))) = got) as ->.
  { rewrite length_take. subst got n. unfold remaining. lia. }
  assert ((got <? n)%nat = true) as ->.
  { apply Nat.ltb_lt. subst got n. unfold remaining. lia. }
  rewrite orb_true_r. reflexivity.
Qed.

(** X15.  When the stream can deliver a row, both forms of [Read_Next]
    take exactly [mRecord_Len] bytes from it before any cell is decoded,
    and that is all they do to the session: whatever the decoding ends in
    (a row, an exception of a conversion, an access out of range), the
    stream stands behind the row, and the table and the record length are
    as they were. *)
Theorem Read_Next_consumes_row (native : endian) (stod : list byte -> conversion)
    (to_string : double -> list byte) (target : list TValue)
    (arg : TValue) (args : list TValue) (f : File) :
  0 <= mRecord_Len f <= Z.of_nat (remaining (mFile f)) ->
  let f1 := snd (Read_Next native target f) in
  let f2 := snd (Read_Next_args native stod to_string arg args f) in
  let n := Z.to_nat (mRecord_Len f) in
  f2 = f1
  /\ content (mFile f1) = content (mFile f)
  /\ gpos (mFile f1) = (gpos (mFile f) + n)%nat
  /\ failbit (mFile f1) = failbit (mFile f)
  /\ mVariables f1 = mVariables f
  /\ mRecord_Len f1 = mRecord_Len f
  /\ trace f1 = trace f ++ [ev_Read_bytes (gpos (mFile f)) n n].
Proof.
  intros H f1 f2 n. subst f1 f2.
  rewrite Read_Next_eq, Read_Next_args_eq. cbn [snd].
  rewrite after_Read_bytes_row by exact H. cbn. done.
Qed.

Lemma Read_Next_consumes_row_witness :
  let f := Fixture.session little (Fixture.file Fixture.good) in
  0 <= mRecord_Len f <= Z.of_nat (remaining (mFile f))
  /\ snd (Read_Next_args little Fixture.stod Fixture.to_string
            (TDouble (bit_cast_double 0)) [] f)
     = snd (Read_Next little [] f).
Proof.
  intros f. split; [by_computation |].
  apply (Read_Next_consumes_row little Fixture.stod Fixture.to_string []
           (TDouble (bit_cast_double 0)) [] f).
  by_computation.
Defined.

(** X16.  Once [Read_Next] has returned false, the stream is failed, the
    bytes of an incomplete row are consumed, and the target holds as many
    entries as the table, kept or value-initialised; every later
    [Read_Next] returns false again and changes nothing but the log. *)
Theorem Read_Next_end_is_final (native : endian) (target target2 : list TValue)
    (f f' : File) (t : list TValue) :
  0 <= mRecord_Len f ->
  Read_Next native target f = (Ret (false, t), f') ->
  t = resize (length (mVariables f)) TValue_default target
  /\ failbit (mFile f') = true
  /\ gpos (mFile f') = (gpos (mFile f) + remaining (mFile f))%nat
  /\ let r := Read_Next native target2 f' in
     fst r = Ret (false, resize (length (mVariables f)) TValue_default target2)
     /\ mFile (snd r) = {| content := content (mFile f');
                           gpos := gpos (mFile f');
                           failbit := true;
                           gcount := 0 |}
     /\ mVariables (snd r) = mVariables f
     /\ mRecord_Len (snd r) = mRecord_Len f.
Proof.
  intros H0 H. rewrite Read_Next_eq in H.
  destruct (decide (0 <= mRecord_Len f <= Z.of_nat (remaining (mFile f)))) as [Hy | Hn].
  { destruct (fill_target _ _ _ _ _ _); discriminate. }
  injection H as <- <-.
  rewrite after_Read_bytes_short by lia. cbn [mFile gpos failbit content].
  split; [done |]. split; [done |]. split; [done |].
  cbv zeta. rewrite Read_Next_eq. cbn [fst snd mVariables mRecord_Len mFile].
  rewrite decide_False.
  2:{ unfold remaining, available. cbn. lia. }
  split_and!; [done | | done | done].
  unfold after_Read_bytes, ifstream_read, available. cbn.
  rewrite take_nil. cbn. f_equal. lia.
Qed.

Lemma Read_Next_end_is_final_witness :
  let f := snd (Read_Next little []
                  (Fixture.session little Fixture.truncated_file)) in
  let r := Read_Next little [] f in
  0 <= mRecord_Len f
  /\ fst r = Ret (false, [TValue_default; TValue_default])
  /\ failbit (mFile (snd r)) = true.
Proof.
  intros f r. split; [by_computation |]. split; [by_computation |].
  apply (Read_Next_end_is_final little [] [] f (snd r)
           [TValue_default; TValue_default]); by_computation.
Defined.

(** X17.  With a record length of zero (a member without variables)
    [Read_Next] never returns false, not even on a failed or exhausted
    stream: the read of zero bytes always succeeds.  The stream does not
    move, so the same holds for every later call, and with an empty table
    each call returns true with an empty row. *)
Theorem Read_Next_empty_row_never_ends (native : endian) (target : list TValue)
    (f : File) :
  mRecord_Len f = 0 ->
  let r := Read_Next native target f in
  (forall t, fst r <> Ret (false, t))
  /\ (mVariables f = [] -> fst r = Ret (true, []))
  /\ gpos (mFile (snd r)) = gpos (mFile f)
  /\ failbit (mFile (snd r)) = failbit (mFile f)
  /\ mVariables (snd r) = mVariables f
  /\ mRecord_Len (snd r) = 0.
Proof.
  intros H0 r. subst r. rewrite Read_Next_eq. cbn [fst snd].
  assert (0 <= mRecord_Len f <= Z.of_nat (remaining (mFile f))) as Hy by lia.
  rewrite decide_True by exact Hy.
  rewrite after_Read_bytes_row by exact Hy. cbn [mFile gpos failbit mVariables mRecord_Len].
  rewrite H0. split_and!; [| | cbn; lia | done | done | done].
  - intros t. destruct (fill_target _ _ _ _ _ _); discriminate.
  - intros ->. cbn [length]. by rewrite resize_0.
Qed.

Lemma Read_Next_empty_row_never_ends_witness :
  let f := File_opened [] in
  mRecord_Len f = 0
  /\ fst (Read_Next little [] f) = Ret (true, [])
  /\ fst (Read_Next little [] (snd (Read_Next little [] f))) = Ret (true, []).
Proof.
  intros f. split; [reflexivity |]. split.
  - apply (Read_Next_empty_row_never_ends little [] f); reflexivity.
  - reflexivity.
Defined.

(** ** Reading rows: the cells *)

Section Cells.

Variable native : endian.

(** The loop of the positional decoder, cell by cell, in the terms of
    the two extraction functions. *)
Lemma fill_target_cells vars data : forall n i target row,
  fill_target native vars data n i target = Ret row ->
  (i + n)%nat = length vars ->
  length target = length vars ->
  length row = length vars
  /\ (forall j, (j < i)%nat -> row !! j = target !! j)
  /\ (forall j v, (i <= j)%nat -> vars !! j = Some v ->
        match type v with
        | NVar_Type.Numeric =>
            exists x, Get_From_Buffer native uint64_t data (position v) = Ret x
                      /\ row !! j = Some (TDouble (IbmToIEEE native x))
        | NVar_Type.String =>
            exists s, Get_From_Buffer_string data (position v) (length_ v) = Ret s
                      /\ row !! j = Some (TString s)
        | NVar_Type.Other _ => row !! j = target !! j
        end).
Proof.
  induction n as [| n IH]; intros i target row H Hin Hlen.
  - cbn in H. injection H as <-. split_and!; [done | done |].
    intros j v Hj Hv. apply lookup_lt_Some in Hv. lia.
  - cbn [fill_target] in H.
    destruct (vars !! i) as [mvar |] eqn:Hi; [| discriminate].
    assert (forall target1,
              length target1 = length vars ->
              (forall j, j <> i -> target1 !! j = target !! j) ->
              fill_target native vars data n (S i) target1 = Ret row ->
              length row = length vars
              /\ (forall j, (j < i)%nat -> row !! j = target !! j)
              /\ row !! i = target1 !! i
              /\ (forall j v, (S i <= j)%nat -> vars !! j = Some v ->
                    match type v with
                    | NVar_Type.Numeric =>
                        exists x, Get_From_Buffer native uint64_t data (position v) = Ret x
                                  /\ row !! j = Some (TDouble (IbmToIEEE native x))
                    | NVar_Type.String =>
                        exists s, Get_From_Buffer_string data (position v) (length_ v) = Ret s
                                  /\ row !! j = Some (TString s)
                    | NVar_Type.Other _ => row !! j = target !! j
                    end)) as Hrest.
    { intros target1 L1 Hsame H1.
      apply IH in H1 as (Lr & Hkeep & Hnew); [| lia | exact L1].
      split_and!; [exact Lr | | apply Hkeep; lia |].
      - intros j Hj. rewrite Hkeep by lia. apply Hsame. lia.
      - intros j v Hj Hv. specialize (Hnew j v Hj Hv).
        destruct (type v); [done | done |]. rewrite Hnew. apply Hsame. lia. }
    assert (forall w target1,
              target1 = <[i := w]> target ->
              length target1 = length vars
              /\ (forall j, j <> i -> target1 !! j = target !! j)
              /\ target1 !! i = Some w) as Hins.
    { intros w target1 ->. rewrite length_insert. split_and!; [done | |].
      - intros j Hj. by apply list_lookup_insert_ne.
      - apply list_lookup_insert_eq. apply lookup_lt_Some in Hi. lia. }
    destruct (type mvar) eqn:Hty.
    + destruct (Get_From_Buffer native uint64_t data (position mvar)) as [x | |] eqn:Hx;
        cbn [outcome_bind] in H; try discriminate.
      destruct (Hins (TDouble (IbmToIEEE native x)) _ eq_refl) as (L1 & Hsame & Hw).
      apply (Hrest _ L1 Hsame) in H as (Lr & Hkeep & Hi' & Hnew).
      split_and!; [done | done |].
      intros j v Hj Hv. destruct (decide (j = i)) as [-> | Hne].
      * rewrite Hi in Hv. injection Hv as <-. rewrite Hty.
        exists x. split; [done |]. by rewrite Hi'.
      * apply Hnew; [lia | done].
    + destruct (Get_From_Buffer_string data (position mvar) (length_ mvar))
        as [s | |] eqn:Hs; cbn [outcome_bind] in H; try discriminate.
      destruct (Hins (TString s) _ eq_refl) as (L1 & Hsame & Hw).
      apply (Hrest _ L1 Hsame) in H as (Lr & Hkeep & Hi' & Hnew).
      split_and!; [done | done |].
      intros j v Hj Hv. destruct (decide (j = i)) as [-> | Hne].
      * rewrite Hi in Hv. injection Hv as <-. rewrite Hty.
        exists s. split; [done |]. by rewrite Hi'.
      * apply Hnew; [lia | done].
    + apply (Hrest _ Hlen (fun _ _ => eq_refl)) in H as (Lr & Hkeep & Hi' & Hnew).
      split_and!; [done | done |].
      intros j v Hj Hv. destruct (decide (j = i)) as [-> | Hne].
      * rewrite Hi in Hv. injection Hv as <-. by rewrite Hty.
      * apply Hnew; [lia | done].
Qed.

(** The loop of the positional decoder ends in a row when every
    extraction lies in the buffer, and in an access past the buffer
    otherwise. *)
Lemma fill_target_outcome vars data : forall n i target,
  (i + n)%nat = length vars ->
  (Forall (extraction_in_row (Z.of_nat (length data))) (drop i vars) ->
   exists row, fill_target native vars data n i target = Ret row)
  /\ (¬ Forall (extraction_in_row (Z.of_nat (length data))) (drop i vars) ->
      fill_target native vars data n i target = Undefined buffer_range_out_of_bounds).
Proof.
  induction n as [| n IH]; intros i target Hin.
  - rewrite drop_ge by lia. cbn. split; [eauto |]. intros H. by destruct H.
  - destruct (lookup_lt_is_Some_2 vars i) as [mvar Hi]; [lia |].
    rewrite (drop_S _ _ _ Hi). cbn [fill_target]. rewrite Hi.
    assert (forall target1,
              (extraction_in_row (Z.of_nat (length data)) mvar ->
               Forall (extraction_in_row (Z.of_nat (length data))) (drop (S i) vars) ->
               exists row, fill_target native vars data n (S i) target1 = Ret row)
              /\ (extraction_in_row (Z.of_nat (length data)) mvar ->
                  ¬ Forall (extraction_in_row (Z.of_nat (length data))) (mvar :: drop (S i) vars) ->
                  fill_target native vars data n (S i) target1
                  = Undefined buffer_range_out_of_bounds)) as Hrest.
    { intros target1. destruct (IH (S i) target1) as [IH1 IH2]; [lia |].
      split; [auto |]. intros Hm Hn. apply IH2. intros HF. apply Hn. by constructor. }
    split.
    + intros HF0. pose proof (Forall_inv HF0) as Hm.
      pose proof (Forall_inv_tail HF0) as HF. clear HF0.
      pose proof Hm as Hm'. unfold extraction_in_row in Hm'.
      destruct (type mvar) eqn:Hty.
      * unfold Get_From_Buffer. cbn [sizeof_integral].
        rewrite (proj2 (Z.leb_le _ _)) by lia. cbn [outcome_bind].
        apply Hrest; done.
      * unfold Get_From_Buffer_string.
        rewrite (proj2 (Z.leb_le _ _)) by lia. cbn [outcome_bind].
        apply Hrest; done.
      * apply Hrest; done.
    + intros Hn.
      destruct (type mvar) eqn:Hty.
      * unfold Get_From_Buffer. cbn [sizeof_integral].
        destruct (Z.leb_spec (position mvar + Z.of_nat 8) (Z.of_nat (length data)));
          cbn [outcome_bind]; [| done].
        apply Hrest; [unfold extraction_in_row; rewrite Hty; lia | done].
      * unfold Get_From_Buffer_string.
        destruct (Z.leb_spec (position mvar + length_ mvar) (Z.of_nat (length data)));
          cbn [outcome_bind]; [| done].
        apply Hrest; [unfold extraction_in_row; rewrite Hty; lia | done].
      * apply Hrest; [unfold extraction_in_row; by rewrite Hty | done].
Qed.

End Cells.

(** ** Reading rows: checked properties of the positional decoder *)

(** X18.  When the stream delivers a row, the positional [Read_Next]
    returns it exactly when the bytes of every descriptor lie within the
    [mRecord_Len] bytes of the row, where a numeric variable takes eight
    bytes from its offset whatever length the descriptor declares;
    otherwise a copy reads past the end of the row buffer.  The table is
    never indexed out of range. *)
Theorem Read_Next_succeeds_iff (native : endian) (target : list TValue) (f : File) :
  0 <= mRecord_Len f <= Z.of_nat (remaining (mFile f)) ->
  let r := fst (Read_Next native target f) in
  let fits := Forall (extraction_in_row (mRecord_Len f)) (mVariables f) in
  ((exists row, r = Ret (true, row)) <-> fits)
  /\ (r = Undefined buffer_range_out_of_bounds <-> ¬ fits)
  /\ r <> Undefined vector_index_out_of_range.
Proof.
  intros Hrow r fits. subst r fits. rewrite Read_Next_eq. cbn [fst].
  rewrite decide_True by exact Hrow.
  rewrite <- (length_row_buffer f Hrow).
  set (vars := mVariables f). set (data := row_buffer f).
  set (t0 := resize (length vars) TValue_default target).
  destruct (fill_target_outcome native vars data (length vars) 0 t0 eq_refl) as [Hy Hn].
  rewrite drop_0 in Hy, Hn.
  destruct (decide (Forall (extraction_in_row (Z.of_nat (length data))) vars)) as [HF | HF].
  - destruct (Hy HF) as [row ->]. split_and!; [| | done].
    + split; [done | eauto].
    + split; [done | done].
  - rewrite (Hn HF). split_and!; [| | done].
    + split; [intros [row Hr]; discriminate | done].
    + split; [done | done].
Qed.

Lemma Read_Next_succeeds_iff_witness :
  let f := Fixture.session little (Fixture.file Fixture.good) in
  0 <= mRecord_Len f <= Z.of_nat (remaining (mFile f))
  /\ Forall (extraction_in_row (mRecord_Len f)) (mVariables f).
Proof.
  intros f. assert (0 <= mRecord_Len f <= Z.of_nat (remaining (mFile f))) as H
    by by_computation.
  split; [exact H |].
  apply (Read_Next_succeeds_iff little [] f H).
  eexists. by_computation.
Defined.

(** X19.  For a descriptor whose type code is neither numeric nor
    character the positional [Read_Next] stores nothing: after a
    successful call the entry of the target vector is the one the caller
    passed in (a value of an earlier row, if the vector is reused), or a
    value-initialised one if the vector was shorter. *)
Theorem Read_Next_unknown_type_keeps_entry (native : endian)
    (target row : list TValue) (f f' : File) (i : nat) (v : Variable_Record)
    (code : Z) :
  Read_Next native target f = (Ret (true, row), f') ->
  mVariables f !! i = Some v ->
  type v = NVar_Type.Other code ->
  row !! i = Some (default TValue_default (target !! i)).
Proof.
  intros H Hv Hty. rewrite Read_Next_eq in H. case_decide; [| discriminate].
  destruct (fill_target _ _ _ _ _ _) as [row' | |] eqn:E; try discriminate.
  injection H as <- <-.
  apply fill_target_cells in E as (_ & _ & Hcells); [| done | by rewrite length_resize].
  specialize (Hcells i v (Nat.le_0_l _) Hv). rewrite Hty in Hcells. rewrite Hcells.
  pose proof (lookup_lt_Some _ _ _ Hv) as Hi.
  destruct (target !! i) as [w |] eqn:Ht; cbn [default].
  - pose proof (lookup_lt_Some _ _ _ Ht) as Hi'. cbn.
    rewrite lookup_resize; [exact Ht | lia ..].
  - pose proof (proj1 (lookup_ge_None _ _) Ht) as Hi'.
    apply lookup_resize_new; lia.
Qed.

Lemma Read_Next_unknown_type_keeps_entry_witness :
  let f := Fixture.session little Examples.unknown_type_file in
  let stale := TDouble (bit_cast_double 0x3FF0000000000000) in
  exists row v f',
    Read_Next little [stale] f = (Ret (true, row), f')
    /\ mVariables f !! 0%nat = Some v
    /\ type v = NVar_Type.Other 3
    /\ row !! 0%nat = Some stale.
Proof.
  intros f stale.
  assert (exists v, mVariables f !! 0%nat = Some v /\ type v = NVar_Type.Other 3)
    as (v & Hv & Hty).
  { eexists. split; by_computation. }
  assert (Read_Next little [stale] f
          = (Ret (true, [stale; TString (bytes_of "abcd")]),
             snd (Read_Next little [stale] f))) as Hr by by_computation.
  eexists _, v, _. split_and!; [exact Hr | exact Hv | exact Hty |].
  apply (Read_Next_unknown_type_keeps_entry little [stale] _ f _ 0 v 3 Hr Hv Hty).
Defined.

(** ** The two decoders compared *)

Section Agreement.

Variable native : endian.
Variable stod : list byte -> conversion.
Variable to_string : double -> list byte.
Variable vars : list Variable_Record.
Variable data : list byte.

Lemma fetch_from_all (row : list TValue) slots : forall i,
  (forall k a, slots !! k = Some a ->
     exists w, Fetch_Column_Idx native stod to_string vars data (Z.of_nat (i + k)) a = Ret w
               /\ row !! (i + k)%nat = Some w) ->
  fetch_from native stod to_string vars data i slots
  = (take (length slots) (drop i row), Ret tt).
Proof.
  induction slots as [| a slots IH]; intros i H; cbn [fetch_from length].
  - by rewrite take_0.
  - destruct (H 0%nat a eq_refl) as (w & Hw & Hrow). rewrite Nat.add_0_r in Hw, Hrow.
    rewrite Hw. rewrite IH.
    + by rewrite (drop_S _ _ _ Hrow).
    + intros k b Hk. destruct (H (S k) b Hk) as (w' & Hw' & Hrow').
      exists w'. by replace (S i + k)%nat with (i + S k)%nat by lia.
Qed.

End Agreement.

(** X20.  When every parameter of the coerced [Read_Next] has the type
    of its column (a double for a numeric variable, a string for a
    character variable), the call stores in the parameters what the
    positional [Read_Next] returns for the same row in the first entries of
    its vector, and leaves the session in the same state; no conversion
    function is called. *)
Theorem Read_Next_args_agrees (native : endian) (stod : list byte -> conversion)
    (to_string : double -> list byte) (target : list TValue)
    (arg : TValue) (args : list TValue) (f f' : File) (row : list TValue) :
  let slots := arg :: args in
  Z.of_nat (length slots) < 2 ^ 64 ->
  Forall2 slot_matches slots (take (length slots) (mVariables f)) ->
  Read_Next native target f = (Ret (true, row), f') ->
  Read_Next_args native stod to_string arg args f
  = ((take (length slots) row, Ret true), f').
Proof.
  intros slots HN Hmatch H.
  rewrite Read_Next_eq in H. rewrite Read_Next_args_eq.
  case_decide; [| discriminate].
  destruct (fill_target _ _ _ _ _ _) as [row' | |] eqn:E; try discriminate.
  injection H as <- <-.
  apply fill_target_cells in E as (_ & _ & Hcells); [| done | by rewrite length_resize].
  change (Z.of_nat (length (arg :: args)))
    with (Z.of_nat (0 + length (arg :: args))).
  rewrite Fetch_Column_fetch_from by exact HN.
  rewrite (fetch_from_all native stod to_string _ _ row').
  { by rewrite drop_0. }
  intros k a Hk. cbn [Nat.add].
  destruct (Forall2_lookup_l _ _ _ _ _ Hmatch Hk) as (v & Hv & Hm).
  apply lookup_take_Some in Hv as [Hv _].
  specialize (Hcells k v (Nat.le_0_l _) Hv).
  unfold Fetch_Column_Idx. rewrite Nat2Z.id, Hv.
  unfold slot_matches in Hm.
  destruct a as [s0 | d0], (type v); try done.
  - destruct Hcells as (s & -> & Hrow). eauto.
  - destruct Hcells as (x & -> & Hrow). eauto.
Qed.

Lemma Read_Next_args_agrees_witness :
  let f := Fixture.session little (Fixture.file Fixture.good) in
  let r := Read_Next little [] f in
  exists row,
    fst r = Ret (true, row)
    /\ Read_Next_args little Fixture.stod Fixture.to_string
         (TDouble (bit_cast_double 0)) [TString []] f
       = ((take 2 row, Ret true), snd r).
Proof.
  intros f r.
  assert (r = (Ret (true, [TDouble (bit_cast_double 0x3FF0000000000000);
                           TString (bytes_of "42.5")]), snd r)) as Hr
    by by_computation.
  assert (Forall2 slot_matches [TDouble (bit_cast_double 0); TString []]
            (take 2 (mVariables f))) as HM.
  { vm_compute. repeat constructor. }
  eexists. split; [rewrite Hr; reflexivity |].
  apply (Read_Next_args_agrees little Fixture.stod Fixture.to_string []
           (TDouble (bit_cast_double 0)) [TString []] f (snd r) _);
    [by_computation | exact HM | exact Hr].
Defined.

(** ** Independence of the host byte order *)

Lemma Variable_Record_of_big native n1 n2 :
  length n1 = 80%nat -> length n2 = 60%nat ->
  Variable_Record_of native n1 n2 = Variable_Record_of big n1 n2.
Proof.
  intros H1 H2. unfold Variable_Record_of, member_to_size_t.
  assert (forall o, (o + 2 <= 80)%nat -> length (member o 2 n1) = 2%nat) as L2.
  { intros o Ho. unfold member. rewrite length_take, length_drop. lia. }
  assert (length (npos n2) = 4%nat) as L4.
  { unfold npos, member. rewrite length_take, length_drop. lia. }
  rewrite !(To_Machine_Endian_Raw_value native uint16_t) by (apply L2; lia).
  rewrite !(To_Machine_Endian_Raw_value big uint16_t) by (apply L2; lia).
  rewrite (To_Machine_Endian_Raw_value native int32_t) by exact L4.
  rewrite (To_Machine_Endian_Raw_value big int32_t) by exact L4.
  reflexivity.
Qed.

Lemma member_to_size_t_big native n1 :
  length n1 = 80%nat ->
  member_to_size_t native uint16_t (nlng n1) = member_to_size_t big uint16_t (nlng n1).
Proof.
  intros H1. unfold member_to_size_t.
  assert (length (nlng n1) = 2%nat) as L2.
  { unfold nlng, member. rewrite length_take, length_drop. lia. }
  by rewrite !To_Machine_Endian_Raw_value by exact L2.
Qed.

Lemma bind_ext {A B} (m : M A) (k1 k2 : A -> M B) f :
  (forall a f', m f = (Ret a, f') -> k1 a f' = k2 a f') ->
  bind m k1 f = bind m k2 f.
Proof.
  intros H. unfold bind. destruct (m f) as [[a | e | u] f'] eqn:E; [| done | done].
  by apply H.
Qed.

Lemma read_namestrs_big native n : forall readCnt f,
  read_namestrs native n readCnt f = read_namestrs big n readCnt f.
Proof.
  induction n as [| n IH]; intros readCnt f; cbn [read_namestrs]; [done |].
  apply bind_ext. intros n1 f1 E1.
  apply Read_returns_length in E1 as L1.
  apply bind_ext. intros n2 f2 E2.
  apply Read_returns_length in E2 as L2.
  rewrite (Variable_Record_of_big native n1 n2 L1 L2).
  rewrite (member_to_size_t_big native n1 L1).
  apply bind_ext. intros [] f3 _.
  apply bind_ext. intros [] f4 _.
  apply IH.
Qed.

(** X21.  [Read_Headers] does the same on a little-endian and on a
    big-endian host: the same outcome, the same table and record length,
    the same stream state. *)
Theorem Read_Headers_host_independent (native : endian) (f : File) :
  Read_Headers native f = Read_Headers big f.
Proof.
  unfold Read_Headers.
  repeat first
    [ apply bind_ext; intros ? ? _
    | case_decide; [reflexivity |] ].
  unfold bind at 1 3. rewrite read_namestrs_big. reflexivity.
Qed.

Lemma Ret_inj {A} (a b : A) : Ret a = Ret b -> a = b.
Proof. by intros [=]. Qed.

Section Host_Rows.

Variable native : endian.

Lemma Get_From_Buffer_big (data : list byte) (offset : Z) :
  0 <= offset ->
  (x <~ Get_From_Buffer native uint64_t data offset ;; Ret (IbmToIEEE native x))
  = (x <~ Get_From_Buffer big uint64_t data offset ;; Ret (IbmToIEEE big x)).
Proof.
  intros Ho. unfold Get_From_Buffer. cbn [sizeof_integral].
  destruct (Z.leb_spec (offset + Z.of_nat 8) (Z.of_nat (length data))); [| done].
  cbn [outcome_bind].
  f_equal. etrans; [| symmetry]; apply IbmToIEEE_big_endian;
    rewrite length_take, length_drop; lia.
Qed.

Lemma fill_target_big vars data : forall n i target,
  Forall (fun v => 0 <= position v) vars ->
  fill_target native vars data n i target = fill_target big vars data n i target.
Proof.
  induction n as [| n IH]; intros i target Hpos; cbn [fill_target]; [done |].
  destruct (vars !! i) as [mvar |] eqn:Hi; [| done].
  assert (0 <= position mvar) as Hp.
  { eapply Forall_lookup_1 in Hpos; [| exact Hi]. exact Hpos. }
  destruct (type mvar).
  - pose proof (Get_From_Buffer_big data (position mvar) Hp) as H.
    destruct (Get_From_Buffer native uint64_t data (position mvar)) as [x | |],
             (Get_From_Buffer big uint64_t data (position mvar)) as [y | |];
      cbn [outcome_bind] in *; try congruence.
    apply Ret_inj in H. rewrite H. by apply IH.
  - destruct (Get_From_Buffer_string data (position mvar) (length_ mvar));
      cbn [outcome_bind]; [by apply IH | done | done].
  - by apply IH.
Qed.

Variable stod : list byte -> conversion.
Variable to_string : double -> list byte.

Lemma Fetch_Column_Idx_big vars data idx arg :
  Forall (fun v => 0 <= position v) vars ->
  Fetch_Column_Idx native stod to_string vars data idx arg
  = Fetch_Column_Idx big stod to_string vars data idx arg.
Proof.
  intros Hpos. unfold Fetch_Column_Idx.
  destruct (vars !! Z.to_nat idx) as [mvar |] eqn:Hi; [| done].
  assert (0 <= position mvar) as Hp.
  { eapply Forall_lookup_1 in Hpos; [| exact Hi]. exact Hpos. }
  pose proof (Get_From_Buffer_big data (position mvar) Hp) as H.
  destruct arg, (type mvar); try done;
    destruct (Get_From_Buffer native uint64_t data (position mvar)) as [x | |],
             (Get_From_Buffer big uint64_t data (position mvar)) as [y | |];
    cbn [outcome_bind] in *; congruence.
Qed.

Lemma Fetch_Column_big vars data origCnt args : forall arg,
  Forall (fun v => 0 <= position v) vars ->
  Fetch_Column native stod to_string vars data origCnt arg args
  = Fetch_Column big stod to_string vars data origCnt arg args.
Proof.
  induction args as [| a args IH]; intros arg Hpos; cbn [Fetch_Column];
    rewrite Fetch_Column_Idx_big by exact Hpos; [done |].
  by rewrite IH.
Qed.

End Host_Rows.

(** X22.  Both forms of [Read_Next] do the same on a little-endian and
    on a big-endian host, for a table whose offsets are values of
    [size_t]: the decoded row, the outcome and the session are the same. *)
Theorem Read_Next_host_independent (native : endian)
    (stod : list byte -> conversion) (to_string : double -> list byte)
    (target : list TValue) (arg : TValue) (args : list TValue) (f : File) :
  Forall (fun v => 0 <= position v) (mVariables f) ->
  Read_Next native target f = Read_Next big target f
  /\ Read_Next_args native stod to_string arg args f
     = Read_Next_args big stod to_string arg args f.
Proof.
  intros Hpos. rewrite !Read_Next_eq, !Read_Next_args_eq.
  rewrite (fill_target_big native) by exact Hpos.
  by rewrite (Fetch_Column_big native) by exact Hpos.
Qed.

Lemma Read_Next_host_independent_witness :
  let f := Fixture.session big (Fixture.file Fixture.good) in
  Forall (fun v => 0 <= position v) (mVariables f)
  /\ Read_Next little [] f = Read_Next big [] f.
Proof.
  intros f.
  assert (Forall (fun v => 0 <= position v) (mVariables f)) as H.
  { vm_compute. repeat constructor; discriminate. }
  split; [exact H |].
  apply (Read_Next_host_independent little Fixture.stod Fixture.to_string []
           (TDouble (bit_cast_double 0)) [] f H).
Defined.

(** X23.  The integer fields of a descriptor are decoded as big-endian
    numbers on every host: the type code, the length and the variable
    number as unsigned 16-bit numbers, the offset as a signed 32-bit number
    converted to [size_t].  A negative offset becomes a value of at least
    2^64 - 2^31, so that no extraction at it lies in a row buffer. *)
Theorem Variable_Record_of_fields (native : endian) (n1 n2 : list byte) :
  length n1 = 80%nat -> length n2 = 60%nat ->
  let v := Variable_Record_of native n1 n2 in
  type v = NVar_Type.of_Z (be_decode (ntype n1))
  /\ length_ v = be_decode (nlng n1)
  /\ varNum v = be_decode (nvar0 n1)
  /\ position v = signed32_as_size_t (be_decode (npos n2))
  /\ 0 <= length_ v < 2 ^ 16
  /\ 0 <= position v < 2 ^ 64
  /\ (2 ^ 31 <= be_decode (npos n2) ->
      forall data,
        Z.of_nat (length data) < 2 ^ 63 ->
        Get_From_Buffer native uint64_t data (position v)
        = Undefined buffer_range_out_of_bounds
        /\ Get_From_Buffer_string data (position v) (length_ v)
           = Undefined buffer_range_out_of_bounds).
Proof.
  intros H1 H2 v. subst v. unfold Variable_Record_of, member_to_size_t.
  cbn [type length_ varNum position].
  assert (forall o, (o + 2 <= 80)%nat -> length (member o 2 n1) = 2%nat) as L2.
  { intros o Ho. unfold member. rewrite length_take, length_drop. lia. }
  assert (length (npos n2) = 4%nat) as L4.
  { unfold npos, member. rewrite length_take, length_drop. lia. }
  rewrite !(To_Machine_Endian_Raw_value native uint16_t) by (apply L2; lia).
  rewrite (To_Machine_Endian_Raw_value native int32_t) by exact L4.
  pose proof (be_decode_range (ntype n1)) as Rt.
  pose proof (be_decode_range (nlng n1)) as Rl.
  pose proof (be_decode_range (nvar0 n1)) as Rv.
  pose proof (be_decode_range (npos n2)) as Rp.
  unfold ntype, nlng, nvar0 in *. rewrite L2 in Rt, Rl, Rv by lia. rewrite L4 in Rp.
  change (2 ^ (8 * Z.of_nat 2)) with 65536 in *.
  change (2 ^ (8 * Z.of_nat 4)) with 4294967296 in *.
  unfold of_unsigned, to_size_t, u64, signed32_as_size_t. cbn [is_signed bit_width andb].
  change (bit_width int32_t) with 32.
  change (2 ^ (32 - 1)) with 2147483648. change (2 ^ 32) with 4294967296.
  change (2 ^ 31) with 2147483648. change (2 ^ 64) with 18446744073709551616.
  change (2 ^ 16) with 65536. change (2 ^ 63) with 9223372036854775808.
  set (t := be_decode (member 0 2 n1)) in *.
  set (l := be_decode (member 4 2 n1)) in *.
  set (n := be_decode (member 6 2 n1)) in *.
  set (p := be_decode (npos n2)) in *.
  rewrite ?(Z.mod_small t), ?(Z.mod_small l), ?(Z.mod_small n) by lia.
  assert ((if 2147483648 <=? p then p - 4294967296 else p) mod 18446744073709551616
          = if p <? 2147483648 then p else p + (18446744073709551616 - 4294967296)) as ->.
  { destruct (Z.leb_spec 2147483648 p), (Z.ltb_spec p 2147483648); try lia.
    - symmetry. apply (Z.mod_unique _ _ (-1)); lia.
    - apply Z.mod_small. lia. }
  split_and!; try done; try lia.
  all: try (intros Hneg data Hdata).
  all: destruct (Z.ltb_spec p 2147483648); try lia.
  all: unfold Get_From_Buffer, Get_From_Buffer_string; cbn [sizeof_integral].
  all: repeat match goal with
       | |- context [?a <=? ?b] => destruct (Z.leb_spec a b); [lia |]
       end.
  all: done.
Qed.

Lemma Variable_Record_of_fields_witness :
  let n1 := take 80 Examples.negative_offset in
  let n2 := drop 80 Examples.negative_offset in
  let v := Variable_Record_of little n1 n2 in
  (length n1 = 80%nat /\ length n2 = 60%nat)
  /\ length_ v = 4
  /\ position v = 2 ^ 64 - 1.
Proof.
  intros n1 n2 v.
  assert (length n1 = 80%nat) as H1 by reflexivity.
  assert (length n2 = 60%nat) as H2 by reflexivity.
  split; [done |].
  destruct (Variable_Record_of_fields little n1 n2 H1 H2) as (_ & Hl & _ & Hp & _).
  split.
  - etrans; [exact Hl | by_computation].
  - etrans; [exact Hp | by_computation].
Defined.

(** ** The header reader: further properties *)

Section Headers_More.

Variable native : endian.

(** The position of the observation header in a file shorter than 2^63
    bytes that holds the announced descriptors. *)
Lemma before_observation_offset f cnt :
  file_size_ok (mFile f) ->
  failbit (mFile f) = false ->
  0 <= cnt ->
  can_read (mFile (after_headers f)) (140 * Z.to_nat cnt) ->
  let fo := before_observation native f (Z.to_nat cnt) in
  let q := (640 + Z.to_nat (140 * cnt + documented_padding (140 * cnt)))%nat in
  gpos (mFile fo) = (gpos (mFile f) + q)%nat
  /\ block fo 0 = block f q
  /\ (can_read (mFile fo) 80 <-> can_read (mFile f) (q + 80)).
Proof.
  intros Hsize Hf Hcnt Hcn. cbv zeta.
  pose proof (readCnt_no_wrap f cnt Hsize Hcnt Hcn) as Hwrap.
  destruct (documented_padding_range (140 * cnt)) as [Hpad _].
  pose proof (gpos_before_observation native f (Z.to_nat cnt)) as Hg.
  rewrite Hwrap in Hg.
  replace (gpos (mFile f) + 640 + 140 * Z.to_nat cnt
           + Z.to_nat (documented_padding (140 * cnt)))%nat
    with (gpos (mFile f)
          + (640 + Z.to_nat (140 * cnt + documented_padding (140 * cnt))))%nat
    in Hg by lia.
  split; [exact Hg |]. split.
  - unfold block. rewrite content_before_observation, Hg. by rewrite Nat.add_0_r.
  - unfold can_read.
    rewrite failbit_before_observation, content_before_observation, Hg, Hf.
    split; intros [_ H]; (split; [done | lia]).
Qed.

(** The run of [Read_Headers] up to the descriptor count. *)
Lemma Read_Headers_to_count f :
  can_read (mFile f) 640 ->
  carries (expected_text Header_Signature.Library) (block f 0) ->
  carries (expected_text Header_Signature.Member) (block f 240) ->
  carries (expected_text Header_Signature.Descriptor) (block f 320) ->
  carries (expected_text Header_Signature.Namestr) (block f 560) ->
  Read_Headers native f
  = (cnt <- lift (stoull (count_field (block f 560))) ;;
     readCnt <- read_namestrs native (Z.to_nat cnt) 0 ;;
     let rest := readCnt mod 80 in
     _ <- (if decide (rest <> 0) then Read_Discard (80 - rest) else ret tt) ;;
     hdr <- Read Layout.Data_Header_Generic true ;;
     if decide (Recognize_Data_Header hdr <> Header_Signature.Observation)
     then ret NStatus.No_Observation_Header
     else ret NStatus.Ok) (after_headers f).
Proof.
  intros Hc HL HM HD HN.
  unfold Read_Headers.
  read_first Hc. accept_header HL.
  read_next Hc 80%nat 160%nat. read_next Hc 160%nat 240%nat.
  read_next Hc 240%nat 320%nat. accept_header HM.
  read_next Hc 320%nat 400%nat. accept_header HD.
  read_next Hc 400%nat 480%nat. read_next Hc 480%nat 560%nat.
  read_next Hc 560%nat 640%nat. accept_header HN.
  erewrite bind_Ret; [| apply after_headers_eq; reflexivity].
  change (Layout.sizeof Layout.Data_Header_Generic) with 78%nat.
  by rewrite num2_block.
Qed.

(** The descriptor loop on a file that ends within the descriptors:
    [k] complete pairs are stored, then a read fails. *)
Lemma read_namestrs_short k : forall n readCnt f,
  (k < n)%nat ->
  can_read (mFile f) (140 * k) ->
  ¬ can_read (mFile f) (140 * (k + 1)) ->
  exists f',
    read_namestrs native n readCnt f = (Throw CEOF_Exception, f')
    /\ mVariables f' = mVariables (after_namestrs native f k)
    /\ mRecord_Len f' = mRecord_Len (after_namestrs native f k)
    /\ failbit (mFile f') = true.
Proof.
  induction k as [| k IH]; intros n readCnt f Hk Hc Hn.
  - destruct n as [| n]; [lia |]. cbn [read_namestrs after_namestrs].
    destruct Hc as [Hf _].
    destruct (decide (can_read (mFile f) 80)) as [H80 | H80].
    + unfold bind at 1.
      rewrite (Read_ok Layout.Namestr_Record_1 false f) by exact H80.
      set (f1 := after_read f _ _).
      assert (¬ can_read (mFile f1) (bytes_to_read Layout.Namestr_Record_2 false)) as H60.
      { subst f1. rewrite can_read_after_read. cbn.
        intros H. apply Hn. split; [done | lia]. }
      destruct (Read_short _ _ _ H60) as (got & s & _ & Hs & Heq).
      unfold bind at 1. rewrite Heq. eexists. split_and!; [reflexivity | done ..].
    + destruct (Read_short Layout.Namestr_Record_1 false f H80) as (got & s & _ & Hs & Heq).
      unfold bind at 1. rewrite Heq. eexists. split_and!; [reflexivity | done ..].
  - destruct n as [| n]; [lia |].
    assert (can_read (mFile f) 140) as H140.
    { eapply can_read_le; [exact Hc | lia]. }
    rewrite read_namestr_step by exact H140. cbn [after_namestrs].
    destruct Hc as [Hf Hle].
    apply IH; [lia | |].
    + split; [reflexivity | cbn; lia].
    + intros [_ H]. cbn in H. apply Hn. split; [done | lia].
Qed.

End Headers_More.

(** ** The header reader: checked properties, continued *)

(** X24.  On a file shorter than 2^63 bytes [Read_Headers] returns [Ok]
    exactly when the stream can deliver the header records, the announced
    descriptors, the padding to the next multiple of 80 bytes and the
    observation header, the descriptor count is a number, and the five
    header records at the offsets 0, 240, 320, 560 and behind the padded
    descriptors carry their signatures. *)
Theorem Read_Headers_Ok_iff (native : endian) (f : File) :
  file_size_ok (mFile f) ->
  fst (Read_Headers native f) = Ret NStatus.Ok
  <-> exists cnt,
        let q := (640 + Z.to_nat (140 * cnt + documented_padding (140 * cnt)))%nat in
        stoull (count_field (block f 560)) = Ret cnt
        /\ can_read (mFile f) (q + 80)
        /\ carries (expected_text Header_Signature.Library) (block f 0)
        /\ carries (expected_text Header_Signature.Member) (block f 240)
        /\ carries (expected_text Header_Signature.Descriptor) (block f 320)
        /\ carries (expected_text Header_Signature.Namestr) (block f 560)
        /\ carries (expected_text Header_Signature.Observation) (block f q).
Proof.
  intros Hsize. split.
  - intros H. destruct (Read_Headers native f) as [o f'] eqn:E. cbn [fst] in H. subst o.
    destruct (Read_Headers_Ret_inv native f _ f' E)
      as (cnt & Hc & HL & HM & HD & HN & Hcnt & Hcn & Hco); [by left |].
    pose proof (stoull_range _ _ Hcnt) as [[Hcnt0 _] _].
    destruct (before_observation_offset native f cnt Hsize (proj1 Hc) Hcnt0 Hcn)
      as (_ & Hblk & Hcan).
    exists cnt. cbv zeta. split_and!; try assumption.
    + by apply Hcan.
    + rewrite (Read_Headers_run native f cnt) in E by assumption.
      rewrite <- Hblk. case_decide; [done | discriminate].
  - intros (cnt & Hcnt & Hc & HL & HM & HD & HN & HO).
    pose proof (stoull_range _ _ Hcnt) as [[Hcnt0 _] _].
    destruct (documented_padding_range (140 * cnt)) as [Hpad _].
    assert (can_read (mFile (after_headers f)) (140 * Z.to_nat cnt)) as Hcn.
    { destruct Hc as [_ Hle]. split; [reflexivity | cbn; lia]. }
    destruct (before_observation_offset native f cnt Hsize (proj1 Hc) Hcnt0 Hcn)
      as (_ & Hblk & Hcan).
    rewrite (Read_Headers_run native f cnt); try assumption.
    + cbn [fst]. rewrite Hblk. by rewrite decide_True.
    + eapply can_read_le; [exact Hc | lia].
    + by apply Hcan.
Qed.

Lemma Read_Headers_Ok_iff_witness :
  let f := File_opened (Fixture.file Fixture.good) in
  file_size_ok (mFile f)
  /\ exists cnt, stoull (count_field (block f 560)) = Ret cnt
                 /\ carries (expected_text Header_Signature.Observation)
                      (block f (640 + Z.to_nat (140 * cnt + documented_padding (140 * cnt)))).
Proof.
  intros f. assert (file_size_ok (mFile f)) as Hsize by by_computation.
  split; [exact Hsize |].
  destruct (proj1 (Read_Headers_Ok_iff little f Hsize)) as (cnt & H1 & _ & _ & _ & _ & _ & H7);
    [by_computation |].
  exists cnt. split; [exact H1 | exact H7].
Defined.

(** X25.  When the header records up to the NAMESTR header are in order
    but its descriptor count does not start with a number,
    [std::invalid_argument] leaves [Read_Headers]: no status is returned.
    The stream stands behind the NAMESTR header, the record length has been
    reset to 0 and the table is as it was. *)
Theorem Read_Headers_bad_count (native : endian) (f : File) (e : exception) :
  can_read (mFile f) 640 ->
  carries (expected_text Header_Signature.Library) (block f 0) ->
  carries (expected_text Header_Signature.Member) (block f 240) ->
  carries (expected_text Header_Signature.Descriptor) (block f 320) ->
  carries (expected_text Header_Signature.Namestr) (block f 560) ->
  stoull (count_field (block f 560)) = Throw e ->
  let r := Read_Headers native f in
  e = invalid_argument
  /\ fst r = Throw invalid_argument
  /\ gpos (mFile (snd r)) = (gpos (mFile f) + 640)%nat
  /\ mRecord_Len (snd r) = 0
  /\ mVariables (snd r) = mVariables f.
Proof.
  intros Hc HL HM HD HN Hcnt r. subst r.
  pose proof (stoull_short _ (length_count_field (block f 560))) as Hs.
  rewrite Hcnt in Hs. cbn in Hs. subst e.
  assert (Read_Headers native f = (Throw invalid_argument, after_headers f)) as ->.
  { rewrite Read_Headers_to_count by assumption.
    unfold bind at 1, lift at 1. by rewrite Hcnt. }
  cbn. done.
Qed.

Lemma Read_Headers_bad_count_witness :
  let f := File_opened (Examples.bad_count_file) in
  fst (Read_Headers little f) = Throw invalid_argument
  /\ mRecord_Len (snd (Read_Headers little f)) = 0.
Proof.
  intros f.
  destruct (Read_Headers_bad_count little f invalid_argument)
    as (_ & H1 & _ & H2 & _); try by_computation.
  split; [exact H1 | exact H2].
Defined.

(** X26.  When the file ends within the announced descriptors, after k
    complete pairs, [CEOF_Exception] leaves [Read_Headers], and the
    session keeps what the loop had stored: the k descriptors are in the
    table and the record length is the sum of their lengths. *)
Theorem Read_Headers_truncated_descriptors (native : endian) (f : File)
    (cnt : Z) (k : nat) :
  can_read (mFile f) (640 + 140 * k) ->
  ¬ can_read (mFile f) (640 + 140 * (k + 1)) ->
  carries (expected_text Header_Signature.Library) (block f 0) ->
  carries (expected_text Header_Signature.Member) (block f 240) ->
  carries (expected_text Header_Signature.Descriptor) (block f 320) ->
  carries (expected_text Header_Signature.Namestr) (block f 560) ->
  stoull (count_field (block f 560)) = Ret cnt ->
  (k < Z.to_nat cnt)%nat ->
  let r := Read_Headers native f in
  let stored := descriptors native (content (mFile f)) (gpos (mFile f) + 640) k in
  fst r = Throw CEOF_Exception
  /\ mVariables (snd r) = mVariables f ++ stored
  /\ mRecord_Len (snd r) = u64 (sum_lengths stored)
  /\ failbit (mFile (snd r)) = true.
Proof.
  intros Hc Hn HL HM HD HN Hcnt Hk r stored. subst r stored.
  destruct (read_namestrs_short native k (Z.to_nat cnt) 0 (after_headers f) Hk)
    as (f' & Heq & HV & HL' & HF).
  { destruct Hc as [_ Hle]. split; [reflexivity | cbn; lia]. }
  { intros [_ H]. cbn in H. apply Hn. split; [apply Hc | lia]. }
  assert (Read_Headers native f = (Throw CEOF_Exception, f')) as ->.
  { rewrite Read_Headers_to_count; try assumption.
    2:{ eapply can_read_le; [exact Hc | lia]. }
    unfold bind at 1, lift at 1. rewrite Hcnt.
    unfold bind at 1. by rewrite Heq. }
  cbn [fst snd].
  rewrite HV, HL', mVariables_after_namestrs, mRecord_Len_after_namestrs by reflexivity.
  cbn [after_headers mVariables mRecord_Len mFile content gpos].
  split_and!; [done | done | by rewrite Z.add_0_l | done].
Qed.

Lemma Read_Headers_truncated_descriptors_witness :
  let f := File_opened (take 800 (Fixture.file Fixture.good)) in
  let r := Read_Headers little f in
  fst r = Throw CEOF_Exception
  /\ length (mVariables (snd r)) = 1%nat
  /\ mRecord_Len (snd r) = 8.
Proof.
  intros f r.
  destruct (Read_Headers_truncated_descriptors little f 2 1)
    as (H1 & H2 & H3 & _); try by_computation.
  split_and!.
  - exact H1.
  - etrans; [exact (f_equal length H2) | by_computation].
  - etrans; [exact H3 | by_computation].
Defined.

(** X27.  A run of [Read_Headers] that reaches the observation header on
    a file shorter than 2^63 bytes, whether it returns [Ok] or
    [No_Observation_Header], has appended the announced descriptors to the
    table without removing the ones it held, and has set the record length
    to the sum of the lengths of the new descriptors alone. *)
Theorem Read_Headers_appends (native : endian) (f f' : File) (st : NStatus.t) :
  file_size_ok (mFile f) ->
  Read_Headers native f = (Ret st, f') ->
  st = NStatus.Ok \/ st = NStatus.No_Observation_Header ->
  exists cnt,
    let new := descriptors native (content (mFile f)) (gpos (mFile f) + 640)
                 (Z.to_nat cnt) in
    stoull (count_field (block f 560)) = Ret cnt
    /\ length new = Z.to_nat cnt
    /\ mVariables f' = mVariables f ++ new
    /\ mRecord_Len f' = sum_lengths new.
Proof.
  intros Hsize H Hst.
  destruct (Read_Headers_result native f st f' H Hst) as (cnt & Hres).
  cbv zeta in Hres. destruct Hres as (Hc & Hcnt & Hcn & Hco & ->).
  pose proof (stoull_range _ _ Hcnt) as [[Hcnt0 _] Hsmall].
  specialize (Hsmall (length_count_field _)).
  exists cnt. cbv zeta. cbn [after_read mVariables mRecord_Len].
  rewrite mVariables_before_observation, mRecord_Len_before_observation.
  set (vars := descriptors native (content (mFile f)) (gpos (mFile f) + 640)
                 (Z.to_nat cnt)).
  pose proof (descriptors_lengths native (content (mFile f)) (Z.to_nat cnt)
                (gpos (mFile f) + 640)) as Hall.
  fold vars in Hall.
  assert (cnt < 10 ^ 5) as Hcnt5.
  { destruct Hsmall as [? | Hbig]; [done |].
    destruct Hcn as [_ Hle]. cbn in Hle. unfold file_size_ok in Hsize.
    change (2 ^ 63) with 9223372036854775808 in Hsize.
    change (2 ^ 64) with 18446744073709551616 in Hbig.
    change (10 ^ 5) with 100000 in *. lia. }
  split_and!; [done | apply length_descriptors | done |].
  pose proof (sum_lengths_bounds vars _ Hall) as Hb.
  subst vars. rewrite length_descriptors in Hb.
  unfold u64. apply Z.mod_small.
  change (10 ^ 5) with 100000 in *. change (2 ^ 16) with 65536 in *.
  change (2 ^ 64) with 18446744073709551616. nia.
Qed.

Lemma Read_Headers_appends_witness :
  let f := File_opened (Fixture.file Fixture.good ++ Fixture.file Fixture.good) in
  let r1 := Read_Headers little f in
  let f1 := snd (Read_Next little [] (snd (Read_Next little [] (snd r1)))) in
  let r2 := Read_Headers little f1 in
  fst r2 = Ret NStatus.Ok
  /\ length (mVariables (snd r2)) = 4%nat
  /\ mRecord_Len (snd r2) = 15
  /\ sum_lengths (mVariables (snd r2)) = 30.
Proof.
  intros f r1 f1 r2.
  assert (r2 = (Ret NStatus.Ok, snd r2)) as Hr by by_computation.
  assert (file_size_ok (mFile f1)) as Hsize by by_computation.
  destruct (Read_Headers_appends little f1 (snd r2) NStatus.Ok Hsize Hr (or_introl eq_refl))
    as (cnt & Hcnt & Hlen & HV & HL).
  assert (cnt = 2) as ->.
  { assert (stoull (count_field (block f1 560)) = Ret 2) as H2 by by_computation.
    rewrite H2 in Hcnt. by injection Hcnt. }
  split_and!.
  - by rewrite Hr.
  - rewrite HV, length_app, Hlen. by_computation.
  - etrans; [exact HL | by_computation].
  - by_computation.
Defined.

(** X28.  On a stream that cannot deliver the 80 bytes of the first
    header record (an empty or shorter file, or a stream that has failed,
    as one whose file could not be opened) [Read_Headers] returns no
    status: [CEOF_Exception] leaves it, one read was attempted, and the
    table and the record length are untouched. *)
Theorem Read_Headers_short_file (native : endian) (f : File) :
  ¬ can_read (mFile f) 80 ->
  let r := Read_Headers native f in
  fst r = Throw CEOF_Exception
  /\ failbit (mFile (snd r)) = true
  /\ mVariables (snd r) = mVariables f
  /\ mRecord_Len (snd r) = mRecord_Len f
  /\ exists got, (got < 80)%nat
       /\ trace (snd r)
          = trace f ++ [ev_Read Layout.Data_Header_Generic (gpos (mFile f)) 80 got].
Proof.
  intros Hn r. subst r.
  destruct (Read_short Layout.Data_Header_Generic true f Hn) as (got & s & Hgot & Hs & Heq).
  assert (Read_Headers native f = (Throw CEOF_Exception, snd (Read Layout.Data_Header_Generic true f)))
    as ->.
  { unfold Read_Headers. unfold bind at 1. by rewrite Heq. }
  rewrite Heq. cbn. split_and!; try done. by exists got.
Qed.

Lemma Read_Headers_short_file_witness :
  let f := File_opened (bytes_of "HEADER RECORD*******LIBRARY HEADER RECORD") in
  ¬ can_read (mFile f) 80
  /\ fst (Read_Headers little f) = Throw CEOF_Exception.
Proof.
  intros f. assert (¬ can_read (mFile f) 80) as Hn.
  { apply (bool_decide_unpack _). vm_compute. exact I. }
  split; [exact Hn |].
  apply (Read_Headers_short_file little f Hn).
Defined.

(** ** The table and the coerced decoder: further properties *)

Lemma descriptors_lookup native c n : forall p i,
  (i < n)%nat ->
  descriptors native c p n !! i
  = Some (Variable_Record_of native (take 80 (drop (p + 140 * i) c))
            (take 60 (drop (p + 140 * i + 80) c))).
Proof.
  induction n as [| n IH]; intros p i Hi; [lia |].
  cbn [descriptors]. destruct i as [| i]; cbn [lookup list_lookup].
  - by rewrite Nat.mul_0_r, Nat.add_0_r.
  - rewrite IH by lia. do 3 f_equal; f_equal; lia.
Qed.

(** X29.  After [Read_Headers] has returned [Ok] on a session with an
    empty table (on a file shorter than 2^63 bytes),
    [Get_Variable_Vector] holds one entry for each announced descriptor, in
    the order of the file: entry i is made of the 140 bytes that start 640
    + 140 i bytes behind the start of the headers, whatever variable
    numbers and offsets the descriptors declare. *)
Theorem Get_Variable_Vector_file_order (native : endian) (f f' : File) :
  file_size_ok (mFile f) ->
  mVariables f = [] ->
  Read_Headers native f = (Ret NStatus.Ok, f') ->
  exists cnt,
    stoull (count_field (block f 560)) = Ret cnt
    /\ length (Get_Variable_Vector f') = Z.to_nat cnt
    /\ forall i, (i < Z.to_nat cnt)%nat ->
         let p := (gpos (mFile f) + 640 + 140 * i)%nat in
         let c := content (mFile f) in
         Get_Variable_Vector f' !! i
         = Some (Variable_Record_of native (take 80 (drop p c))
                   (take 60 (drop (p + 80) c))).
Proof.
  intros Hsize Hfresh H.
  destruct (Read_Headers_result native f _ f' H) as (cnt & Hres); [by left |].
  cbv zeta in Hres. destruct Hres as (Hc & Hcnt & Hcn & Hco & ->).
  exists cnt. unfold Get_Variable_Vector. cbn [after_read mVariables].
  rewrite mVariables_before_observation, Hfresh. cbn [app].
  split_and!; [done | apply length_descriptors |].
  intros i Hi. cbv zeta. by rewrite descriptors_lookup by exact Hi.
Qed.

Lemma Get_Variable_Vector_file_order_witness :
  let f := File_opened (Fixture.file Fixture.good) in
  let f' := snd (Read_Headers little f) in
  length (Get_Variable_Vector f') = 2%nat
  /\ exists v, Get_Variable_Vector f' !! 1%nat = Some v
               /\ name v = bytes_of "NAME" /\ position v = 8.
Proof.
  intros f f'.
  destruct (Get_Variable_Vector_file_order little f f') as (cnt & Hcnt & Hlen & Hall);
    try by_computation.
  assert (cnt = 2) as ->.
  { assert (stoull (count_field (block f 560)) = Ret 2) as H2 by by_computation.
    rewrite H2 in Hcnt. by injection Hcnt. }
  split; [exact Hlen |].
  eexists. split; [apply (Hall 1%nat); by_computation |].
  split; by_computation.
Defined.

(** X30.  In the coerced [Read_Next], a string parameter matched with a
    column that is not a character variable (a numeric variable, or one
    with another type code) receives [std::to_string] of the number decoded
    from the eight bytes at the offset of the column; for the call to
    succeed those eight bytes must lie within the row. *)
Theorem Read_Next_args_string_from_number (native : endian)
    (stod : list byte -> conversion) (to_string : double -> list byte)
    (arg : TValue) (args : list TValue) (f : File)
    (i : nat) (s0 : list byte) (v : Variable_Record) (out : list TValue) :
  let slots := arg :: args in
  Z.of_nat (length slots) < 2 ^ 64 ->
  slots !! i = Some (TString s0) ->
  mVariables f !! i = Some v ->
  type v <> NVar_Type.String ->
  0 <= position v ->
  fst (Read_Next_args native stod to_string arg args f) = (out, Ret true) ->
  let data := row_buffer f in
  out !! i = Some (TString (to_string
                              (IbmToIEEE big (be_decode (cell data (position v) 8)))))
  /\ position v + 8 <= mRecord_Len f.
Proof.
  intros slots HN Hslot Hv Hty Hpos H data. subst data.
  rewrite Read_Next_args_eq in H. cbn [fst] in H.
  destruct (decide (0 <= mRecord_Len f <= Z.of_nat (remaining (mFile f)))) as [Hrow | ?];
    [| discriminate].
  change (Z.of_nat (length (arg :: args)))
    with (Z.of_nat (0 + length (arg :: args))) in H.
  rewrite Fetch_Column_fetch_from in H by exact HN.
  destruct (fetch_from _ _ _ _ _ _ _) as [out' o] eqn:E.
  destruct o as [[] | |]; try discriminate. injection H as ->.
  apply fetch_from_Ret in E as (_ & Hall).
  destruct (Hall i _ Hslot) as (w & Hw & Hout). cbn [Nat.add] in Hw.
  unfold Fetch_Column_Idx in Hw. rewrite Nat2Z.id, Hv in Hw.
  assert ((x <~ Get_From_Buffer native uint64_t (row_buffer f) (position v) ;;
           Ret (TString (to_string (IbmToIEEE native x)))) = Ret w) as Hw'.
  { destruct (type v); [exact Hw | done | exact Hw]. }
  clear Hw.
  destruct (Get_From_Buffer native uint64_t (row_buffer f) (position v)) as [x | |] eqn:Hx;
    cbn [outcome_bind] in Hw'; try discriminate.
  injection Hw' as <-.
  rewrite (Get_From_Buffer_uint64 native _ _ _ Hx Hpos) in Hout.
  split; [exact Hout |].
  unfold Get_From_Buffer in Hx. cbn [sizeof_integral] in Hx.
  destruct (Z.leb_spec (position v + Z.of_nat 8) (Z.of_nat (length (row_buffer f))));
    [| discriminate].
  rewrite (length_row_buffer f Hrow) in *. lia.
Qed.

Lemma Read_Next_args_string_from_number_witness :
  let f := Fixture.session little (Fixture.file Fixture.good) in
  exists out,
    fst (Read_Next_args little Fixture.stod Fixture.to_string (TString []) [] f)
    = (out, Ret true)
    /\ out !! 0%nat = Some (TString (bytes_of "1.000000")).
Proof.
  intros f.
  assert (exists v, mVariables f !! 0%nat = Some v /\ type v <> NVar_Type.String
                    /\ 0 <= position v
                    /\ Fixture.to_string
                         (IbmToIEEE big (be_decode (cell (row_buffer f) (position v) 8)))
                       = bytes_of "1.000000") as (v & Hv & Hty & Hpos & Hs).
  { eexists. split; [by_computation |].
    split; [vm_compute; discriminate |]. split; by_computation. }
  assert (exists out,
            fst (Read_Next_args little Fixture.stod Fixture.to_string (TString []) [] f)
            = (out, Ret true)) as (out & Hr).
  { eexists. by_computation. }
  exists out. split; [exact Hr |].
  rewrite <- Hs.
  apply (Read_Next_args_string_from_number little Fixture.stod Fixture.to_string
           (TString []) [] f 0 [] v out); [by_computation | reflexivity | exact Hv
                                           | exact Hty | exact Hpos | exact Hr].
Defined.

(** ** The record length and the row buffer *)




